(** * influscraper: browser pool, Instagram queue, retry helper, health reduction

    A shallow embedding of the coordination core of the scraper service:
    - [Retry]         : [withRetry] of the Instagram parser,
    - [Health]        : the status reduction of [routes/health.ts],
    - [BrowserPool]   : the pool of browser instances ([browser/browser-pool.ts]),
    - [InstagramQueue]: the queue wrapper ([queue/instagram-queue.ts]) over the
                        p-queue package,
    and of what stands around it:
    - [Platform]      : [detectPlatform] of [utils/platform.ts],
    - [Cache]         : [getCache] and [setCache] of [utils/cache.ts],
    - [ParseRoute]    : the handler of [POST /parse] ([routes/parse.ts]),
    - [HealthRoute]   : the four checks and the routes of [routes/health.ts],
    - [Instagram]     : [scrapeInstagramProfile] of [parsers/instagram.ts],
    - [Telegram]      : [tgScrape] of [parsers/telegram.ts].

    JavaScript numbers that hold counts and millisecond timestamps are integers
    ([Z]); an asynchronous function is cut at its [await]s into the segments the
    event loop runs without interruption, and each segment is a function on the
    shared state.  What the runtime and the packages do (URL parsing, JSON,
    Redis, Playwright, HTTP) enters as a parameter or as a stated model. *)

From Stdlib Require Import ZArith List String Bool Arith Lia Permutation.
From Stdlib Require Import Ascii DecimalString.
Import ListNotations.

Local Open Scope string_scope.
Local Open Scope list_scope.
Local Open Scope Z_scope.

(* ================================================================== *)
(** ** JavaScript values that cross the modelled interfaces *)

Module Js.

(** A value that can be thrown: an [Error] instance with its message, any other
    value through its string conversion, or [undefined]. *)
Inductive Value :=
| Error (message : string)
| Other (repr : string)
| Undefined.

(** [error instanceof Error] *)
Definition instanceofError (v : Value) : bool :=
  match v with Error _ => true | _ => false end.

(** [String(error)] *)
Definition toString (v : Value) : string :=
  match v with
  | Error m => String.append "Error: " m
  | Other s => s
  | Undefined => "undefined"
  end.

(** How an awaited promise ends. *)
Inductive Outcome (T : Type) :=
| Resolved (value : T)
| Rejected (reason : Value).
Arguments Resolved {T} value.
Arguments Rejected {T} reason.

Definition isRejected {T} (o : Outcome T) : bool :=
  match o with Rejected _ => true | Resolved _ => false end.

(** The thrown value of a rejected promise ([undefined] for a resolved one). *)
Definition reasonOf {T} (o : Outcome T) : Value :=
  match o with Rejected e => e | Resolved _ => Undefined end.

(** Truthiness of an optional string argument ([if (_proxy)]): [undefined] and
    the empty string are falsy. *)
Definition truthy (s : option string) : bool :=
  match s with
  | None => false
  | Some EmptyString => false
  | Some _ => true
  end.

End Js.

(* ================================================================== *)
(** ** parsers/instagram.ts : withRetry *)

Module Retry.

(** What a run of [withRetry] does, in order: its log records, the calls of the
    operation and the timers it waits on. *)
Inductive Event :=
| LogDebug (correlationId : string) (attempt maxAttempts : Z)
| Invoke (attempt : Z)
| LogWarn (correlationId : string) (attempt maxAttempts : Z) (error : string)
| Sleep (delay : Z).

(** [Math.min(1000 * Math.pow(2, attempt - 1), 10000)] *)
Definition backoff (attempt : Z) : Z :=
  Z.min (1000 * 2 ^ (attempt - 1)) 10000.

(** [error instanceof Error ? error : new Error(String(error))] *)
Definition asError (error : Js.Value) : Js.Value :=
  if Js.instanceofError error then error else Js.Error (Js.toString error).

(** [lastError.message] of a value built by [asError]. *)
Definition messageOf (v : Js.Value) : string :=
  match v with Js.Error m => m | _ => Js.toString v end.

Section WithRetry.

(** The operation is an opaque asynchronous closure: it acts on the rest of the
    world (page, network) and ends resolved or rejected.  Waiting on a timer
    lets the world move on. *)
Variables World T : Type.
Variable sleep : Z -> World -> World.

Definition Operation := World -> Js.Outcome T * World.

Record Run := {
  outcome : Js.Outcome T;
  world : World;
  events : list Event
}.

Definition prepend (evs : list Event) (r : Run) : Run :=
  {| outcome := outcome r; world := world r; events := evs ++ events r |}.

(** The [for] loop from [attempt]; [fuel] bounds the iterations left. *)
Fixpoint retryLoop (fuel : nat) (operation : Operation) (maxAttempts : Z)
  (correlationId : string) (attempt : Z) (lastError : Js.Value) (w : World) : Run :=
  match fuel with
  | O => {| outcome := Js.Rejected lastError; world := w; events := [] |}
  | S fuel' =>
    if attempt <=? maxAttempts then
      match operation w with
      | (Js.Resolved v, w1) =>
          {| outcome := Js.Resolved v; world := w1;
             events := [LogDebug correlationId attempt maxAttempts; Invoke attempt] |}
      | (Js.Rejected error, w1) =>
          let lastError' := asError error in
          let seen := [LogDebug correlationId attempt maxAttempts; Invoke attempt;
                       LogWarn correlationId attempt maxAttempts (messageOf lastError')] in
          if attempt <? maxAttempts then
            let delay := backoff attempt in
            prepend (seen ++ [Sleep delay])
              (retryLoop fuel' operation maxAttempts correlationId (attempt + 1)
                 lastError' (sleep delay w1))
          else
            prepend seen
              (retryLoop fuel' operation maxAttempts correlationId (attempt + 1)
                 lastError' w1)
      end
    else {| outcome := Js.Rejected lastError; world := w; events := [] |}
  end.

(** [withRetry(operation, maxAttempts, correlationId)]: [lastError] starts
    unassigned, the loop starts at attempt 1 and makes at most [maxAttempts]
    iterations before its condition fails. *)
Definition withRetry (operation : Operation) (maxAttempts : Z)
  (correlationId : string) (w : World) : Run :=
  retryLoop (S (Z.to_nat maxAttempts)) operation maxAttempts correlationId 1
    Js.Undefined w.

(** Number of calls of the operation in a run. *)
Definition invocations (evs : list Event) : nat :=
  List.length (filter (fun e => match e with Invoke _ => true | _ => false end) evs).

(** The timer delays of a run, in order. *)
Fixpoint waits (evs : list Event) : list Z :=
  match evs with
  | [] => []
  | Sleep d :: rest => d :: waits rest
  | _ :: rest => waits rest
  end.

(** The correlation ids and attempt numbers that reach the log. *)
Fixpoint logged (evs : list Event) : list (string * Z) :=
  match evs with
  | [] => []
  | LogDebug c a _ :: rest => (c, a) :: logged rest
  | LogWarn c a _ _ :: rest => (c, a) :: logged rest
  | _ :: rest => logged rest
  end.

(** The world in which attempt [S k] starts when the [k] attempts before it were
    all made and each was followed by its backoff wait. *)
Fixpoint worldBefore (operation : Operation) (w : World) (k : nat) : World :=
  match k with
  | O => w
  | S k' => sleep (backoff (Z.of_nat k)) (snd (operation (worldBefore operation w k')))
  end.

(** Outcome of attempt [k] (from 1) under the same proviso. *)
Definition attemptOutcome (operation : Operation) (w : World) (k : nat) : Js.Outcome T :=
  fst (operation (worldBefore operation w (pred k))).

End WithRetry.

Arguments outcome {World T} r.
Arguments world {World T} r.
Arguments events {World T} r.
Arguments withRetry {World T} sleep operation maxAttempts correlationId w.
Arguments retryLoop {World T} sleep fuel operation maxAttempts correlationId attempt lastError w.
Arguments worldBefore {World T} sleep operation w k.
Arguments attemptOutcome {World T} sleep operation w k.
Arguments prepend {World T} evs r.

(** An operation that times out twice and then delivers 42; the world counts
    its calls. *)
Definition flakyOperation : Operation nat Z :=
  fun calls =>
    (if (calls <? 2)%nat then Js.Rejected (Js.Error "Timeout 20000ms exceeded")
     else Js.Resolved 42,
     S calls).

(** An operation that fails the same way at every call. *)
Definition alwaysTimeout : Operation unit unit :=
  fun w => (Js.Rejected (Js.Error "Timeout 20000ms exceeded"), w).

End Retry.

(* ================================================================== *)
(** ** routes/health.ts : status reduction *)

Module Health.

Inductive Status := healthy | degraded | unhealthy.

Definition status_eqb (a b : Status) : bool :=
  match a, b with
  | healthy, healthy | degraded, degraded | unhealthy, unhealthy => true
  | _, _ => false
  end.

(** [HealthStatus['services']], each service by its [status]; [playwright] is
    optional. *)
Record Services := {
  redis : Status;
  instagram_queue : Status;
  browser_pool : Status;
  playwright : option Status
}.

(** [Array.prototype.includes] on statuses. *)
Definition includes (l : list Status) (x : Status) : bool :=
  existsb (status_eqb x) l.

Definition determineOverallStatus (services : Services) : Status :=
  let statuses :=
    [ redis services;
      instagram_queue services;
      browser_pool services;
      match playwright services with Some s => s | None => healthy end ] in
  if includes statuses unhealthy then unhealthy
  else if includes statuses degraded then degraded
  else healthy.

End Health.

(* ================================================================== *)
(** ** The JavaScript [Map<string, V>]: keys in insertion order *)

Module JsMap.

Section Ops.

Variable V : Type.

Definition t := list (string * V).

Fixpoint get (k : string) (m : t) : option V :=
  match m with
  | [] => None
  | (k', v) :: rest => if String.eqb k k' then Some v else get k rest
  end.

(** [set] keeps the place of a key that is present and appends a new one. *)
Fixpoint set (k : string) (v : V) (m : t) : t :=
  match m with
  | [] => [(k, v)]
  | (k', v') :: rest =>
      if String.eqb k k' then (k, v) :: rest else (k', v') :: set k v rest
  end.

Fixpoint delete (k : string) (m : t) : t :=
  match m with
  | [] => []
  | (k', v') :: rest =>
      if String.eqb k k' then rest else (k', v') :: delete k rest
  end.

Definition size (m : t) : Z := Z.of_nat (List.length m).

Definition keys (m : t) : list string := map fst m.

Definition values (m : t) : list V := map snd m.

End Ops.

Arguments get {V} k m.
Arguments set {V} k v m.
Arguments delete {V} k m.
Arguments size {V} m.
Arguments keys {V} m.
Arguments values {V} m.

End JsMap.

(* ================================================================== *)
(** ** browser/browser-pool.ts *)

Module BrowserPool.

(** [config.browser] *)
Record Config := {
  poolSize : Z;
  idleTimeout : Z;
  launchTimeout : Z
}.

(** A launched browser, by the one launch option that varies:
    [launchOptions.proxy.server], absent when no proxy was given. *)
Record Browser := { proxyServer : option string }.

(** The context [browser.newContext(...)] returned. *)
Record BrowserContext := { owner : Browser }.

Record BrowserInstance := {
  browser : Browser;
  context : BrowserContext;
  createdAt : Z;
  lastUsed : Z;
  isActive : bool;
  id : string
}.

(** The fields of the [BrowserPool] object; [cleanupInterval] is the timer of the
    constructor, [true] while it is armed. *)
Record Pool := {
  instances : JsMap.t BrowserInstance;
  cleanupInterval : bool;
  isShuttingDown : bool
}.

(** [new BrowserPool()] *)
Definition create : Pool :=
  {| instances := []; cleanupInterval := true; isShuttingDown := false |}.

(** What [getBrowserContext] resolves with. *)
Record Lease := {
  leased : BrowserContext;
  instanceId : string
}.

Definition withInstances (p : Pool) (m : JsMap.t BrowserInstance) : Pool :=
  {| instances := m;
     cleanupInterval := cleanupInterval p;
     isShuttingDown := isShuttingDown p |}.

(** Assignment to [lastUsed] and [isActive] of an instance held by the map.  The
    map holds every instance under its own [id] (see [createBrowserInstance]),
    so writing to the object is an update of the entry at [key]. *)
Definition assign (key : string) (instance : BrowserInstance)
  (lastUsed' : Z) (isActive' : bool) (p : Pool) : Pool :=
  withInstances p
    (JsMap.set key
       {| browser := browser instance; context := context instance;
          createdAt := createdAt instance; lastUsed := lastUsed';
          isActive := isActive'; id := id instance |}
       (instances p)).

(** [findAvailableInstance(_proxy)]: the first instance that is not active; the
    proxy takes no part. *)
Definition findAvailableInstance (_proxy : option string) (p : Pool)
  : option BrowserInstance :=
  find (fun instance => negb (isActive instance)) (JsMap.values (instances p)).

(** [launchOptions.proxy = { server: _proxy }] under [if (_proxy)]. *)
Definition launchProxy (_proxy : option string) : option string :=
  if Js.truthy _proxy then _proxy else None.

(** How the first segment of [getBrowserContext] ends: it returns, throws, or
    stops at the [await] of a launch or of [waitForAvailableInstance]. *)
Inductive Acquire :=
| Returns (lease : Lease) (p : Pool)
| Throws (error : Js.Value)
| AwaitsLaunch
| AwaitsRelease.

Definition getBrowserContext (cfg : Config) (proxy : option string) (now : Z)
  (p : Pool) : Acquire :=
  if isShuttingDown p then Throws (Js.Error "Browser pool is shutting down")
  else
    match findAvailableInstance proxy p with
    | Some availableInstance =>
        Returns {| leased := context availableInstance;
                   instanceId := id availableInstance |}
                (assign (id availableInstance) availableInstance now true p)
    | None =>
        if JsMap.size (instances p) <? poolSize cfg then AwaitsLaunch
        else AwaitsRelease
    end.

(** [createBrowserInstance(_proxy)] from the point where [chromium.launch] and
    [browser.newContext] have settled with [launched]: on success the instance
    is built and stored under [instanceId]; on failure the error is logged and
    thrown again and the map is left alone. *)
Definition createBrowserInstance (_proxy : option string) (instanceId : string)
  (launched : Js.Outcome unit) (now : Z) (p : Pool) : Js.Outcome Lease * Pool :=
  match launched with
  | Js.Resolved _ =>
      let browser := {| proxyServer := launchProxy _proxy |} in
      let instance :=
        {| browser := browser; context := {| owner := browser |};
           createdAt := now; lastUsed := now; isActive := true;
           id := instanceId |} in
      (Js.Resolved {| leased := context instance; instanceId := id instance |},
       withInstances p (JsMap.set instanceId instance (instances p)))
  | Js.Rejected error => (Js.Rejected error, p)
  end.

(** [releaseBrowserContext(instanceId)]: an unknown id is logged and ignored. *)
Definition releaseBrowserContext (instanceId : string) (now : Z) (p : Pool) : Pool :=
  match JsMap.get instanceId (instances p) with
  | None => p
  | Some instance => assign instanceId instance now false p
  end.

(** The test of the first loop of [cleanupIdleInstances], on a map entry:
    [!instance.isActive && idleTime > config.browser.idleTimeout]. *)
Definition swept (cfg : Config) (now : Z) (entry : string * BrowserInstance) : bool :=
  let instance := snd entry in
  let idleTime := now - lastUsed instance in
  negb (isActive instance) && (idleTimeout cfg <? idleTime).

(** The first loop of [cleanupIdleInstances]: the ids to close, in map order. *)
Definition instancesToCleanup (cfg : Config) (now : Z) (p : Pool) : list string :=
  JsMap.keys (filter (swept cfg now) (instances p)).

(** [closeBrowserInstance(instanceId)] once the two [close()] calls have settled
    with [closed]: the key is deleted after a clean close and, in the [catch],
    after a failed one.  An id that is not in the map is left alone. *)
Definition closeBrowserInstance (instanceId : string) (closed : Js.Outcome unit)
  (p : Pool) : Pool :=
  match JsMap.get instanceId (instances p) with
  | None => p
  | Some _ =>
      match closed with
      | Js.Resolved _ => withInstances p (JsMap.delete instanceId (instances p))
      | Js.Rejected _ => withInstances p (JsMap.delete instanceId (instances p))
      end
  end.

Record Stats := {
  totalInstances : Z;
  activeInstances : Z;
  idleInstances : Z;
  oldestInstance : Z;
  statsPoolSize : Z;
  statsIsShuttingDown : bool
}.

(** [Math.min(...xs)] of a non-empty list. *)
Definition minimum (x : Z) (xs : list Z) : Z := fold_left Z.min xs x.

Definition getStats (cfg : Config) (now : Z) (p : Pool) : Stats :=
  let all := JsMap.values (instances p) in
  {| totalInstances := Z.of_nat (List.length all);
     activeInstances := Z.of_nat (List.length (filter (fun i => isActive i) all));
     idleInstances := Z.of_nat (List.length (filter (fun i => negb (isActive i)) all));
     oldestInstance :=
       match map (fun i => now - createdAt i) all with
       | [] => 0
       | x :: xs => minimum x xs
       end;
     statsPoolSize := poolSize cfg;
     statsIsShuttingDown := isShuttingDown p |}.

(** The first segment of [shutdown]: the flag, and the timer cleared. *)
Definition beginShutdown (p : Pool) : Pool :=
  {| instances := instances p; cleanupInterval := false; isShuttingDown := true |}.

(** [withBrowserContext(task, proxy)] from the point where
    [await browserPool.getBrowserContext(proxy)] has settled with [acquired] in
    pool state [p].  The task runs with the leased context while other callers
    and timers act on the pool, so it is a function of the pool state; the
    [finally] clause releases by id at time [now]. *)
Definition withBrowserContext {T : Type}
  (task : BrowserContext -> Pool -> Js.Outcome T * Pool)
  (acquired : Js.Outcome Lease) (now : Z) (p : Pool) : Js.Outcome T * Pool :=
  match acquired with
  | Js.Rejected error => (Js.Rejected error, p)
  | Js.Resolved lease =>
      let (result, p1) := task (leased lease) p in
      (result, releaseBrowserContext (instanceId lease) now p1)
  end.

(** *** The pool under interleaved callers

    Every [async] method runs up to its next [await] in one piece.  The pool's
    state between two such pieces is the [Pool] object together with what is
    suspended: launches in flight, closings in flight and waiters that poll.
    [cleanupIdleInstances] and [shutdown] await their closings, so each of them
    is several such pieces: the one that starts the closings ([CleanupTick],
    [Shutdown]) and one for every closing that settles ([CloseSettled]). *)

Record Launch := {
  launchId : string;
  launchFor : option string
}.

(** A caller inside [waitForAvailableInstance]: [found] once its interval has
    been cleared, [timedOut] once its 30 s timer has rejected the promise. *)
Record Waiter := {
  waiterProxy : option string;
  timedOut : bool;
  found : bool
}.

(** A sequence of [closeBrowserInstance] calls in flight: [chain] is what is
    left of it, the head being the call that is awaited now.  The loop of
    [cleanupIdleInstances] is such a sequence ([startedBy] is [None]); [shutdown]
    starts one call per key, all at once, and awaits them together
    ([startedBy] is the number of that [shutdown] call). *)
Record Closing := {
  chain : list string;
  startedBy : option nat
}.

(** [shutdownCalls] counts the calls of [shutdown] so far; [closed] lists the
    [closeBrowserInstance] calls that have gone through their [close()] awaits
    and their [delete], latest first, each with how the [close()] calls ended. *)
Record System := {
  pool : Pool;
  launching : list Launch;
  closings : list Closing;
  waiters : list Waiter;
  shutdownCalls : nat;
  closed : list (string * Js.Outcome unit)
}.

(** The sequences of closings in flight, whoever started them. *)
Definition closing (s : System) : list (list string) := map chain (closings s).

Definition boot : System :=
  {| pool := create; launching := []; closings := []; waiters := [];
     shutdownCalls := 0; closed := [] |}.

Inductive Event :=
| GetBrowserContext (proxy : option string) (instanceId : string)
| LaunchSettled (instanceId : string) (launched : Js.Outcome unit)
| PollAvailable (waiter : nat)
| WaitTimeout (waiter : nat)
| ReleaseBrowserContext (instanceId : string)
| CleanupTick
| CloseSettled (instanceId : string) (closed : Js.Outcome unit)
| Shutdown.

Definition withPool (s : System) (p : Pool) : System :=
  {| pool := p; launching := launching s; closings := closings s;
     waiters := waiters s; shutdownCalls := shutdownCalls s; closed := closed s |}.

Definition withLaunching (s : System) (ls : list Launch) : System :=
  {| pool := pool s; launching := ls; closings := closings s;
     waiters := waiters s; shutdownCalls := shutdownCalls s; closed := closed s |}.

Definition withClosings (s : System) (cs : list Closing) : System :=
  {| pool := pool s; launching := launching s; closings := cs;
     waiters := waiters s; shutdownCalls := shutdownCalls s; closed := closed s |}.

Definition withWaiters (s : System) (ws : list Waiter) : System :=
  {| pool := pool s; launching := launching s; closings := closings s;
     waiters := ws; shutdownCalls := shutdownCalls s; closed := closed s |}.

(** The ids of a sequence of closings, from the first that is still in the map:
    [closeBrowserInstance] returns at once for the others. *)
Fixpoint startClosing (ids : list string) (p : Pool) : list string :=
  match ids with
  | [] => []
  | instanceId :: rest =>
      match JsMap.get instanceId (instances p) with
      | Some _ => ids
      | None => startClosing rest p
      end
  end.

(** A sequence joins those in flight, unless nothing is left of it to close:
    on the sequences alone, and with their starters. *)
Definition addClosing (chain : list string) (chains : list (list string))
  : list (list string) :=
  match chain with [] => chains | _ => chains ++ [chain] end.

Definition addStarted (c : Closing) (cs : list Closing) : list Closing :=
  match chain c with [] => cs | _ => cs ++ [c] end.

(** Removes the first launch in flight for [instanceId]. *)
Fixpoint takeLaunch (instanceId : string) (ls : list Launch)
  : option (Launch * list Launch) :=
  match ls with
  | [] => None
  | l :: rest =>
      if String.eqb instanceId (launchId l) then Some (l, rest)
      else match takeLaunch instanceId rest with
           | Some (l', rest') => Some (l', l :: rest')
           | None => None
           end
  end.

(** Removes the first sequence of closings whose closing in flight is
    [instanceId], and gives what is left of that sequence. *)
Fixpoint takeClosing (instanceId : string) (chains : list (list string))
  : option (list string * list (list string)) :=
  match chains with
  | [] => None
  | chain :: others =>
      match chain with
      | head :: rest =>
          if String.eqb instanceId head then Some (rest, others)
          else match takeClosing instanceId others with
               | Some (rest', others') => Some (rest', chain :: others')
               | None => None
               end
      | [] => takeClosing instanceId others
      end
  end.

(** The same on the sequences with their starters: the first whose closing in
    flight is [instanceId], with what is left of it. *)
Fixpoint takeStarted (instanceId : string) (cs : list Closing)
  : option (Closing * list Closing) :=
  match cs with
  | [] => None
  | c :: others =>
      match chain c with
      | head :: rest =>
          if String.eqb instanceId head
          then Some ({| chain := rest; startedBy := startedBy c |}, others)
          else match takeStarted instanceId others with
               | Some (c', others') => Some (c', c :: others')
               | None => None
               end
      | [] => takeStarted instanceId others
      end
  end.

Fixpoint setNth {A : Type} (n : nat) (x : A) (l : list A) : list A :=
  match l, n with
  | [], _ => []
  | _ :: rest, O => x :: rest
  | y :: rest, S n' => y :: setNth n' x rest
  end.

(** One uninterrupted piece of pool code at time [now], with the
    [getBrowserContext] promises it settles. *)
Definition step (cfg : Config) (now : Z) (ev : Event) (s : System)
  : System * list (Js.Outcome Lease) :=
  match ev with
  | GetBrowserContext proxy instanceId =>
      match getBrowserContext cfg proxy now (pool s) with
      | Returns lease p => (withPool s p, [Js.Resolved lease])
      | Throws error => (s, [Js.Rejected error])
      | AwaitsLaunch =>
          (withLaunching s
             (launching s ++ [{| launchId := instanceId; launchFor := proxy |}]),
           [])
      | AwaitsRelease =>
          (withWaiters s
             (waiters s ++ [{| waiterProxy := proxy; timedOut := false;
                               found := false |}]),
           [])
      end
  | LaunchSettled instanceId launched =>
      match takeLaunch instanceId (launching s) with
      | None => (s, [])
      | Some (l, rest) =>
          let (result, p) :=
            createBrowserInstance (launchFor l) instanceId launched now (pool s) in
          (withLaunching (withPool s p) rest, [result])
      end
  | PollAvailable k =>
      match nth_error (waiters s) k with
      | None => (s, [])
      | Some w =>
          if found w then (s, [])
          else
            match findAvailableInstance (waiterProxy w) (pool s) with
            | None => (s, [])
            | Some available =>
                (withWaiters
                   (withPool s (assign (id available) available now true (pool s)))
                   (setNth k {| waiterProxy := waiterProxy w;
                                timedOut := timedOut w;
                                found := true |} (waiters s)),
                 if timedOut w then []
                 else [Js.Resolved {| leased := context available;
                                      instanceId := id available |}])
            end
      end
  | WaitTimeout k =>
      match nth_error (waiters s) k with
      | None => (s, [])
      | Some w =>
          if found w || timedOut w then (s, [])
          else
            (withWaiters s
               (setNth k {| waiterProxy := waiterProxy w;
                            timedOut := true;
                            found := false |} (waiters s)),
             [Js.Rejected (Js.Error "Timeout waiting for available browser instance")])
      end
  | ReleaseBrowserContext instanceId =>
      (withPool s (releaseBrowserContext instanceId now (pool s)), [])
  | CleanupTick =>
      if cleanupInterval (pool s) then
        (withClosings s
           (addStarted
              {| chain := startClosing (instancesToCleanup cfg now (pool s)) (pool s);
                 startedBy := None |}
              (closings s)),
         [])
      else (s, [])
  | CloseSettled instanceId closed' =>
      match takeStarted instanceId (closings s) with
      | None => (s, [])
      | Some (rest, others) =>
          let p := closeBrowserInstance instanceId closed' (pool s) in
          ({| pool := p; launching := launching s;
              closings := addStarted
                            {| chain := startClosing (chain rest) p;
                               startedBy := startedBy rest |}
                            others;
              waiters := waiters s;
              shutdownCalls := shutdownCalls s;
              closed := (instanceId, closed') :: closed s |}, [])
      end
  | Shutdown =>
      let p := beginShutdown (pool s) in
      ({| pool := p; launching := launching s;
          closings := closings s
                      ++ map (fun instanceId =>
                                {| chain := [instanceId];
                                   startedBy := Some (shutdownCalls s) |})
                             (JsMap.keys (instances p));
          waiters := waiters s;
          shutdownCalls := S (shutdownCalls s);
          closed := closed s |}, [])
  end.

(** A schedule: the pieces that run, in order, each at its time. *)
Fixpoint run (cfg : Config) (schedule : list (Z * Event)) (s : System) : System :=
  match schedule with
  | [] => s
  | (now, ev) :: rest => run cfg rest (fst (step cfg now ev s))
  end.

(** A schedule in which no caller enters [getBrowserContext] while a launch
    is in flight. *)
Fixpoint serial (cfg : Config) (schedule : list (Z * Event)) (s : System) : bool :=
  match schedule with
  | [] => true
  | (now, ev) :: rest =>
      match ev, launching s with
      | GetBrowserContext _ _, _ :: _ => false
      | _, _ => serial cfg rest (fst (step cfg now ev s))
      end
  end.

(** Whether a sequence of closings is awaited by call [n] of [shutdown]. *)
Definition awaitedBy (n : nat) (c : Closing) : bool :=
  match startedBy c with
  | Some m => Nat.eqb m n
  | None => false
  end.

(** Call [n] of [shutdown] (from 0) has been made and its
    [await Promise.allSettled(shutdownPromises)] is over: none of the closings
    it started is still in flight. *)
Definition shutdownReturned (n : nat) (s : System) : bool :=
  (n <? shutdownCalls s)%nat && negb (existsb (awaitedBy n) (closings s)).


(** Every instance is stored under its own id and no key occurs twice. *)
Definition wellKeyed (p : Pool) : Prop :=
  NoDup (JsMap.keys (instances p)) /\
  Forall (fun entry => fst entry = id (snd entry)) (instances p).

(** A pool of three instances, seen at time 1000000 with a 300 s idle timeout:
    one busy and long unused, one idle past the timeout, one idle within it. *)
Definition plain : Browser := {| proxyServer := None |}.

Definition samplePool : Pool :=
  {| instances :=
       [ ("busy",  {| browser := plain; context := {| owner := plain |};
                      createdAt := 0; lastUsed := 1000; isActive := true;
                      id := "busy" |});
         ("stale", {| browser := plain; context := {| owner := plain |};
                      createdAt := 10; lastUsed := 2000; isActive := false;
                      id := "stale" |});
         ("fresh", {| browser := plain; context := {| owner := plain |};
                      createdAt := 20; lastUsed := 900000; isActive := false;
                      id := "fresh" |}) ];
     cleanupInterval := true;
     isShuttingDown := false |}.

Definition sampleConfig : Config :=
  {| poolSize := 3; idleTimeout := 300000; launchTimeout := 30000 |}.

End BrowserPool.

(* ================================================================== *)
(** ** The p-queue package, as the Instagram queue uses it

    p-queue is an external dependency; its sources are not part of the
    repository.  This module follows the package's own code (the private
    methods named below, the same in its versions 6 to 8) for the three
    options [InstagramQueue] sets and the methods it calls; the other options
    keep their defaults ([autoStart: true], [carryoverConcurrencyCount: false],
    no timeout), so the queue is never paused by hand and a reset of the
    interval count sets it to zero.

    The private fields are the record fields of the same names.  A timer that
    is armed is written as the time of its next firing: [intervalId] for
    [setInterval], [timeoutId] for [setTimeout]; [None] is [undefined].
    [resets] is not a field of the package: it counts how many times the
    interval count has been set back to zero, so that starts can be told apart
    by the stretch of counting they fall in. *)

Module PQueue.

Record Options := {
  concurrency : Z;
  interval : Z;
  intervalCap : Z
}.

Record Job := {
  jobId : nat;
  priority : Z
}.

Record Queue := {
  options : Options;
  waiting : list Job;
  pending : Z;
  intervalCount : Z;
  intervalEnd : Z;
  intervalId : option Z;
  timeoutId : option Z;
  resets : nat
}.

(** The fields as the constructor leaves them. *)
Definition create (o : Options) : Queue :=
  {| options := o; waiting := []; pending := 0; intervalCount := 0;
     intervalEnd := 0; intervalId := None; timeoutId := None; resets := 0 |}.

(** [new PQueue(options)]: the constructor throws a [TypeError] unless
    [intervalCap >= 1], [interval >= 0] and [concurrency >= 1]. *)
Definition construct (o : Options) : option Queue :=
  if (1 <=? intervalCap o) && (0 <=? interval o) && (1 <=? concurrency o)
  then Some (create o)
  else None.

(** [queue.size]: the jobs that wait. *)
Definition size (q : Queue) : Z := Z.of_nat (List.length (waiting q)).

(** A job goes behind every waiting job of its priority or higher. *)
Fixpoint enqueue (job : Job) (l : list Job) : list Job :=
  match l with
  | [] => [job]
  | first :: rest =>
      if priority first <? priority job then job :: l
      else first :: enqueue job rest
  end.

Definition withWaiting (q : Queue) (l : list Job) : Queue :=
  {| options := options q; waiting := l; pending := pending q;
     intervalCount := intervalCount q; intervalEnd := intervalEnd q;
     intervalId := intervalId q; timeoutId := timeoutId q; resets := resets q |}.

Definition withPending (q : Queue) (n : Z) : Queue :=
  {| options := options q; waiting := waiting q; pending := n;
     intervalCount := intervalCount q; intervalEnd := intervalEnd q;
     intervalId := intervalId q; timeoutId := timeoutId q; resets := resets q |}.

Definition withIntervalId (q : Queue) (timer : option Z) : Queue :=
  {| options := options q; waiting := waiting q; pending := pending q;
     intervalCount := intervalCount q; intervalEnd := intervalEnd q;
     intervalId := timer; timeoutId := timeoutId q; resets := resets q |}.

Definition withTimeoutId (q : Queue) (timer : option Z) : Queue :=
  {| options := options q; waiting := waiting q; pending := pending q;
     intervalCount := intervalCount q; intervalEnd := intervalEnd q;
     intervalId := intervalId q; timeoutId := timer; resets := resets q |}.

(** [this.#intervalCount = 0] *)
Definition resetCount (q : Queue) : Queue :=
  {| options := options q; waiting := waiting q; pending := pending q;
     intervalCount := 0; intervalEnd := intervalEnd q;
     intervalId := intervalId q; timeoutId := timeoutId q;
     resets := S (resets q) |}.

(** [#isIntervalIgnored]: [intervalCap === Infinity || interval === 0]; the cap
    is a finite number here. *)
Definition isIntervalIgnored (q : Queue) : bool := interval (options q) =? 0.

(** [#doesIntervalAllowAnother && #doesConcurrentAllowAnother] *)
Definition mayStart (q : Queue) : bool :=
  (isIntervalIgnored q || (intervalCount q <? intervalCap (options q)))
  && (pending q <? concurrency (options q)).

(** The getter [#isIntervalPaused].  With the interval timer stopped it looks
    at the end of the last interval: when that has passed, the count is set
    back as if the timer had fired; otherwise the interval still runs, a
    timeout is set for its end unless one is pending, and the answer is
    [true]. *)
Definition isIntervalPaused (now : Z) (q : Queue) : Queue * bool :=
  match intervalId q with
  | Some _ => (q, false)
  | None =>
      let delay := intervalEnd q - now in
      if delay <? 0 then (resetCount q, false)
      else
        (match timeoutId q with
         | Some _ => q
         | None => withTimeoutId q (Some (now + delay))
         end,
         true)
  end.

(** [#initializeIntervalIfNeeded]: arms the interval timer when it is not, and
    notes the end of the interval that starts now. *)
Definition initializeIntervalIfNeeded (now : Z) (q : Queue) : Queue :=
  if isIntervalIgnored q then q
  else
    match intervalId q with
    | Some _ => q
    | None =>
        {| options := options q; waiting := waiting q; pending := pending q;
           intervalCount := intervalCount q;
           intervalEnd := now + interval (options q);
           intervalId := Some (now + interval (options q));
           timeoutId := timeoutId q; resets := resets q |}
    end.

(** [#tryToStartAnother]: with nothing waiting the interval timer is stopped
    (and [empty], [idle] are emitted); otherwise the first waiting job is
    started when both limits allow, which counts it as pending and in the
    interval count at once, and the timer is armed unless the interval was
    found paused. *)
Definition tryToStartAnother (now : Z) (q : Queue) : Queue * option Job :=
  match waiting q with
  | [] => (withIntervalId q None, None)
  | job :: rest =>
      let (q1, paused) := isIntervalPaused now q in
      if mayStart q1 then
        let q2 :=
          {| options := options q1; waiting := rest;
             pending := pending q1 + 1;
             intervalCount := intervalCount q1 + 1;
             intervalEnd := intervalEnd q1; intervalId := intervalId q1;
             timeoutId := timeoutId q1; resets := resets q1 |} in
        (if paused then q2 else initializeIntervalIfNeeded now q2, Some job)
      else (q1, None)
  end.

(** [#processQueue]: [while (this.#tryToStartAnother()) {}].  Every turn that
    starts a job takes it from the waiting list, so the loop makes at most one
    call more than there are waiting jobs. *)
Fixpoint processQueue (fuel : nat) (now : Z) (q : Queue) : Queue * list Job :=
  match fuel with
  | O => (q, [])
  | S fuel' =>
      match tryToStartAnother now q with
      | (q1, Some job) =>
          let (q2, jobs) := processQueue fuel' now q1 in (q2, job :: jobs)
      | (q1, None) => (q1, [])
      end
  end.

(** [add(fn, options)]: the job is put in line and one start is tried. *)
Definition add (job : Job) (now : Z) (q : Queue) : Queue * option Job :=
  tryToStartAnother now (withWaiting q (enqueue job (waiting q))).

(** [#next], when a started job has finished. *)
Definition next (now : Z) (q : Queue) : Queue * option Job :=
  tryToStartAnother now (withPending q (pending q - 1)).

(** [#onInterval]: the timer is stopped when nothing was counted and nothing
    runs, the count starts again from zero, and waiting jobs are started. *)
Definition onInterval (now : Z) (q : Queue) : Queue * list Job :=
  let q1 :=
    if (intervalCount q =? 0) && (pending q =? 0) then withIntervalId q None
    else q in
  processQueue (S (List.length (waiting q))) now (resetCount q1).

(** The timer of [setInterval] fires: it stays armed, a period on, and runs
    [#onInterval]. *)
Definition intervalFired (now : Z) (q : Queue) : Queue * list Job :=
  onInterval now (withIntervalId q (Some (now + interval (options q)))).

(** [#onResumeInterval], the callback of the timeout. *)
Definition onResumeInterval (now : Z) (q : Queue) : Queue * list Job :=
  let (q1, jobs) := onInterval now q in
  (withTimeoutId (initializeIntervalIfNeeded now q1) None, jobs).

(** [clear()]: a new, empty waiting list; nothing else is touched. *)
Definition clear (q : Queue) : Queue := withWaiting q [].

(** The condition of [onIdle()], and of the [idle] event. *)
Definition isIdle (q : Queue) : bool :=
  (pending q =? 0) && match waiting q with [] => true | _ => false end.

End PQueue.

(* ================================================================== *)
(** ** queue/instagram-queue.ts *)

Module InstagramQueue.

(** [config.instagram], the two settings the constructor reads. *)
Record Config := {
  concurrency : Z;
  rateLimitPerMinute : Z
}.

Record Stats := {
  totalProcessed : Z;
  totalErrors : Z;
  currentActive : Z;
  peakActive : Z
}.

(** The [active], [completed] and [error] listeners of the constructor. *)
Definition onActive (st : Stats) : Stats :=
  {| totalProcessed := totalProcessed st; totalErrors := totalErrors st;
     currentActive := currentActive st + 1;
     peakActive := Z.max (peakActive st) (currentActive st + 1) |}.

Definition onCompleted (st : Stats) : Stats :=
  {| totalProcessed := totalProcessed st + 1; totalErrors := totalErrors st;
     currentActive := currentActive st - 1; peakActive := peakActive st |}.

Definition onError (st : Stats) : Stats :=
  {| totalProcessed := totalProcessed st; totalErrors := totalErrors st + 1;
     currentActive := currentActive st - 1; peakActive := peakActive st |}.

(** One start of a task: when, which task, and how many times the interval
    count had been set back to zero before. *)
Record Admission := {
  at_ : Z;
  task : nat;
  epoch : nat
}.

Section Tasks.

(** What tasks resolve with; the queue never looks at it. *)
Variable T : Type.

(** The queue object ([queue], [stats]) and, around it, what its callers can
    observe: the ids given to [add], the tasks that run, the promises of [add]
    that have settled, the starts so far (latest first), and the calls of
    [shutdown] in order, each [true] once it has returned. *)
Record State := {
  queue : PQueue.Queue;
  stats : Stats;
  submitted : list nat;
  running : list nat;
  settled : list (nat * Js.Outcome T);
  admissions : list Admission;
  shutdowns : list bool
}.

(** The options the constructor passes to p-queue. *)
Definition queueOptions (cfg : Config) : PQueue.Options :=
  {| PQueue.concurrency := concurrency cfg;
     PQueue.interval := 60000;
     PQueue.intervalCap := rateLimitPerMinute cfg |}.

(** The object [new InstagramQueue()] leaves when its constructor returns. *)
Definition create (cfg : Config) : State :=
  {| queue := PQueue.create (queueOptions cfg);
     stats := {| totalProcessed := 0; totalErrors := 0; currentActive := 0;
                 peakActive := 0 |};
     submitted := []; running := []; settled := []; admissions := [];
     shutdowns := [] |}.

(** [new InstagramQueue()]: the constructor returns when [new PQueue(...)]
    does, and throws what that throws ([None]): a configuration with a
    concurrency or a rate limit below 1 gives no queue. *)
Definition construct (cfg : Config) : option State :=
  match PQueue.construct (queueOptions cfg) with
  | Some _ => Some (create cfg)
  | None => None
  end.

(** The pieces of queue code the event loop runs: a call of [add], the end of
    a task, a firing of p-queue's interval timer, a firing of its timeout, and
    a call of [shutdown]. *)
Inductive Event :=
| Add (id : nat) (priority : option Z)
| Finish (id : nat) (outcome : Js.Outcome T)
| IntervalTick
| ResumeTick
| Shutdown.

Definition mem (id : nat) (l : list nat) : bool := existsb (Nat.eqb id) l.

Definition remove (id : nat) (l : list nat) : list nat :=
  filter (fun x => negb (Nat.eqb id x)) l.

(** The promise [add] returned for task [id]: [None] while it has not settled. *)
Fixpoint promise (id : nat) (l : list (nat * Js.Outcome T)) : option (Js.Outcome T) :=
  match l with
  | [] => None
  | (id', o) :: rest => if Nat.eqb id id' then Some o else promise id rest
  end.

(** How many times the interval count has been set back to zero. *)
Definition resets (s : State) : nat := PQueue.resets (queue s).

(** The queue, now [q], has started [jobs] at [now]: each start is an [active]
    event.  The starts of one piece of queue code are counted together, after
    any reset that piece made (see [tryToStartAnother_counts] and
    [processQueue_counts]). *)
Definition started (now : Z) (jobs : list PQueue.Job) (s : State) (q : PQueue.Queue)
  : State :=
  {| queue := q;
     stats := fold_left (fun st _ => onActive st) jobs (stats s);
     submitted := submitted s;
     running := running s ++ map PQueue.jobId jobs;
     settled := settled s;
     admissions :=
       rev (map (fun j => {| at_ := now; task := PQueue.jobId j;
                             epoch := PQueue.resets q |})
              jobs) ++ admissions s;
     shutdowns := shutdowns s |}.

(** The [idle] event, emitted when the queue finds nothing waiting and nothing
    running, lets every [shutdown] that waits in [onIdle()] return. *)
Definition wake (s : State) : State :=
  if PQueue.isIdle (queue s) then
    {| queue := queue s; stats := stats s; submitted := submitted s;
       running := running s; settled := settled s; admissions := admissions s;
       shutdowns := map (fun _ => true) (shutdowns s) |}
  else s.

Definition optionList {A : Type} (o : option A) : list A :=
  match o with Some x => [x] | None => [] end.

(** One uninterrupted piece of queue code at time [now].  A call of [add] with
    an id already in use, the end of a task that does not run and a firing of
    a timer that is not armed do not occur; such events change nothing. *)
Definition step (now : Z) (ev : Event) (s : State) : State :=
  match ev with
  | Add id priority =>
      if mem id (submitted s) then s
      else
        let job := {| PQueue.jobId := id;
                      PQueue.priority := match priority with
                                         | Some p => p
                                         | None => 0
                                         end |} in
        let (q, job') := PQueue.add job now (queue s) in
        let s1 := started now (optionList job') s q in
        {| queue := queue s1; stats := stats s1;
           submitted := id :: submitted s1;
           running := running s1; settled := settled s1;
           admissions := admissions s1;
           shutdowns := shutdowns s1 |}
  | Finish id outcome =>
      if mem id (running s) then
        let (q, job') := PQueue.next now (queue s) in
        let s1 :=
          {| queue := queue s;
             stats := match outcome with
                      | Js.Resolved _ => onCompleted (stats s)
                      | Js.Rejected _ => onError (stats s)
                      end;
             submitted := submitted s;
             running := remove id (running s);
             settled := (id, outcome) :: settled s;
             admissions := admissions s;
             shutdowns := shutdowns s |} in
        wake (started now (optionList job') s1 q)
      else s
  | IntervalTick =>
      match PQueue.intervalId (queue s) with
      | None => s
      | Some _ =>
          let (q, jobs) := PQueue.intervalFired now (queue s) in
          wake (started now jobs s q)
      end
  | ResumeTick =>
      match PQueue.timeoutId (queue s) with
      | None => s
      | Some _ =>
          let (q, jobs) := PQueue.onResumeInterval now (queue s) in
          wake (started now jobs s q)
      end
  | Shutdown =>
      let q := PQueue.clear (queue s) in
      {| queue := q; stats := stats s;
         submitted := submitted s; running := running s;
         settled := settled s; admissions := admissions s;
         shutdowns := shutdowns s ++ [PQueue.isIdle q] |}
  end.

Fixpoint run (schedule : list (Z * Event)) (s : State) : State :=
  match schedule with
  | [] => s
  | (now, ev) :: rest => run rest (step now ev s)
  end.

(** The ids of the tasks that wait in the queue. *)
Definition queued (s : State) : list nat :=
  map PQueue.jobId (PQueue.waiting (queue s)).

(** [getStats()] *)
Record Snapshot := {
  snapStats : Stats;
  snapPending : Z;
  snapSize : Z;
  snapConcurrency : Z;
  snapIntervalCap : Z
}.

Definition getStats (cfg : Config) (s : State) : Snapshot :=
  {| snapStats := stats s;
     snapPending := PQueue.pending (queue s);
     snapSize := PQueue.size (queue s);
     snapConcurrency := PQueue.concurrency (PQueue.options (queue s));
     snapIntervalCap := rateLimitPerMinute cfg |}.

(** [get isIdle()] *)
Definition isIdle (s : State) : bool :=
  (PQueue.size (queue s) =? 0) && (currentActive (stats s) =? 0).

(** A schedule respects the clock: time does not run backwards, a timer that
    is armed fires at its time, and no other piece of code runs later than
    that. *)
Fixpoint timely (clock : Z) (schedule : list (Z * Event)) (s : State) : bool :=
  match schedule with
  | [] => true
  | (now, ev) :: rest =>
      (clock <=? now)
      && match PQueue.intervalId (queue s) with
         | Some firing =>
             match ev with
             | IntervalTick => now =? firing
             | _ => now <=? firing
             end
         | None => true
         end
      && match PQueue.timeoutId (queue s) with
         | Some firing =>
             match ev with
             | ResumeTick => now =? firing
             | _ => now <=? firing
             end
         | None => true
         end
      && timely now rest (step now ev s)
  end.

(** Starts seen in the window [(lo, hi]]. *)
Definition admittedWithin (lo hi : Z) (s : State) : nat :=
  List.length (filter (fun a => (lo <? at_ a) && (at_ a <=? hi)) (admissions s)).

(** Starts counted under one value of the interval count's resets. *)
Definition admittedInEpoch (e : nat) (s : State) : nat :=
  List.length (filter (fun a => Nat.eqb (epoch a) e) (admissions s)).

End Tasks.

Arguments queue {T} s.
Arguments stats {T} s.
Arguments submitted {T} s.
Arguments running {T} s.
Arguments settled {T} s.
Arguments admissions {T} s.
Arguments resets {T} s.
Arguments shutdowns {T} s.
Arguments Add {T} id priority.
Arguments Finish {T} id outcome.
Arguments IntervalTick {T}.
Arguments ResumeTick {T}.
Arguments Shutdown {T}.
Arguments promise {T} id l.
Arguments started {T} now jobs s q.
Arguments wake {T} s.
Arguments step {T} now ev s.
Arguments run {T} schedule s.
Arguments queued {T} s.
Arguments getStats {T} cfg s.
Arguments isIdle {T} s.
Arguments timely {T} clock schedule s.
Arguments admittedWithin {T} lo hi s.
Arguments admittedInEpoch {T} e s.

(** *** Invariants of the queue *)

(** [q'] is [qb] after the jobs [jobs] were started from the head of its
    waiting list. *)
Definition Starts (qb q' : PQueue.Queue) (jobs : list PQueue.Job) : Prop :=
  PQueue.waiting qb = jobs ++ PQueue.waiting q' /\
  PQueue.pending q' = PQueue.pending qb + Z.of_nat (List.length jobs) /\
  PQueue.options q' = PQueue.options qb.

(** What a piece of queue code that started [jobs] did to the interval count:
    it counted them on top of what was counted, or it set the count back and
    counted them from zero; and no start takes the count past the cap. *)
Definition Counts (qb q' : PQueue.Queue) (jobs : list PQueue.Job) : Prop :=
  ((PQueue.resets q' = PQueue.resets qb /\
    PQueue.intervalCount q'
    = PQueue.intervalCount qb + Z.of_nat (List.length jobs)) \/
   ((PQueue.resets qb < PQueue.resets q')%nat /\
    PQueue.intervalCount q' = Z.of_nat (List.length jobs))) /\
  (jobs <> [] -> PQueue.interval (PQueue.options qb) <> 0 ->
   PQueue.intervalCount q' <= PQueue.intervalCap (PQueue.options qb)).

(** At [now] a start attempt cannot set the interval count back: the interval
    timer is armed, or the last interval has not ended. *)
Definition Settled (now : Z) (q : PQueue.Queue) : Prop :=
  PQueue.intervalId q <> None \/ now <= PQueue.intervalEnd q.

(** Bookkeeping: a task waits or runs at most once, has been submitted and has
    not settled; the queue counts as pending exactly the tasks that run; only
    submitted tasks settle. *)
Definition Accounted {T : Type} (waiting : list PQueue.Job) (pending : Z)
  (submitted running : list nat) (settled : list (nat * Js.Outcome T)) : Prop :=
  NoDup (map PQueue.jobId waiting ++ running) /\
  (forall id, In id (map PQueue.jobId waiting ++ running) ->
     In id submitted /\ promise id settled = None) /\
  pending = Z.of_nat (List.length running) /\
  (forall id, promise id settled <> None -> In id submitted).

Definition accounted {T : Type} (s : State T) : Prop :=
  Accounted (PQueue.waiting (queue s)) (PQueue.pending (queue s))
    (submitted s) (running s) (settled s).

Definition countEpoch (e : nat) (adm : list Admission) : nat :=
  List.length (filter (fun a => Nat.eqb (epoch a) e) adm).

(** The interval count is the number of starts since its last reset, and no
    stretch between two resets saw more than [cap] starts. *)
Definition Capped (cap count : Z) (adm : list Admission) (resets : nat) : Prop :=
  Z.of_nat (countEpoch resets adm) = count /\
  count <= cap /\
  (forall e, Z.of_nat (countEpoch e adm) <= cap) /\
  (forall a, In a adm -> (epoch a <= resets)%nat).

Definition capped {T : Type} (s : State T) : Prop :=
  Capped (PQueue.intervalCap (PQueue.options (queue s)))
    (PQueue.intervalCount (queue s)) (admissions s) (resets s).

(** A task that was submitted and neither waits, nor runs, nor has settled:
    what [clear()] leaves of a waiting task. *)
Definition dropped {T : Type} (id : nat) (s : State T) : Prop :=
  In id (submitted s) /\ ~ In id (queued s) /\ ~ In id (running s) /\
  promise id (settled s) = None.

(** The [n]-th call of [shutdown] has been made; the tasks [active] that ran
    when it was made each still run or have settled, and all have settled if
    the call has returned. *)
Definition drained {T : Type} (n : nat) (active : list nat) (s : State T) : Prop :=
  accounted s /\ (n < List.length (shutdowns s))%nat /\
  (forall id, In id active -> In id (running s) \/ promise id (settled s) <> None) /\
  (nth n (shutdowns s) false = true ->
   forall id, In id active -> promise id (settled s) <> None).

(** Clock facts at time [clock] for a queue whose interval is [W], with
    [since] the time of the last reset of the interval count: no start lies in
    the future or in a later stretch of counting, and the starts counted now
    are not older than [since]; the end of the last interval is at most [W]
    ahead; while the interval timer is armed the clock is within its current
    period and the count was set back within it, and the timer was armed no
    later than that period; with the timer stopped the count was set back
    within the last interval or after it; a timeout that is pending fires at
    the end of the last interval, the interval timer being stopped; starts
    counted together are at most [W] apart. *)
Definition Timed (W clock since : Z) (q : PQueue.Queue) (adm : list Admission)
  : Prop :=
  (forall a, In a adm -> (epoch a <= PQueue.resets q)%nat /\ at_ a <= clock) /\
  (forall a, In a adm -> epoch a = PQueue.resets q -> since <= at_ a) /\
  since <= clock /\
  PQueue.intervalEnd q - W <= clock /\
  match PQueue.intervalId q with
  | Some firing =>
      firing - W <= since /\ clock <= firing /\ PQueue.intervalEnd q <= firing
  | None => PQueue.intervalEnd q - W <= since
  end /\
  match PQueue.timeoutId q with
  | Some firing =>
      PQueue.intervalId q = None /\ firing = PQueue.intervalEnd q /\
      clock <= firing
  | None => True
  end /\
  (forall a b, In a adm -> In b adm -> epoch a = epoch b -> at_ a - at_ b <= W).

Definition timed {T : Type} (clock : Z) (s : State T) : Prop :=
  exists since,
    Timed (PQueue.interval (PQueue.options (queue s))) clock since
      (queue s) (admissions s).

(** The counters follow the history: [currentActive] counts the tasks that run,
    [totalProcessed] and [totalErrors] the tasks that have ended with a result
    and with an error, and [peakActive] is not below [currentActive]; the
    queue runs no more tasks than its concurrency limit [c], nor does
    [peakActive] exceed it. *)
Definition Counted {T : Type} (c pending : Z) (st : Stats) (running : list nat)
  (settled : list (nat * Js.Outcome T)) : Prop :=
  (0 <= c -> pending <= c) /\
  currentActive st = Z.of_nat (List.length running) /\
  totalProcessed st
  = Z.of_nat (List.length (filter (fun e => negb (Js.isRejected (snd e))) settled)) /\
  totalErrors st
  = Z.of_nat (List.length (filter (fun e => Js.isRejected (snd e)) settled)) /\
  currentActive st <= peakActive st /\
  (0 <= c -> peakActive st <= c).

Definition counted {T : Type} (s : State T) : Prop :=
  Counted (PQueue.concurrency (PQueue.options (queue s))) (PQueue.pending (queue s))
    (stats s) (running s) (settled s).

End InstagramQueue.

(* ================================================================== *)
(** ** String operations of the routes and parsers *)

Module Str.

(** The rest of [s] after the literal [p] when [s] starts with it: what a match
    of the regular expression [/^p/] leaves. *)
Fixpoint dropPrefix (p s : string) : option string :=
  match p with
  | EmptyString => Some s
  | String a p' =>
      match s with
      | String b s' => if Ascii.eqb a b then dropPrefix p' s' else None
      | EmptyString => None
      end
  end.

(** [s.replace(/^p/, '')] for a literal [p]. *)
Definition replacePrefix (p s : string) : string :=
  match dropPrefix p s with
  | Some rest => rest
  | None => s
  end.

(** [s.replace(/\/$/, '')]: a slash that ends the string is removed, once. *)
Fixpoint dropTrailingSlash (s : string) : string :=
  match s with
  | EmptyString => EmptyString
  | String c rest =>
      match rest with
      | EmptyString => if Ascii.eqb c "/" then EmptyString else s
      | String _ _ => String c (dropTrailingSlash rest)
      end
  end.

(** [s.endsWith(suffix)] *)
Fixpoint endsWith (s suffix : string) : bool :=
  if String.eqb s suffix then true
  else match s with
       | EmptyString => false
       | String _ s' => endsWith s' suffix
       end.

End Str.

(* ================================================================== *)
(** ** types.ts, and the values that travel as JSON *)

Module Types.

#[local] Unset Elimination Schemes.

(** A JavaScript value that JSON can carry; the numbers that occur are
    integers. *)
Inductive Json :=
| JNull
| JBool (b : bool)
| JNumber (n : Z)
| JString (s : string)
| JArray (items : list Json)
| JObject (fields : list (string * Json)).

#[local] Set Elimination Schemes.

(** Truthiness, as in [if (cached)]. *)
Definition truthy (v : Json) : bool :=
  match v with
  | JNull => false
  | JBool b => b
  | JNumber n => negb (n =? 0)
  | JString EmptyString => false
  | JString (String _ _) => true
  | JArray _ => true
  | JObject _ => true
  end.

Record ScrapeResult := {
  platform : string;
  nickname : string;
  fullName : string;
  bio : string;
  avatarUrl : string
}.

(** A [ScrapeResult] as the value [c.json] and [setCache] receive. *)
Definition toJson (r : ScrapeResult) : Json :=
  JObject [ ("platform", JString (platform r));
            ("nickname", JString (nickname r));
            ("fullName", JString (fullName r));
            ("bio", JString (bio r));
            ("avatarUrl", JString (avatarUrl r)) ].

(** [error instanceof Error ? error.message : String(error)] *)
Definition errorMessage (error : Js.Value) : string :=
  match error with
  | Js.Error message => message
  | _ => Js.toString error
  end.

End Types.

(* ================================================================== *)
(** ** utils/platform.ts *)

Module Platform.

Inductive SupportedPlatform := instagram | telegram.

(** The string a [SupportedPlatform] is. *)
Definition name (p : SupportedPlatform) : string :=
  match p with
  | instagram => "instagram"
  | telegram => "telegram"
  end.

Section DetectPlatform.

(** [new URL(url).hostname], [None] when the constructor throws; URL parsing
    is the runtime's. *)
Variable hostnameOf : string -> option string.

Definition detectPlatform (url : string) : option SupportedPlatform :=
  match hostnameOf url with
  | Some hostname =>
      if Str.endsWith hostname "instagram.com" then Some instagram
      else if String.eqb hostname "t.me" then Some telegram
      else None
  | None => None
  end.

End DetectPlatform.

End Platform.

(* ================================================================== *)
(** ** utils/cache.ts

    The Redis server is reached through the ioredis package; both are outside
    the repository.  [Redis] states the two commands [cache.ts] issues, after
    their description: [SET key value EX seconds] stores the value and makes
    it expire [seconds] seconds later, refusing an expire time that is not
    positive; [GET key] gives the value of a key that is set and has not
    expired, and nil otherwise.  While the server cannot be reached every
    command fails with the connection's error. *)

Module Cache.

Import Types.

Record Entry := {
  stored : string;
  expiresAt : Z
}.

Record Redis := {
  entries : JsMap.t Entry;
  failure : option Js.Value
}.

(** [redis.get(key)] at time [now] (ms). *)
Definition redisGet (key : string) (now : Z) (r : Redis) : Js.Outcome (option string) :=
  match failure r with
  | Some error => Js.Rejected error
  | None =>
      match JsMap.get key (entries r) with
      | Some e =>
          if now <? expiresAt e then Js.Resolved (Some (stored e))
          else Js.Resolved None
      | None => Js.Resolved None
      end
  end.

(** [redis.set(key, value, 'EX', seconds)] at time [now] (ms). *)
Definition redisSetEx (key value : string) (seconds now : Z) (r : Redis)
  : Js.Outcome unit * Redis :=
  match failure r with
  | Some error => (Js.Rejected error, r)
  | None =>
      if seconds <=? 0 then
        (Js.Rejected (Js.Error "ERR invalid expire time in 'set' command"), r)
      else
        (Js.Resolved tt,
         {| entries := JsMap.set key {| stored := value;
                                        expiresAt := now + 1000 * seconds |}
                         (entries r);
            failure := failure r |})
  end.

Section Json.

(** [JSON.stringify] and [JSON.parse], which throws on text that is not
    JSON. *)
Variable stringify : Json -> string.
Variable parse : string -> Js.Outcome Json.

(** [getCache(key)]: [data ? JSON.parse(data) : null] *)
Definition getCache (key : string) (now : Z) (r : Redis) : Js.Outcome Json :=
  match redisGet key now r with
  | Js.Rejected error => Js.Rejected error
  | Js.Resolved data =>
      if Js.truthy data then
        match data with
        | Some text => parse text
        | None => Js.Resolved JNull
        end
      else Js.Resolved JNull
  end.

(** [setCache(key, value, ttlSeconds = 86400)] *)
Definition setCache (key : string) (value : Json) (ttlSeconds : option Z)
  (now : Z) (r : Redis) : Js.Outcome unit * Redis :=
  redisSetEx key (stringify value)
    (match ttlSeconds with Some t => t | None => 86400 end) now r.

End Json.

End Cache.

(* ================================================================== *)
(** ** routes/parse.ts *)

Module ParseRoute.

Import Types.

(** The first [url.replace] of the Instagram branch, with the regular
    expression [/^https:\/\/(www\.)?instagram\.com\//]: after [https://] the
    group [www.] is tried first, and the match is tried without it when that
    fails. *)
Definition dropInstagramOrigin (url : string) : string :=
  match Str.dropPrefix "https://" url with
  | Some rest =>
      match match Str.dropPrefix "www." rest with
            | Some rest' => Str.dropPrefix "instagram.com/" rest'
            | None => None
            end
      with
      | Some tail => tail
      | None =>
          match Str.dropPrefix "instagram.com/" rest with
          | Some tail => tail
          | None => url
          end
      end
  | None => url
  end.

(** The [nickname] the handler computes for the cache key. *)
Definition nickname (platform : Platform.SupportedPlatform) (url : string) : string :=
  match platform with
  | Platform.telegram => Str.replacePrefix "https://t.me/" url
  | Platform.instagram => Str.dropTrailingSlash (dropInstagramOrigin url)
  end.

(** [`cache:${platform}:${nickname}`] *)
Definition cacheKey (platform : Platform.SupportedPlatform) (url : string) : string :=
  String.append "cache:"
    (String.append (Platform.name platform)
       (String.append ":" (nickname platform url))).

Record Response := {
  status : Z;
  json : Json
}.

(** [{ error, code }] *)
Definition failureBody (error code : string) : Json :=
  JObject [ ("error", JString error); ("code", JString code) ].

(** What the handler calls on its way, in order. *)
Inductive Call :=
| GetCache (key : string)
| Scrape (platform : Platform.SupportedPlatform) (url : string) (proxy : option string)
| SetCache (key : string).

Record Handled := {
  response : Response;
  redis : Cache.Redis;
  calls : list Call
}.

Section Handler.

Variable hostnameOf : string -> option string.

(** The check of [z.string().url()]. *)
Variable isUrl : string -> bool.

Variable stringify : Json -> string.
Variable parse : string -> Js.Outcome Json.

(** [parseSchema.safeParse(body)]: an object whose [url] is a string that is
    a URL and whose [proxy] is absent or a string. *)
Definition safeParse (body : Json) : option (string * option string) :=
  match body with
  | JObject fields =>
      match JsMap.get "url" fields with
      | Some (JString url) =>
          if isUrl url then
            match JsMap.get "proxy" fields with
            | None => Some (url, None)
            | Some (JString proxy) => Some (url, Some proxy)
            | Some _ => None
            end
          else None
      | _ => None
      end
  | _ => None
  end.

(** The [catch] of the handler. *)
Definition parseError (err : Js.Value) (r : Cache.Redis) (seen : list Call) : Handled :=
  {| response := {| status := 422;
                    json := failureBody (errorMessage err) "PARSE_ERROR" |};
     redis := r; calls := seen |}.

(** The handler of [POST /parse].  [body] is what [c.req.json()] gave, [null]
    when the request did not carry JSON; [scraped] is how the scraper's call
    ends if it is made; the cache is read at [now] and written at [later]. *)
Definition handle (body : Json) (scraped : Js.Outcome ScrapeResult)
  (now later : Z) (r : Cache.Redis) : Handled :=
  match safeParse body with
  | None =>
      {| response := {| status := 400;
                        json := failureBody "Invalid request" "INVALID_REQUEST" |};
         redis := r; calls := [] |}
  | Some (url, proxy) =>
      match Platform.detectPlatform hostnameOf url with
      | None =>
          {| response := {| status := 400;
                            json := failureBody "Unsupported platform"
                                      "UNSUPPORTED_PLATFORM" |};
             redis := r; calls := [] |}
      | Some platform =>
          let key := cacheKey platform url in
          match Cache.getCache parse key now r with
          | Js.Rejected err => parseError err r [GetCache key]
          | Js.Resolved cached =>
              if truthy cached then
                {| response := {| status := 200; json := cached |};
                   redis := r; calls := [GetCache key] |}
              else
                let scrape :=
                  Scrape platform url
                    (match platform with
                     | Platform.instagram => if Js.truthy proxy then proxy else None
                     | Platform.telegram => None
                     end) in
                match scraped with
                | Js.Rejected err => parseError err r [GetCache key; scrape]
                | Js.Resolved result =>
                    match Cache.setCache stringify key (toJson result) None later r with
                    | (Js.Rejected err, r1) =>
                        parseError err r1 [GetCache key; scrape; SetCache key]
                    | (Js.Resolved _, r1) =>
                        {| response := {| status := 200; json := toJson result |};
                           redis := r1;
                           calls := [GetCache key; scrape; SetCache key] |}
                    end
                end
          end
      end
  end.

End Handler.

End ParseRoute.

(* ================================================================== *)
(** ** routes/health.ts : the checks and the three routes *)

Module HealthRoute.

Import Health Types.

Record RedisHealth := {
  redisStatus : Status;
  latency : option Z;
  redisError : option string
}.

Section RedisCheck.

Variable stringify : Json -> string.
Variable parse : string -> Js.Outcome Json.

(** [checkRedisHealth()]: the write reaches the server at [setAt], the read
    at [getAt], and the function started at [startTime] and reads the clock
    again at [endTime]. *)
Definition checkRedisHealth (startTime setAt getAt endTime : Z) (r : Cache.Redis)
  : RedisHealth * Cache.Redis :=
  match Cache.setCache stringify "health:check" (JString "ok") (Some 10) setAt r with
  | (Js.Rejected error, r1) =>
      ({| redisStatus := unhealthy; latency := None;
          redisError := Some (errorMessage error) |}, r1)
  | (Js.Resolved _, r1) =>
      match Cache.getCache parse "health:check" getAt r1 with
      | Js.Rejected error =>
          ({| redisStatus := unhealthy; latency := None;
              redisError := Some (errorMessage error) |}, r1)
      | Js.Resolved result =>
          let latency := endTime - startTime in
          match result with
          | JString "ok" =>
              ({| redisStatus := healthy; latency := Some latency;
                  redisError := None |}, r1)
          | _ =>
              ({| redisStatus := unhealthy; latency := None;
                  redisError := Some "Redis test failed" |}, r1)
          end
      end
  end.

End RedisCheck.

Record QueueHealth := {
  queueStatus : Status;
  queueStats : InstagramQueue.Snapshot
}.

(** [checkInstagramQueueHealth()].  The counters are integers, on which
    [totalErrors > totalProcessed * 0.5] says [2 * totalErrors > totalProcessed]. *)
Definition checkInstagramQueueHealth {T : Type} (cfg : InstagramQueue.Config)
  (s : InstagramQueue.State T) : QueueHealth :=
  let stats := InstagramQueue.getStats cfg s in
  let status := healthy in
  let status :=
    if 10 <? InstagramQueue.snapPending stats then degraded else status in
  let status :=
    if (InstagramQueue.totalProcessed (InstagramQueue.snapStats stats)
          <? 2 * InstagramQueue.totalErrors (InstagramQueue.snapStats stats))
       && (0 <? InstagramQueue.totalProcessed (InstagramQueue.snapStats stats))
    then unhealthy else status in
  {| queueStatus := status; queueStats := stats |}.

Record PoolHealth := {
  poolStatus : Status;
  poolStats : BrowserPool.Stats
}.

(** [checkBrowserPoolHealth()] *)
Definition checkBrowserPoolHealth (cfg : BrowserPool.Config) (now : Z)
  (p : BrowserPool.Pool) : PoolHealth :=
  let stats := BrowserPool.getStats cfg now p in
  let status := healthy in
  let status :=
    if (BrowserPool.statsPoolSize stats <=? BrowserPool.totalInstances stats)
       && (BrowserPool.activeInstances stats =? BrowserPool.totalInstances stats)
    then degraded else status in
  let status :=
    if BrowserPool.statsIsShuttingDown stats then unhealthy else status in
  {| poolStatus := status; poolStats := stats |}.

Record PlaywrightHealth := {
  playwrightStatus : Status;
  playwrightError : option string;
  testDuration : option Z
}.

(** [checkPlaywrightHealth()] from the point where
    [await browserPool.getBrowserContext()] has settled with [acquired] in
    pool state [p]; the release follows at once, at time [now]. *)
Definition checkPlaywrightHealth (browserTest : bool)
  (acquired : Js.Outcome BrowserPool.Lease) (startTime now : Z)
  (p : BrowserPool.Pool) : PlaywrightHealth * BrowserPool.Pool :=
  if negb browserTest then
    ({| playwrightStatus := healthy; playwrightError := None;
        testDuration := None |}, p)
  else
    match acquired with
    | Js.Resolved lease =>
        ({| playwrightStatus := healthy; playwrightError := None;
            testDuration := Some (now - startTime) |},
         BrowserPool.releaseBrowserContext (BrowserPool.instanceId lease) now p)
    | Js.Rejected error =>
        ({| playwrightStatus := unhealthy;
            playwrightError := Some (errorMessage error);
            testDuration := None |}, p)
    end.

(** The [services] object of [GET /health], from the two settled checks of
    [Promise.allSettled] and the two synchronous ones. *)
Definition services (redisHealth : Js.Outcome RedisHealth)
  (playwrightHealth : Js.Outcome PlaywrightHealth)
  (queue : QueueHealth) (pool : PoolHealth) : Services :=
  {| redis := match redisHealth with
              | Js.Resolved value => redisStatus value
              | Js.Rejected _ => unhealthy
              end;
     instagram_queue := queueStatus queue;
     browser_pool := poolStatus pool;
     playwright := Some match playwrightHealth with
                        | Js.Resolved value => playwrightStatus value
                        | Js.Rejected _ => unhealthy
                        end |}.

(** [overallStatus === 'healthy' ? 200 : overallStatus === 'degraded' ? 200 : 503] *)
Definition httpStatus (overallStatus : Status) : Z :=
  if status_eqb overallStatus healthy then 200
  else if status_eqb overallStatus degraded then 200
  else 503.

(** The HTTP status and the overall status [GET /health] answers with. *)
Definition health (redisHealth : Js.Outcome RedisHealth)
  (playwrightHealth : Js.Outcome PlaywrightHealth)
  (queue : QueueHealth) (pool : PoolHealth) : Z * Status :=
  let overallStatus :=
    determineOverallStatus (services redisHealth playwrightHealth queue pool) in
  (httpStatus overallStatus, overallStatus).

(** [isReady] of [GET /health/ready]. *)
Definition isReady (redisHealth : RedisHealth) (queueHealth : QueueHealth)
  (poolHealth : PoolHealth) : bool :=
  status_eqb (redisStatus redisHealth) healthy
  && negb (status_eqb (queueStatus queueHealth) unhealthy)
  && negb (status_eqb (poolStatus poolHealth) unhealthy).

(** The HTTP status of [GET /health/ready]. *)
Definition ready (redisHealth : RedisHealth) (queueHealth : QueueHealth)
  (poolHealth : PoolHealth) : Z :=
  if isReady redisHealth queueHealth poolHealth then 200 else 503.

End HealthRoute.

(* ================================================================== *)
(** ** parsers/instagram.ts : scrapeInstagramProfile *)

Module Instagram.

Import Types.

(** What a scrape does with the page, in order; the two retried operations
    appear through the events of their [withRetry] runs. *)
Inductive Step :=
| NewPage
| SetExtraHTTPHeaders
| GotoRetry (e : Retry.Event)
| WaitForTimeout
| SelectorRetry (e : Retry.Event)
| Evaluate
| ClosePage.

(** The calls of [page.goto], of [page.waitForSelector] and of [page.close]
    among the steps. *)
Definition gotoCalls (steps : list Step) : nat :=
  List.length
    (filter (fun s => match s with GotoRetry (Retry.Invoke _) => true | _ => false end)
       steps).

Definition selectorCalls (steps : list Step) : nat :=
  List.length
    (filter (fun s => match s with SelectorRetry (Retry.Invoke _) => true | _ => false end)
       steps).

Definition closeCalls (steps : list Step) : nat :=
  List.length (filter (fun s => match s with ClosePage => true | _ => false end) steps).

(** What [page.evaluate] extracts. *)
Record Fields := {
  fieldNickname : string;
  fieldFullName : string;
  fieldBio : string;
  fieldAvatarUrl : string
}.

Section Scrape.

(** The browser and the network are the rest of the world; each Playwright
    call acts on it and ends resolved or rejected. *)
Variable World : Type.
Variable sleep : Z -> World -> World.
Variable newPage : World -> Js.Outcome unit * World.
Variable setExtraHTTPHeaders : World -> Js.Outcome unit * World.
Variable goto : string -> World -> Js.Outcome unit * World.
Variable waitForTimeout : World -> Js.Outcome unit * World.
Variable waitForSelector : World -> Js.Outcome unit * World.
Variable evaluate : World -> Js.Outcome Fields * World.
Variable close : World -> Js.Outcome unit * World.

(** A computation that may throw, acts on the world and leaves its steps. *)
Definition M (A : Type) : Type := World -> Js.Outcome A * World * list Step.

Definition ret {A : Type} (a : A) : M A := fun w => (Js.Resolved a, w, []).

Definition bind {A B : Type} (m : M A) (f : A -> M B) : M B :=
  fun w =>
    match m w with
    | (Js.Resolved a, w1, t1) =>
        match f a w1 with
        | (o, w2, t2) => (o, w2, t1 ++ t2)
        end
    | (Js.Rejected error, w1, t1) => (Js.Rejected error, w1, t1)
    end.

(** [await] of one Playwright call. *)
Definition call {A : Type} (s : Step) (f : World -> Js.Outcome A * World) : M A :=
  fun w => match f w with (o, w1) => (o, w1, [s]) end.

(** [await withRetry(operation, 2, correlationId)] *)
Definition retried {A : Type} (tag : Retry.Event -> Step)
  (operation : World -> Js.Outcome A * World) (correlationId : string) : M A :=
  fun w =>
    let r := Retry.withRetry sleep operation 2 correlationId w in
    (Retry.outcome r, Retry.world r, map tag (Retry.events r)).

Notation "x <- m ;; k" := (bind m (fun x => k))
  (at level 61, m at next level, right associativity).

(** The [try] block after [page = await context.newPage()]. *)
Definition scrapePage (url correlationId : string) : M ScrapeResult :=
  _ <- call SetExtraHTTPHeaders setExtraHTTPHeaders ;;
  _ <- retried GotoRetry (goto url) correlationId ;;
  _ <- call WaitForTimeout waitForTimeout ;;
  _ <- retried SelectorRetry waitForSelector correlationId ;;
  result <- call Evaluate evaluate ;;
  ret {| platform := "instagram";
         nickname := fieldNickname result;
         fullName := fieldFullName result;
         bio := fieldBio result;
         avatarUrl := fieldAvatarUrl result |}.

(** The [catch] clause: [throw new Error(`Instagram scrape failed: ${errorMessage}`)] *)
Definition scrapeFailed (error : Js.Value) : Js.Value :=
  Js.Error (String.append "Instagram scrape failed: " (errorMessage error)).

(** [scrapeInstagramProfile(context, url, correlationId)]: [page] stays
    [null] when [newPage] throws and the [finally] clause then closes
    nothing; otherwise it closes the page and swallows what [close] throws. *)
Definition scrapeInstagramProfile (url correlationId : string) : M ScrapeResult :=
  fun w =>
    match call NewPage newPage w with
    | (Js.Rejected error, w1, t1) => (Js.Rejected (scrapeFailed error), w1, t1)
    | (Js.Resolved _, w1, t1) =>
        match scrapePage url correlationId w1 with
        | (o, w2, t2) =>
            let o' := match o with
                      | Js.Resolved result => Js.Resolved result
                      | Js.Rejected error => Js.Rejected (scrapeFailed error)
                      end in
            match close w2 with
            | (_, w3) => (o', w3, t1 ++ t2 ++ [ClosePage])
            end
        end
    end.

(** A call seen by how it ends only. *)
Definition outcomeOnly {A : Type} (f : World -> Js.Outcome A * World)
  : World -> Js.Outcome unit * World :=
  fun w =>
    match f w with
    | (Js.Resolved _, w1) => (Js.Resolved tt, w1)
    | (Js.Rejected error, w1) => (Js.Rejected error, w1)
    end.

(** A whole run of [withRetry(operation, 2, correlationId)], seen the same
    way. *)
Definition retriedCall {A : Type} (operation : World -> Js.Outcome A * World)
  (correlationId : string) : World -> Js.Outcome unit * World :=
  fun w =>
    let r := Retry.withRetry sleep operation 2 correlationId w in
    (match Retry.outcome r with
     | Js.Resolved _ => Js.Resolved tt
     | Js.Rejected error => Js.Rejected error
     end,
     Retry.world r).

(** What the [try] block awaits, in order. *)
Definition awaited (url correlationId : string)
  : list (World -> Js.Outcome unit * World) :=
  [ outcomeOnly newPage;
    outcomeOnly setExtraHTTPHeaders;
    retriedCall (goto url) correlationId;
    outcomeOnly waitForTimeout;
    retriedCall waitForSelector correlationId;
    outcomeOnly evaluate ].

(** What the first call to fail threw, each call starting in the world the
    call before it left; [None] when every call resolves. *)
Fixpoint firstThrown (calls : list (World -> Js.Outcome unit * World)) (w : World)
  : option Js.Value :=
  match calls with
  | [] => None
  | f :: rest =>
      match f w with
      | (Js.Rejected error, _) => Some error
      | (Js.Resolved _, w1) => firstThrown rest w1
      end
  end.

End Scrape.

End Instagram.

(* ================================================================== *)
(** ** parsers/telegram.ts *)

Module Telegram.

Import Types.

Inductive Step :=
| Request (url : string)
| BodyText.

Section TgScrape.

Variable World : Type.

(** [request(url)] of undici: the status code, and the body as [body.text()]
    will read it. *)
Variable request : string -> World -> Js.Outcome (Z * (World -> Js.Outcome string * World)) * World.

(** [$('meta[property=...]').attr('content')] on the document loaded from
    [html]; [None] is [undefined]. *)
Variable metaContent : string -> string -> option string.

(** [value ?? ''] *)
Definition orEmpty (value : option string) : string :=
  match value with
  | Some s => s
  | None => EmptyString
  end.

Definition tgScrape (url : string) (w : World)
  : Js.Outcome ScrapeResult * World * list Step :=
  match request url w with
  | (Js.Rejected error, w1) => (Js.Rejected error, w1, [Request url])
  | (Js.Resolved (statusCode, text), w1) =>
      if negb (statusCode =? 200) then
        (Js.Rejected
           (Js.Error (String.append "Failed to fetch Telegram page: "
                        (NilZero.string_of_int (Z.to_int statusCode)))),
         w1, [Request url])
      else
        match text w1 with
        | (Js.Rejected error, w2) => (Js.Rejected error, w2, [Request url; BodyText])
        | (Js.Resolved html, w2) =>
            (Js.Resolved
               {| platform := "telegram";
                  nickname := Str.replacePrefix "https://t.me/" url;
                  fullName := orEmpty (metaContent html "og:title");
                  bio := orEmpty (metaContent html "og:description");
                  avatarUrl := orEmpty (metaContent html "og:image") |},
             w2, [Request url; BodyText])
        end
  end.

End TgScrape.

End Telegram.

(* ================================================================== *)
(** * Proofs *)

(** ** Health *)

(** C7: the overall status is [unhealthy] as soon as one of the four services
    reports [unhealthy]; failing that it is [degraded] as soon as one reports
    [degraded]; failing both it is [healthy].  A missing [playwright] entry
    reports nothing. *)
Theorem determineOverallStatus_ordered (s : Health.Services) :
  let reports st :=
    Health.redis s = st \/ Health.instagram_queue s = st \/
    Health.browser_pool s = st \/ Health.playwright s = Some st in
  (reports Health.unhealthy ->
     Health.determineOverallStatus s = Health.unhealthy) /\
  (~ reports Health.unhealthy -> reports Health.degraded ->
     Health.determineOverallStatus s = Health.degraded) /\
  (~ reports Health.unhealthy -> ~ reports Health.degraded ->
     Health.determineOverallStatus s = Health.healthy).
Proof.
  destruct s as [r q b p]; simpl.
  unfold Health.determineOverallStatus; simpl.
  repeat split.
  - intros [H | [H | [H | H]]]; subst.
    + reflexivity.
    + destruct r; reflexivity.
    + destruct r, q; reflexivity.
    + destruct r, q, b; reflexivity.
  - intros Hno Hdeg.
    destruct r, q, b, p as [[]|]; simpl; try reflexivity;
      solve [ exfalso; apply Hno; auto
            | destruct Hdeg as [H | [H | [H | H]]]; discriminate H ].
  - intros Hno Hnd.
    destruct r, q, b, p as [[]|]; simpl; try reflexivity;
      solve [ exfalso; apply Hno; auto | exfalso; apply Hnd; auto ].
Qed.

(** ** withRetry *)

Section RetryFacts.

Variables World T : Type.
Variable sleep : Z -> World -> World.
Variable operation : Retry.Operation World T.

Lemma invocations_app (a b : list Retry.Event) :
  Retry.invocations (a ++ b) = (Retry.invocations a + Retry.invocations b)%nat.
Proof. unfold Retry.invocations. now rewrite filter_app, length_app. Qed.

Lemma waits_app (a b : list Retry.Event) :
  Retry.waits (a ++ b) = Retry.waits a ++ Retry.waits b.
Proof.
  induction a as [|e a IH]; simpl; [reflexivity|].
  destruct e; simpl; now rewrite IH.
Qed.

Lemma logged_app (a b : list Retry.Event) :
  Retry.logged (a ++ b) = Retry.logged a ++ Retry.logged b.
Proof.
  induction a as [|e a IH]; simpl; [reflexivity|].
  destruct e; simpl; now rewrite IH.
Qed.

Lemma attemptOutcome_S (w : World) (j : nat) :
  Retry.attemptOutcome sleep operation w (S j)
  = fst (operation (Retry.worldBefore sleep operation w j)).
Proof. reflexivity. Qed.

(** No run calls the operation more often than the loop has iterations left. *)
Lemma retryLoop_invocations_le (fuel : nat) :
  forall n cid a lastError w,
    (Retry.invocations
       (Retry.events (Retry.retryLoop sleep fuel operation n cid a lastError w))
     <= Z.to_nat (n + 1 - a))%nat.
Proof.
  induction fuel as [|fuel IH]; intros n cid a lastError w; cbn [Retry.retryLoop].
  - apply Nat.le_0_l.
  - destruct (Z.leb_spec a n) as [Hle | Hgt]; [| apply Nat.le_0_l].
    destruct (operation w) as [[v | e] w1].
    + cbn [Retry.events]. unfold Retry.invocations. simpl. lia.
    + destruct (Z.ltb_spec a n) as [Hlt | Hge];
        cbn [Retry.prepend Retry.events];
        rewrite invocations_app;
        match goal with
        | |- (_ + Retry.invocations (Retry.events (Retry.retryLoop _ _ _ ?n' ?c ?a' ?l ?w')) <= _)%nat =>
            specialize (IH n' c a' l w')
        end;
        unfold Retry.invocations at 1; simpl; lia.
Qed.

(** Attempts [S j .. j + m] fail and attempt [S (j + m)] succeeds: the loop
    entered at attempt [S j] returns that success after [S m] calls, having
    waited once after each failure. *)
Lemma retryLoop_first_success (w : World) (n : nat) (cid : string) (v : T) :
  forall (m j fuel : nat) (lastError : Js.Value),
    (j + m < n)%nat -> (m < fuel)%nat ->
    (forall i, (j < i <= j + m)%nat ->
       Js.isRejected (Retry.attemptOutcome sleep operation w i) = true) ->
    Retry.attemptOutcome sleep operation w (S (j + m)) = Js.Resolved v ->
    let r := Retry.retryLoop sleep fuel operation (Z.of_nat n) cid (Z.of_nat (S j))
               lastError (Retry.worldBefore sleep operation w j) in
    Retry.outcome r = Js.Resolved v /\
    Retry.invocations (Retry.events r) = S m /\
    Retry.waits (Retry.events r)
      = map (fun i => Retry.backoff (Z.of_nat i)) (seq (S j) m).
Proof.
  induction m as [|m IH]; intros j fuel lastError Hn Hfuel Hfail Hok r; subst r.
  - destruct fuel as [|fuel]; [lia|]. cbn [Retry.retryLoop].
    destruct (Z.leb_spec (Z.of_nat (S j)) (Z.of_nat n)) as [_ | Hgt]; [| lia].
    rewrite Nat.add_0_r, attemptOutcome_S in Hok.
    destruct (operation (Retry.worldBefore sleep operation w j)) as [o w1].
    simpl in Hok. subst o. simpl. repeat split; reflexivity.
  - destruct fuel as [|fuel]; [lia|]. cbn [Retry.retryLoop].
    destruct (Z.leb_spec (Z.of_nat (S j)) (Z.of_nat n)) as [_ | Hgt]; [| lia].
    assert (Hj : Js.isRejected (Retry.attemptOutcome sleep operation w (S j)) = true)
      by (apply Hfail; lia).
    rewrite attemptOutcome_S in Hj.
    assert (Hw : Retry.worldBefore sleep operation w (S j)
                 = sleep (Retry.backoff (Z.of_nat (S j)))
                     (snd (operation (Retry.worldBefore sleep operation w j))))
      by reflexivity.
    destruct (operation (Retry.worldBefore sleep operation w j)) as [[x | e] w1];
      [discriminate Hj|]. cbn [snd] in Hw.
    destruct (Z.ltb_spec (Z.of_nat (S j)) (Z.of_nat n)) as [_ | Hge]; [| lia].
    replace (Z.of_nat (S j) + 1) with (Z.of_nat (S (S j))) by lia.
    rewrite <- Hw.
    specialize (IH (S j) fuel (Retry.asError e)).
    destruct IH as (Ho & Hi & Hwt).
    + lia.
    + lia.
    + intros i Hi. apply Hfail. lia.
    + rewrite <- Hok. f_equal. lia.
    + cbn [Retry.prepend Retry.outcome Retry.events].
      rewrite invocations_app, waits_app, Ho, Hi, Hwt.
      repeat split.
Qed.

(** Every attempt from [S j] to [n] fails: the loop makes them all, waits after
    each but the last, and throws the last failure as an [Error]. *)
Lemma retryLoop_all_fail (w : World) (n : nat) (cid : string) :
  forall (m j fuel : nat) (lastError : Js.Value) (wj : World),
    (j + m = n)%nat -> (m <= fuel)%nat ->
    (m <> 0%nat -> wj = Retry.worldBefore sleep operation w j) ->
    (forall i, (j < i <= n)%nat ->
       Js.isRejected (Retry.attemptOutcome sleep operation w i) = true) ->
    let r := Retry.retryLoop sleep fuel operation (Z.of_nat n) cid (Z.of_nat (S j))
               lastError wj in
    Retry.outcome r
      = Js.Rejected (match m with
                     | O => lastError
                     | S _ => Retry.asError
                                (Js.reasonOf (Retry.attemptOutcome sleep operation w n))
                     end) /\
    Retry.invocations (Retry.events r) = m /\
    Retry.waits (Retry.events r)
      = map (fun i => Retry.backoff (Z.of_nat i)) (seq (S j) (pred m)) /\
    Retry.logged (Retry.events r)
      = flat_map (fun i => [(cid, Z.of_nat i); (cid, Z.of_nat i)]) (seq (S j) m).
Proof.
  induction m as [|m IH]; intros j fuel lastError wj Hn Hfuel Hw Hfail r; subst r.
  - destruct fuel as [|fuel]; cbn [Retry.retryLoop]; [repeat split|].
    destruct (Z.leb_spec (Z.of_nat (S j)) (Z.of_nat n)) as [Hle | _]; [lia|].
    repeat split.
  - destruct fuel as [|fuel]; [lia|]. cbn [Retry.retryLoop].
    destruct (Z.leb_spec (Z.of_nat (S j)) (Z.of_nat n)) as [_ | Hgt]; [| lia].
    rewrite Hw by discriminate.
    assert (Hj : Js.isRejected (Retry.attemptOutcome sleep operation w (S j)) = true)
      by (apply Hfail; lia).
    pose proof (attemptOutcome_S w j) as Hout.
    assert (Hnext : Retry.worldBefore sleep operation w (S j)
                 = sleep (Retry.backoff (Z.of_nat (S j)))
                     (snd (operation (Retry.worldBefore sleep operation w j))))
      by reflexivity.
    destruct (operation (Retry.worldBefore sleep operation w j)) as [[x | e] w1];
      cbn [fst] in Hout; rewrite Hout in Hj; [discriminate Hj|]. cbn [snd] in Hnext.
    replace (Z.of_nat (S j) + 1) with (Z.of_nat (S (S j))) by lia.
    destruct (Z.ltb_spec (Z.of_nat (S j)) (Z.of_nat n)) as [Hlt | Hge].
    + destruct m as [|m]; [lia|].
      specialize (IH (S j) fuel (Retry.asError e)
                    (sleep (Retry.backoff (Z.of_nat (S j))) w1)).
      destruct IH as (Ho & Hi & Hwt & Hlg).
      * lia.
      * lia.
      * intros _. now rewrite Hnext.
      * intros i Hi. apply Hfail. lia.
      * cbn [Retry.prepend Retry.outcome Retry.events].
        rewrite invocations_app, waits_app, logged_app, Ho, Hi, Hwt, Hlg.
        repeat split.
    + assert (m = 0%nat) by lia. subst m.
      assert (Hn' : n = S j) by lia. clear Hn. subst n.
      specialize (IH (S j) fuel (Retry.asError e) w1).
      destruct IH as (Ho & Hi & Hwt & Hlg).
      * lia.
      * lia.
      * intros Hne. now elim Hne.
      * intros i Hi. apply Hfail. lia.
      * cbn [Retry.prepend Retry.outcome Retry.events].
        rewrite invocations_app, waits_app, logged_app, Ho, Hi, Hwt, Hlg.
        rewrite Hout. repeat split.
Qed.

End RetryFacts.


(** C5: [withRetry(op, n, correlationId)] with [n >= 1] calls [op] at most [n]
    times.  When attempt [k] is the first to succeed it returns that result
    after exactly [k] calls, having waited [min(1000 * 2^(i-1), 10000)] ms after
    each failed attempt [i < k] and at no other time; when all [n] attempts fail
    it has made [n] calls and waited so after each but the last.  In particular
    with [n = 3], two failures and a success, it returns the success after waits
    of 1000 and 2000 ms and three calls. *)
Theorem withRetry_backoff_schedule
  (World T : Type) (sleep : Z -> World -> World)
  (operation : Retry.Operation World T) (n : Z) (cid : string) (w : World) :
  1 <= n ->
  let run := Retry.withRetry sleep operation n cid w in
  let failed m i := Js.isRejected (Retry.attemptOutcome sleep operation m i) = true in
  (Z.of_nat (Retry.invocations (Retry.events run)) <= n) /\
  (forall (k : nat) (v : T),
     (1 <= k)%nat -> Z.of_nat k <= n ->
     (forall i, (1 <= i < k)%nat -> failed w i) ->
     Retry.attemptOutcome sleep operation w k = Js.Resolved v ->
     Retry.outcome run = Js.Resolved v /\
     Retry.invocations (Retry.events run) = k /\
     Retry.waits (Retry.events run)
       = map (fun i => Z.min (1000 * 2 ^ (Z.of_nat i - 1)) 10000) (seq 1 (k - 1))) /\
  ((forall i, (1 <= i)%nat -> Z.of_nat i <= n -> failed w i) ->
   Js.isRejected (Retry.outcome run) = true /\
   Z.of_nat (Retry.invocations (Retry.events run)) = n /\
   Retry.waits (Retry.events run)
     = map (fun i => Z.min (1000 * 2 ^ (Z.of_nat i - 1)) 10000)
         (seq 1 (Z.to_nat n - 1))) /\
  (forall (v : T),
     failed w 1%nat -> failed w 2%nat ->
     Retry.attemptOutcome sleep operation w 3 = Js.Resolved v ->
     let run3 := Retry.withRetry sleep operation 3 cid w in
     Retry.outcome run3 = Js.Resolved v /\
     Retry.invocations (Retry.events run3) = 3%nat /\
     Retry.waits (Retry.events run3) = [1000; 2000]).
Proof.
  intros Hn run failed. subst run failed. cbv beta.
  split; [| split; [| split]].
  - unfold Retry.withRetry.
    pose proof (retryLoop_invocations_le World T sleep operation
                  (S (Z.to_nat n)) n cid 1 Js.Undefined w) as H.
    lia.
  - intros k v Hk Hkn Hfail Hok.
    unfold Retry.withRetry.
    destruct k as [|k]; [lia|].
    pose proof (retryLoop_first_success World T sleep operation w (Z.to_nat n) cid v
                  k 0%nat (S (Z.to_nat n)) Js.Undefined) as H.
    rewrite Z2Nat.id in H by lia.
    cbn [Retry.worldBefore Nat.add] in H.
    replace (S k - 1)%nat with k by lia.
    apply H; try lia; try assumption.
    intros i Hi. apply Hfail. lia.
  - intros Hfail. unfold Retry.withRetry.
    pose proof (retryLoop_all_fail World T sleep operation w (Z.to_nat n) cid
                  (Z.to_nat n) 0%nat (S (Z.to_nat n)) Js.Undefined w) as H.
    rewrite Z2Nat.id in H by lia. change (Z.of_nat 1) with 1 in H.
    destruct H as (Ho & Hi & Hwt & _); try lia; try reflexivity.
    + intros i Hi. apply Hfail; lia.
    + rewrite Ho, Hi, Hwt. repeat split; [lia|].
      now rewrite Nat.sub_1_r.
  - intros v H1 H2 H3.
    pose proof (retryLoop_first_success World T sleep operation w 3%nat cid v
                  2%nat 0%nat 4%nat Js.Undefined) as H.
    cbn [Retry.worldBefore Nat.add] in H.
    unfold Retry.withRetry. change (S (Z.to_nat 3)) with 4%nat.
    change (Z.of_nat 3) with 3 in H. change (Z.of_nat 1) with 1 in H.
    destruct H as (Ho & Hi & Hw); try lia; try assumption.
    + intros i Hi. assert (Hc : i = 1%nat \/ i = 2%nat) by lia.
      destruct Hc; subst i; assumption.
    + cbv zeta. rewrite Ho, Hi, Hw. repeat split.
Qed.

(** C5 at work: an operation that times out twice and then succeeds, with
    three attempts allowed. *)
Lemma withRetry_backoff_schedule_witness :
  let run := Retry.withRetry (fun _ calls => calls) Retry.flakyOperation 3 "k3x9" 0%nat in
  Retry.outcome run = Js.Resolved 42 /\
  Retry.invocations (Retry.events run) = 3%nat /\
  Retry.waits (Retry.events run) = [1000; 2000].
Proof.
  cbv zeta.
  pose proof (withRetry_backoff_schedule nat Z (fun _ calls => calls)
                Retry.flakyOperation 3 "k3x9" 0%nat ltac:(lia)) as H.
  cbv zeta in H. destruct H as (_ & _ & _ & H3).
  apply (H3 42); reflexivity.
Defined.

(** C6, as stated, fails: two exhausted runs that differ in attempt count and in
    correlation id hand their callers the very same failure, the operation's own
    error; neither number nor id is attached to it. *)
Lemma withRetry_failure_carries_no_annotation :
  let runA := Retry.withRetry (fun _ w => w) Retry.alwaysTimeout 2 "req-a" tt in
  let runB := Retry.withRetry (fun _ w => w) Retry.alwaysTimeout 3 "req-b" tt in
  Retry.outcome runA = Js.Rejected (Js.Error "Timeout 20000ms exceeded") /\
  Retry.outcome runB = Retry.outcome runA /\
  Retry.invocations (Retry.events runA) = 2%nat /\
  Retry.invocations (Retry.events runB) = 3%nat.
Proof. cbv zeta. repeat split. Qed.

(** C6, amended: when all [n >= 1] attempts fail, the caller receives the last
    attempt's failure, turned into an [Error] when it is not one, and nothing
    more: the same value whatever the correlation id.  Attempt numbers and the
    correlation id go to the log only, twice per attempt. *)
Theorem withRetry_exhausted_rethrows_last
  (World T : Type) (sleep : Z -> World -> World)
  (operation : Retry.Operation World T) (n : Z) (cid : string) (w : World) :
  1 <= n ->
  (forall i, (1 <= i)%nat -> Z.of_nat i <= n ->
     Js.isRejected (Retry.attemptOutcome sleep operation w i) = true) ->
  let run := Retry.withRetry sleep operation n cid w in
  Retry.outcome run
    = Js.Rejected
        (Retry.asError
           (Js.reasonOf (Retry.attemptOutcome sleep operation w (Z.to_nat n)))) /\
  (forall cid', Retry.outcome (Retry.withRetry sleep operation n cid' w)
                = Retry.outcome run) /\
  Z.of_nat (Retry.invocations (Retry.events run)) = n /\
  Retry.logged (Retry.events run)
    = flat_map (fun i => [(cid, Z.of_nat i); (cid, Z.of_nat i)])
        (seq 1 (Z.to_nat n)).
Proof.
  intros Hn Hfail run. subst run.
  assert (Hall : forall c,
    let r := Retry.withRetry sleep operation n c w in
    Retry.outcome r
      = Js.Rejected
          (Retry.asError
             (Js.reasonOf (Retry.attemptOutcome sleep operation w (Z.to_nat n)))) /\
    Retry.invocations (Retry.events r) = Z.to_nat n /\
    Retry.logged (Retry.events r)
      = flat_map (fun i => [(c, Z.of_nat i); (c, Z.of_nat i)]) (seq 1 (Z.to_nat n))).
  { intros c. cbv zeta. unfold Retry.withRetry.
    pose proof (retryLoop_all_fail World T sleep operation w (Z.to_nat n) c
                  (Z.to_nat n) 0%nat (S (Z.to_nat n)) Js.Undefined w) as H.
    rewrite Z2Nat.id in H by lia. change (Z.of_nat 1) with 1 in H.
    assert (Hfail' : forall i, (0 < i <= Z.to_nat n)%nat ->
              Js.isRejected (Retry.attemptOutcome sleep operation w i) = true)
      by (intros i Hi; apply Hfail; lia).
    remember (Z.to_nat n) as N eqn:E in *.
    destruct N as [|m]; [lia|].
    destruct H as (Ho & Hi & _ & Hl); try lia; try reflexivity; try assumption.
    rewrite Ho, Hi, Hl. repeat split. }
  destruct (Hall cid) as (Ho & Hi & Hl). cbv zeta in *.
  repeat split.
  - exact Ho.
  - intros cid'. destruct (Hall cid') as (Ho' & _). cbv zeta in Ho'.
    now rewrite Ho, Ho'.
  - rewrite Hi. lia.
  - exact Hl.
Qed.

(** C6, amended, at work: two attempts that both time out. *)
Lemma withRetry_exhausted_rethrows_last_witness :
  Retry.outcome (Retry.withRetry (fun _ w => w) Retry.alwaysTimeout 2 "req-a" tt)
  = Js.Rejected (Js.Error "Timeout 20000ms exceeded").
Proof.
  pose proof (withRetry_exhausted_rethrows_last unit unit (fun _ w => w)
                Retry.alwaysTimeout 2 "req-a" tt ltac:(lia)
                ltac:(intros i _ _; reflexivity)) as H.
  cbv zeta in H. destruct H as (H & _). exact H.
Defined.

(** ** The insertion-ordered map *)

Section JsMapFacts.

Variable V : Type.
Implicit Types (m : JsMap.t V) (k : string) (v : V).

Lemma get_set_same m k v : JsMap.get k (JsMap.set k v m) = Some v.
Proof.
  induction m as [|[k' v'] m IH]; simpl.
  - now rewrite String.eqb_refl.
  - destruct (String.eqb k k') eqn:E; simpl.
    + now rewrite String.eqb_refl.
    + now rewrite E.
Qed.

Lemma get_set_other m k k' v :
  k <> k' -> JsMap.get k' (JsMap.set k v m) = JsMap.get k' m.
Proof.
  intros Hne. induction m as [|[k0 v0] m IH]; simpl.
  - destruct (String.eqb_spec k' k); [congruence | reflexivity].
  - destruct (String.eqb_spec k k0); simpl.
    + subst k0. destruct (String.eqb_spec k' k); [congruence | reflexivity].
    + now rewrite IH.
Qed.

Lemma get_In m k v : JsMap.get k m = Some v -> In (k, v) m.
Proof.
  induction m as [|[k' v'] m IH]; simpl; [discriminate|].
  destruct (String.eqb_spec k k').
  - intros [= ->]. subst. now left.
  - intros H. right. now apply IH.
Qed.

Lemma get_None_keys m k : JsMap.get k m = None <-> ~ In k (JsMap.keys m).
Proof.
  induction m as [|[k' v'] m IH]; simpl.
  - tauto.
  - destruct (String.eqb_spec k k').
    + subst. split; [discriminate | intros H; elim H; now left].
    + rewrite IH. split.
      * intros H [E | E]; [congruence | tauto].
      * tauto.
Qed.

Lemma In_get m k v : NoDup (JsMap.keys m) -> In (k, v) m -> JsMap.get k m = Some v.
Proof.
  induction m as [|[k' v'] m IH]; simpl; [tauto|].
  intros Hnd [E | Hin].
  - injection E as -> ->. now rewrite String.eqb_refl.
  - inversion Hnd as [|? ? Hnotin Hnd']; subst.
    destruct (String.eqb_spec k k').
    + subst. elim Hnotin. change k' with (fst (k', v)). now apply in_map.
    + now apply IH.
Qed.

Lemma keys_set_present m k v :
  JsMap.get k m <> None -> JsMap.keys (JsMap.set k v m) = JsMap.keys m.
Proof.
  induction m as [|[k' v'] m IH]; simpl; [congruence|].
  destruct (String.eqb_spec k k'); simpl.
  - now subst.
  - intros H. now rewrite IH.
Qed.

Lemma keys_set_absent m k v :
  JsMap.get k m = None -> JsMap.keys (JsMap.set k v m) = JsMap.keys m ++ [k].
Proof.
  induction m as [|[k' v'] m IH]; simpl; [reflexivity|].
  destruct (String.eqb_spec k k'); simpl; [discriminate|].
  intros H. now rewrite IH.
Qed.

Lemma size_keys m : JsMap.size m = Z.of_nat (List.length (JsMap.keys m)).
Proof. unfold JsMap.size, JsMap.keys. now rewrite length_map. Qed.

Lemma delete_absent m k : JsMap.get k m = None -> JsMap.delete k m = m.
Proof.
  induction m as [|[k' v'] m IH]; simpl; [reflexivity|].
  destruct (String.eqb_spec k k'); [discriminate|].
  intros H. now rewrite IH.
Qed.

(** With distinct keys, deleting a key drops every entry that carries it. *)
Lemma delete_filter m k :
  NoDup (JsMap.keys m) ->
  JsMap.delete k m = filter (fun e => negb (String.eqb k (fst e))) m.
Proof.
  induction m as [|[k' v'] m IH]; simpl; [reflexivity|].
  intros Hnd. inversion Hnd as [|? ? Hnotin Hnd']; subst.
  destruct (String.eqb_spec k k'); simpl.
  - subst k'. rewrite <- (IH Hnd'). symmetry. apply delete_absent.
    now apply get_None_keys.
  - now rewrite IH.
Qed.

Lemma NoDup_keys_filter m (q : string * V -> bool) :
  NoDup (JsMap.keys m) -> NoDup (JsMap.keys (filter q m)).
Proof.
  induction m as [|e m IH]; simpl; [trivial|].
  intros Hnd. inversion Hnd as [|? ? Hnotin Hnd']; subst.
  destruct (q e); simpl; [constructor|]; auto.
  intros Hin. apply Hnotin. unfold JsMap.keys in *.
  apply in_map_iff in Hin. destruct Hin as [e' [Hfst Hin]].
  apply filter_In in Hin. apply in_map_iff. exists e'. tauto.
Qed.

End JsMapFacts.

(** ** The browser pool *)

Import BrowserPool.

Lemma wellKeyed_create : wellKeyed create.
Proof. split; simpl; constructor. Qed.

Lemma Forall_keyed_set (m : JsMap.t BrowserInstance) k v :
  Forall (fun entry => fst entry = id (snd entry)) m -> k = id v ->
  Forall (fun entry => fst entry = id (snd entry)) (JsMap.set k v m).
Proof.
  intros Hm Hk. induction m as [|[k' v'] m IH]; simpl.
  - constructor; [exact Hk | constructor].
  - inversion_clear Hm. destruct (String.eqb k k'); constructor; auto.
Qed.

Lemma NoDup_keys_set (m : JsMap.t BrowserInstance) k v :
  NoDup (JsMap.keys m) -> NoDup (JsMap.keys (JsMap.set k v m)).
Proof.
  intros Hnd. destruct (JsMap.get k m) eqn:G.
  - rewrite keys_set_present by congruence. exact Hnd.
  - rewrite keys_set_absent by exact G.
    apply NoDup_app; [exact Hnd | repeat constructor; simpl; tauto |].
    intros x Hx [<- | []]. now apply get_None_keys in G.
Qed.

Lemma wellKeyed_set (p : Pool) k v :
  wellKeyed p -> k = id v ->
  wellKeyed (withInstances p (JsMap.set k v (instances p))).
Proof.
  intros [Hnd Hk] E. split; simpl.
  - now apply NoDup_keys_set.
  - now apply Forall_keyed_set.
Qed.

Lemma wellKeyed_delete (p : Pool) k :
  wellKeyed p -> wellKeyed (withInstances p (JsMap.delete k (instances p))).
Proof.
  intros [Hnd Hk]. split; simpl; rewrite delete_filter by assumption.
  - now apply NoDup_keys_filter.
  - apply Forall_forall. intros e He. apply filter_In in He.
    rewrite Forall_forall in Hk. now apply Hk.
Qed.

Lemma wellKeyed_get (p : Pool) k instance :
  wellKeyed p -> JsMap.get k (instances p) = Some instance -> k = id instance.
Proof.
  intros [_ Hk] G. apply get_In in G. rewrite Forall_forall in Hk.
  exact (Hk _ G).
Qed.

(** The instance [findAvailableInstance] returns is idle and sits in the map
    under its own id. *)
Lemma findAvailableInstance_stored (p : Pool) proxy instance :
  wellKeyed p -> findAvailableInstance proxy p = Some instance ->
  isActive instance = false /\
  JsMap.get (id instance) (instances p) = Some instance.
Proof.
  intros [Hnd Hk] F. unfold findAvailableInstance in F.
  apply find_some in F. destruct F as [Hin Hidle].
  split; [now destruct (isActive instance)|].
  unfold JsMap.values in Hin. apply in_map_iff in Hin.
  destruct Hin as [[k v] [Hv Hin]]. simpl in Hv. subst v.
  rewrite Forall_forall in Hk. pose proof (Hk _ Hin) as E. simpl in E. subst k.
  now apply In_get.
Qed.

Lemma wellKeyed_assign (p : Pool) k instance t b :
  wellKeyed p -> k = id instance -> wellKeyed (assign k instance t b p).
Proof. intros Hw E. unfold assign. now apply wellKeyed_set. Qed.

Lemma wellKeyed_release (p : Pool) k now :
  wellKeyed p -> wellKeyed (releaseBrowserContext k now p).
Proof.
  intros Hw. unfold releaseBrowserContext.
  destruct (JsMap.get k (instances p)) as [instance|] eqn:G; [| exact Hw].
  apply wellKeyed_assign; [exact Hw | now apply wellKeyed_get with (p := p)].
Qed.

Lemma closeBrowserInstance_delete (p : Pool) k closed :
  closeBrowserInstance k closed p = withInstances p (JsMap.delete k (instances p)).
Proof.
  unfold closeBrowserInstance.
  destruct (JsMap.get k (instances p)) eqn:G.
  - now destruct closed.
  - rewrite delete_absent by exact G. now destruct p.
Qed.

Lemma wellKeyed_close (p : Pool) k closed :
  wellKeyed p -> wellKeyed (closeBrowserInstance k closed p).
Proof. intros Hw. rewrite closeBrowserInstance_delete. now apply wellKeyed_delete. Qed.

Lemma wellKeyed_createBrowserInstance (p : Pool) proxy k launched now :
  wellKeyed p -> wellKeyed (snd (createBrowserInstance proxy k launched now p)).
Proof.
  intros Hw. unfold createBrowserInstance. destruct launched; simpl; [| exact Hw].
  now apply wellKeyed_set.
Qed.

Lemma wellKeyed_step cfg now ev (s : System) :
  wellKeyed (pool s) -> wellKeyed (pool (fst (step cfg now ev s))).
Proof.
  intros Hw. destruct ev; simpl.
  - unfold getBrowserContext.
    destruct (isShuttingDown (pool s)); [exact Hw|].
    destruct (findAvailableInstance proxy (pool s)) as [a|] eqn:F; simpl.
    + now apply wellKeyed_assign.
    + destruct (JsMap.size (instances (pool s)) <? poolSize cfg); exact Hw.
  - destruct (takeLaunch instanceId0 (launching s)) as [[l rest]|]; [| exact Hw].
    pose proof (wellKeyed_createBrowserInstance (pool s) (launchFor l) instanceId0
                  launched now Hw) as H.
    destruct (createBrowserInstance (launchFor l) instanceId0 launched now (pool s)).
    exact H.
  - destruct (nth_error (waiters s) waiter) as [w|]; [| exact Hw].
    destruct (found w); [exact Hw|].
    destruct (findAvailableInstance (waiterProxy w) (pool s)); [| exact Hw].
    simpl. now apply wellKeyed_assign.
  - destruct (nth_error (waiters s) waiter) as [w|]; [| exact Hw].
    destruct (found w || timedOut w); exact Hw.
  - now apply wellKeyed_release.
  - destruct (cleanupInterval (pool s)); exact Hw.
  - destruct (takeStarted instanceId0 (closings s)) as [[rest others]|]; [| exact Hw].
    simpl. now apply wellKeyed_close.
  - destruct Hw as [Hn Hk]. split; assumption.
Qed.

Lemma wellKeyed_run cfg schedule :
  forall s, wellKeyed (pool s) -> wellKeyed (pool (run cfg schedule s)).
Proof.
  induction schedule as [|[now ev] rest IH]; intros s Hw; simpl; [exact Hw|].
  apply IH. now apply wellKeyed_step.
Qed.

(** Busy and idle instances partition the pool: the counts of [getStats] add
    up, in every state. *)
Lemma getStats_partition cfg now (p : Pool) :
  activeInstances (getStats cfg now p) + idleInstances (getStats cfg now p)
  = totalInstances (getStats cfg now p) /\
  totalInstances (getStats cfg now p) = JsMap.size (instances p).
Proof.
  unfold getStats, JsMap.size, JsMap.values; cbn [activeInstances idleInstances totalInstances].
  rewrite length_map. split; [| reflexivity].
  rewrite <- Nat2Z.inj_add. f_equal.
  induction (instances p) as [|[k v] m IH]; simpl; [reflexivity|].
  destruct (isActive v); simpl; lia.
Qed.

(** A launch is started only by a caller that found the pool running, without
    an idle instance and below its size. *)
Lemma getBrowserContext_launch_guard cfg proxy now (p : Pool) :
  getBrowserContext cfg proxy now p = AwaitsLaunch ->
  isShuttingDown p = false /\
  findAvailableInstance proxy p = None /\
  JsMap.size (instances p) < poolSize cfg.
Proof.
  unfold getBrowserContext.
  destruct (isShuttingDown p); [discriminate|].
  destruct (findAvailableInstance proxy p); [discriminate|].
  destruct (Z.ltb_spec (JsMap.size (instances p)) (poolSize cfg)); [| discriminate].
  auto.
Qed.

Lemma size_set_present (m : JsMap.t BrowserInstance) k v :
  JsMap.get k m <> None -> JsMap.size (JsMap.set k v m) = JsMap.size m.
Proof. intros H. now rewrite !size_keys, keys_set_present. Qed.

Lemma size_set_le (m : JsMap.t BrowserInstance) k v :
  JsMap.size (JsMap.set k v m) <= JsMap.size m + 1.
Proof.
  rewrite !size_keys. destruct (JsMap.get k m) eqn:G.
  - rewrite keys_set_present by congruence. lia.
  - rewrite keys_set_absent by exact G. rewrite length_app. simpl. lia.
Qed.

Lemma size_delete_le (m : JsMap.t BrowserInstance) k :
  JsMap.size (JsMap.delete k m) <= JsMap.size m.
Proof.
  unfold JsMap.size. induction m as [|[k' v'] m IH]; simpl; [lia|].
  destruct (String.eqb k k'); simpl; lia.
Qed.

Lemma size_assign_found (p : Pool) proxy instance now b :
  wellKeyed p -> findAvailableInstance proxy p = Some instance ->
  JsMap.size (instances (assign (id instance) instance now b p))
  = JsMap.size (instances p).
Proof.
  intros Hw F. destruct (findAvailableInstance_stored p proxy instance Hw F) as [_ G].
  unfold assign; cbn [instances withInstances]. apply size_set_present. congruence.
Qed.

Lemma takeLaunch_length k (ls : list Launch) l rest :
  takeLaunch k ls = Some (l, rest) -> List.length ls = S (List.length rest).
Proof.
  revert l rest. induction ls as [|x ls IH]; intros l rest; simpl; [discriminate|].
  destruct (String.eqb k (launchId x)).
  - now intros [= <- <-].
  - destruct (takeLaunch k ls) as [[l' rest']|]; [| discriminate].
    intros [= <- <-]. simpl. f_equal. now apply (IH l').
Qed.

(** Instances stored plus launches in flight stay within the pool size as long
    as no caller enters [getBrowserContext] while a launch is in flight. *)
Lemma capacity_step cfg now ev (s : System) :
  wellKeyed (pool s) ->
  match ev, launching s with
  | GetBrowserContext _ _, _ :: _ => False
  | _, _ => True
  end ->
  JsMap.size (instances (pool s)) + Z.of_nat (List.length (launching s))
    <= poolSize cfg ->
  JsMap.size (instances (pool (fst (step cfg now ev s))))
  + Z.of_nat (List.length (launching (fst (step cfg now ev s))))
    <= poolSize cfg.
Proof.
  intros Hw Hserial Hcap. destruct ev; unfold step.
  - unfold getBrowserContext.
    destruct (isShuttingDown (pool s)); [exact Hcap|].
    destruct (findAvailableInstance proxy (pool s)) as [a|] eqn:F.
    + cbn [fst pool launching withPool].
      now rewrite (size_assign_found (pool s) proxy a now true Hw F).
    + destruct (Z.ltb_spec (JsMap.size (instances (pool s))) (poolSize cfg));
        [| exact Hcap].
      cbn [fst pool launching withLaunching].
      destruct (launching s); [| contradiction]. simpl in *. lia.
  - destruct (takeLaunch instanceId0 (launching s)) as [[l rest]|] eqn:E; [| exact Hcap].
    apply takeLaunch_length in E.
    unfold createBrowserInstance.
    destruct launched; cbn [fst pool launching withLaunching withPool].
    + cbn [instances withInstances].
      pose proof (size_set_le (instances (pool s)) instanceId0
                    {| browser := {| proxyServer := launchProxy (launchFor l) |};
                       context := {| owner := {| proxyServer := launchProxy (launchFor l) |} |};
                       createdAt := now; lastUsed := now; isActive := true;
                       id := instanceId0 |}).
      cbn [context id]. lia.
    + lia.
  - destruct (nth_error (waiters s) waiter) as [w|]; [| exact Hcap].
    destruct (found w); [exact Hcap|].
    destruct (findAvailableInstance (waiterProxy w) (pool s)) as [a|] eqn:F;
      [| exact Hcap].
    cbn [fst pool launching withWaiters withPool].
    now rewrite (size_assign_found (pool s) _ a now true Hw F).
  - destruct (nth_error (waiters s) waiter) as [w|]; [| exact Hcap].
    destruct (found w || timedOut w); exact Hcap.
  - cbn [fst pool launching withPool]. unfold releaseBrowserContext.
    destruct (JsMap.get instanceId0 (instances (pool s))) eqn:G; [| exact Hcap].
    unfold assign; cbn [instances withInstances].
    rewrite size_set_present by congruence. exact Hcap.
  - destruct (cleanupInterval (pool s)); exact Hcap.
  - destruct (takeStarted instanceId0 (closings s)) as [[rest others]|]; [| exact Hcap].
    cbn [fst pool launching]. rewrite closeBrowserInstance_delete.
    cbn [instances withInstances].
    pose proof (size_delete_le (instances (pool s)) instanceId0). lia.
  - exact Hcap.
Qed.

(** Without overlapping acquisitions the pool stays within its size. *)
Lemma serial_acquire_respects_capacity cfg schedule :
  forall s,
    wellKeyed (pool s) ->
    JsMap.size (instances (pool s)) + Z.of_nat (List.length (launching s))
      <= poolSize cfg ->
    serial cfg schedule s = true ->
    JsMap.size (instances (pool (run cfg schedule s))) <= poolSize cfg.
Proof.
  induction schedule as [|[now ev] rest IH]; intros s Hw Hcap Hs; simpl.
  - lia.
  - simpl in Hs. apply IH.
    + now apply wellKeyed_step.
    + apply capacity_step; [exact Hw | | exact Hcap].
      destruct ev; try exact I. destruct (launching s); [exact I | discriminate].
    + destruct ev; try exact Hs. destruct (launching s); [exact Hs | discriminate].
Qed.

(** C1 (the code breaks it): with [poolSize = 1], two callers enter
    [getBrowserContext] before either launch has finished; both pass the size
    test on the empty map, both launches succeed, and the pool holds two
    instances, both busy. *)
Theorem concurrent_acquire_overfills_pool :
  let cfg := {| poolSize := 1; idleTimeout := 300000; launchTimeout := 30000 |} in
  let schedule :=
    [ (0, GetBrowserContext None "a1");
      (1, GetBrowserContext None "b2");
      (800, LaunchSettled "a1" (Js.Resolved tt));
      (900, LaunchSettled "b2" (Js.Resolved tt)) ] in
  let s := run cfg schedule boot in
  JsMap.size (instances (pool s)) = 2 /\
  activeInstances (getStats cfg 900 (pool s)) = 2 /\
  statsPoolSize (getStats cfg 900 (pool s)) = 1 /\
  JsMap.keys (instances (pool s)) = ["a1"; "b2"].
Proof. cbv zeta. repeat split. Qed.

(** [find] returns the first element that passes the test. *)
Lemma find_first {A : Type} (f : A -> bool) (l : list A) (x : A) :
  find f l = Some x ->
  exists before after,
    l = before ++ x :: after /\ Forall (fun y => f y = false) before /\ f x = true.
Proof.
  induction l as [|y l IH]; simpl; [discriminate|].
  destruct (f y) eqn:E.
  - intros [= ->]. exists [], l. repeat split; [constructor | exact E].
  - intros H. destruct (IH H) as (b & a & -> & Hb & Hx).
    exists (y :: b), a. repeat split; [constructor; assumption | exact Hx].
Qed.

(** C8 (the code breaks it): [findAvailableInstance] takes the proxy its two
    callers pass on and never reads it (its comment announces a proxy check
    that the body does not make), so an instance launched through proxy A and
    released is handed to the next caller, who asked for proxy B: the context
    that caller receives belongs to a browser that runs through A, where
    [createBrowserInstance] would have launched one through B. *)
Theorem reuse_ignores_requested_proxy :
  let cfg := {| poolSize := 3; idleTimeout := 300000; launchTimeout := 30000 |} in
  let s := run cfg
             [ (0, GetBrowserContext (Some "http://proxy-a:8000") "a1");
               (700, LaunchSettled "a1" (Js.Resolved tt));
               (5000, ReleaseBrowserContext "a1") ] boot in
  exists lease p',
    getBrowserContext cfg (Some "http://proxy-b:8000") 6000 (pool s)
    = Returns lease p' /\
    instanceId lease = "a1" /\
    proxyServer (owner (leased lease)) = Some "http://proxy-a:8000" /\
    proxyServer (owner (leased lease)) <> launchProxy (Some "http://proxy-b:8000") /\
    (forall launched now p created,
       createBrowserInstance (Some "http://proxy-b:8000") "b2" launched now p
       = (Js.Resolved created, snd (createBrowserInstance
                                      (Some "http://proxy-b:8000") "b2" launched now p)) ->
       proxyServer (owner (leased created)) = Some "http://proxy-b:8000").
Proof.
  cbv zeta. eexists. eexists. split; [reflexivity|].
  repeat split; [discriminate|].
  intros launched now p created. unfold createBrowserInstance.
  destruct launched; [| discriminate]. cbn [fst snd]. now intros [= <-].
Qed.

(** X30: when an idle instance exists, [getBrowserContext] hands out the first
    idle instance of the map, in insertion order and whatever proxy was asked
    for; that instance is marked busy and its [lastUsed] is set to the time of
    the call, and nothing else in the map changes. *)
Theorem getBrowserContext_reuses_first_idle
  (cfg : Config) (proxy : option string) (now : Z) (p : Pool)
  (instance : BrowserInstance) :
  wellKeyed p -> isShuttingDown p = false ->
  findAvailableInstance proxy p = Some instance ->
  (forall proxy', findAvailableInstance proxy' p = Some instance) /\
  (exists before after,
     JsMap.values (instances p) = before ++ instance :: after /\
     Forall (fun other => isActive other = true) before /\
     isActive instance = false) /\
  JsMap.get (id instance) (instances p) = Some instance /\
  exists p',
    getBrowserContext cfg proxy now p
    = Returns {| leased := context instance; instanceId := id instance |} p' /\
    JsMap.get (id instance) (instances p')
    = Some {| browser := browser instance; context := context instance;
              createdAt := createdAt instance; lastUsed := now;
              isActive := true; id := id instance |} /\
    (forall k, k <> id instance ->
       JsMap.get k (instances p') = JsMap.get k (instances p)) /\
    JsMap.keys (instances p') = JsMap.keys (instances p).
Proof.
  intros Hw Hrun Hfind.
  destruct (findAvailableInstance_stored p proxy instance Hw Hfind) as [Hidle Hget].
  split; [intros proxy'; exact Hfind|].
  split.
  { unfold findAvailableInstance in Hfind.
    destruct (find_first _ _ _ Hfind) as (b & a & E & Hb & Hx).
    exists b, a. repeat split; [exact E | | exact Hidle].
    eapply Forall_impl; [| exact Hb]. intros o Ho. simpl in Ho.
    now destruct (isActive o). }
  split; [exact Hget|].
  unfold getBrowserContext. rewrite Hrun, Hfind.
  eexists. split; [reflexivity|].
  unfold assign; simpl. repeat split.
  - apply get_set_same.
  - intros k Hk. apply get_set_other. congruence.
  - apply keys_set_present. congruence.
Qed.

(** X30 at work: the pool holds one idle instance launched through proxy A;
    the caller asks for proxy B. *)
Lemma getBrowserContext_reuses_first_idle_witness :
  let cfg := {| poolSize := 3; idleTimeout := 300000; launchTimeout := 30000 |} in
  let b := {| proxyServer := Some "http://proxy-a:8000" |} in
  let instance := {| browser := b; context := {| owner := b |}; createdAt := 700;
                     lastUsed := 5000; isActive := false; id := "a1" |} in
  let p := {| instances := [("a1", instance)]; cleanupInterval := true;
              isShuttingDown := false |} in
  exists p',
    getBrowserContext cfg (Some "http://proxy-b:8000") 6000 p
    = Returns {| leased := {| owner := b |}; instanceId := "a1" |} p'.
Proof.
  cbv zeta.
  set (b := {| proxyServer := Some "http://proxy-a:8000" |}).
  set (instance := {| browser := b; context := {| owner := b |}; createdAt := 700;
                      lastUsed := 5000; isActive := false; id := "a1" |}).
  set (p := {| instances := [("a1", instance)]; cleanupInterval := true;
               isShuttingDown := false |}).
  assert (Hw : wellKeyed p).
  { split; simpl; repeat constructor. simpl. tauto. }
  destruct (getBrowserContext_reuses_first_idle
              {| poolSize := 3; idleTimeout := 300000; launchTimeout := 30000 |}
              (Some "http://proxy-b:8000") 6000 p instance Hw eq_refl eq_refl)
    as (_ & _ & _ & p' & Hret & _).
  exists p'. exact Hret.
Defined.

Lemma get_filter (m : JsMap.t BrowserInstance) (q : string * BrowserInstance -> bool) k :
  NoDup (JsMap.keys m) ->
  JsMap.get k (filter q m)
  = match JsMap.get k m with
    | Some v => if q (k, v) then Some v else None
    | None => None
    end.
Proof.
  induction m as [|[k' v'] m IH]; simpl; [reflexivity|].
  intros Hnd. inversion Hnd as [|? ? Hnotin Hnd']; subst.
  destruct (String.eqb_spec k k').
  - subst k'. destruct (q (k, v')) eqn:Q; simpl.
    + now rewrite String.eqb_refl.
    + rewrite IH by assumption.
      apply get_None_keys in Hnotin. now rewrite Hnotin.
  - destruct (q (k', v')); simpl; [| now apply IH].
    destruct (String.eqb_spec k k'); [congruence | now apply IH].
Qed.

Lemma get_delete_other (m : JsMap.t BrowserInstance) k k' :
  k <> k' -> JsMap.get k' (JsMap.delete k m) = JsMap.get k' m.
Proof.
  intros Hne. induction m as [|[k0 v0] m IH]; simpl; [reflexivity|].
  destruct (String.eqb_spec k k0); simpl.
  - subst k0. destruct (String.eqb_spec k' k); [congruence | reflexivity].
  - now rewrite IH.
Qed.

Lemma startClosing_present (ids : list string) (p : Pool) :
  (forall k, In k ids -> JsMap.get k (instances p) <> None) ->
  startClosing ids p = ids.
Proof.
  destruct ids as [|k rest]; [reflexivity|]. intros H. simpl.
  destruct (JsMap.get k (instances p)) eqn:G; [reflexivity|].
  elim (H k (or_introl eq_refl) G).
Qed.

(** The sweep picks exactly the instances that are idle and past the idle
    timeout when it starts. *)
Lemma instancesToCleanup_selects cfg now (p : Pool) k :
  wellKeyed p ->
  In k (instancesToCleanup cfg now p)
  <-> exists instance,
        JsMap.get k (instances p) = Some instance /\
        isActive instance = false /\
        idleTimeout cfg < now - lastUsed instance.
Proof.
  intros [Hnd _]. unfold instancesToCleanup.
  assert (Hsw : forall instance,
            swept cfg now (k, instance) = true
            <-> isActive instance = false /\ idleTimeout cfg < now - lastUsed instance).
  { intros instance. unfold swept; simpl.
    rewrite andb_true_iff, negb_true_iff, Z.ltb_lt. tauto. }
  pose proof (get_filter (instances p) (swept cfg now) k Hnd) as G.
  split.
  - intros Hin.
    destruct (JsMap.get k (filter (swept cfg now) (instances p))) as [v|] eqn:E.
    + destruct (JsMap.get k (instances p)) as [instance|]; [| discriminate].
      destruct (swept cfg now (k, instance)) eqn:S; [| discriminate].
      exists instance. split; [reflexivity | now apply Hsw].
    + apply get_None_keys in E. contradiction.
  - intros (instance & Hget & Hidle).
    rewrite Hget in G. apply Hsw in Hidle. rewrite Hidle in G.
    destruct (in_dec string_dec k
                (JsMap.keys (filter (swept cfg now) (instances p)))) as [H | H];
      [exact H|].
    apply get_None_keys in H. congruence.
Qed.

(** C9 (the code breaks it): the sweep picks its instances first and then
    closes them one after the other, awaiting each close, without looking at
    them again.  Two instances are idle past the timeout when the timer fires
    and both are picked; while the first close is awaited, two callers are
    handed those very instances, now busy and just used; the sweep closes and
    deletes both all the same, and [getStats] drops from two active instances
    to none while their tasks run. *)
Theorem sweep_destroys_instances_in_use :
  let cfg := {| poolSize := 2; idleTimeout := 300000; launchTimeout := 30000 |} in
  let idle :=
    run cfg [ (0, GetBrowserContext None "a1");
              (800, LaunchSettled "a1" (Js.Resolved tt));
              (900, GetBrowserContext None "b2");
              (1700, LaunchSettled "b2" (Js.Resolved tt));
              (5000, ReleaseBrowserContext "a1");
              (5001, ReleaseBrowserContext "b2") ] boot in
  let sweeping := run cfg [ (400000, CleanupTick) ] idle in
  let first := step cfg 400001 (GetBrowserContext None "c3") sweeping in
  let second := step cfg 400002 (GetBrowserContext None "d4") (fst first) in
  let leased := fst second in
  let swept := run cfg [ (400500, CloseSettled "a1" (Js.Resolved tt));
                         (401000, CloseSettled "b2" (Js.Resolved tt)) ] leased in
  instancesToCleanup cfg 400000 (pool idle) = ["a1"; "b2"] /\
  closing sweeping = [["a1"; "b2"]] /\
  snd first
  = [Js.Resolved {| leased := {| owner := plain |}; instanceId := "a1" |}] /\
  snd second
  = [Js.Resolved {| leased := {| owner := plain |}; instanceId := "b2" |}] /\
  JsMap.values (instances (pool leased))
  = [ {| browser := plain; context := {| owner := plain |}; createdAt := 800;
         lastUsed := 400001; isActive := true; id := "a1" |};
      {| browser := plain; context := {| owner := plain |}; createdAt := 1700;
         lastUsed := 400002; isActive := true; id := "b2" |} ] /\
  instancesToCleanup cfg 401000 (pool leased) = [] /\
  activeInstances (getStats cfg 400002 (pool leased)) = 2 /\
  closed swept = [("b2", Js.Resolved tt); ("a1", Js.Resolved tt)] /\
  instances (pool swept) = [] /\
  activeInstances (getStats cfg 401000 (pool swept)) = 0.
Proof. cbv zeta. repeat split. Qed.

(** A lease names an instance that the pool holds as busy: the one just marked
    on reuse, or the one just stored after a launch. *)
Lemma lease_names_busy_instance cfg proxy now (p p' : Pool) (lease : Lease) :
  getBrowserContext cfg proxy now p = Returns lease p' ->
  exists instance,
    JsMap.get (instanceId lease) (instances p') = Some instance /\
    isActive instance = true /\ lastUsed instance = now /\
    context instance = leased lease.
Proof.
  unfold getBrowserContext.
  destruct (isShuttingDown p); [discriminate|].
  destruct (findAvailableInstance proxy p) as [a|].
  - intros [= <- <-]. eexists. split; [apply get_set_same|]. repeat split.
  - destruct (JsMap.size (instances p) <? poolSize cfg); discriminate.
Qed.

Lemma created_lease_names_busy_instance proxy k launched now (p p' : Pool)
  (lease : Lease) :
  createBrowserInstance proxy k launched now p = (Js.Resolved lease, p') ->
  exists instance,
    JsMap.get (instanceId lease) (instances p') = Some instance /\
    isActive instance = true /\ lastUsed instance = now /\
    context instance = leased lease.
Proof.
  unfold createBrowserInstance. destruct launched; [| discriminate].
  intros [= <- <-]. eexists. split; [apply get_set_same|]. repeat split.
Qed.

(** C10: for every task, [withBrowserContext] hands the task's outcome, result
    or error alike, to its caller unchanged, and before doing so releases the
    leased id: the instance stored under that id after the task is marked not
    active with [lastUsed] set to the time of release, so no instance under the
    leased id is left busy, whether the task resolved or rejected.  The lease,
    reused or newly launched for whatever proxy, names an instance the pool
    holds as busy.  A failed acquisition is passed on and nothing is released. *)
Theorem withBrowserContext_always_releases (T : Type)
  (task : BrowserContext -> Pool -> Js.Outcome T * Pool)
  (lease : Lease) (now : Z) (p : Pool) :
  let ran := task (leased lease) p in
  let after := withBrowserContext task (Js.Resolved lease) now p in
  fst after = fst ran /\
  (forall instance,
     JsMap.get (instanceId lease) (instances (snd ran)) = Some instance ->
     JsMap.get (instanceId lease) (instances (snd after))
     = Some {| browser := browser instance; context := context instance;
               createdAt := createdAt instance; lastUsed := now;
               isActive := false; id := id instance |}) /\
  (forall instance,
     JsMap.get (instanceId lease) (instances (snd after)) = Some instance ->
     isActive instance = false) /\
  (forall k, k <> instanceId lease ->
     JsMap.get k (instances (snd after)) = JsMap.get k (instances (snd ran))) /\
  (forall cfg proxy now0 p0,
     getBrowserContext cfg proxy now0 p0 = Returns lease p \/
     (exists k launched, createBrowserInstance proxy k launched now0 p0
                         = (Js.Resolved lease, p)) ->
     exists instance,
       JsMap.get (instanceId lease) (instances p) = Some instance /\
       isActive instance = true) /\
  (forall error,
     withBrowserContext task (Js.Rejected error) now p = (Js.Rejected error, p)).
Proof.
  cbv zeta.
  assert (Hlease : forall cfg proxy now0 p0,
            getBrowserContext cfg proxy now0 p0 = Returns lease p \/
            (exists k launched, createBrowserInstance proxy k launched now0 p0
                                = (Js.Resolved lease, p)) ->
            exists instance,
              JsMap.get (instanceId lease) (instances p) = Some instance /\
              isActive instance = true).
  { intros cfg proxy now0 p0 [H | (k & launched & H)].
    - destruct (lease_names_busy_instance _ _ _ _ _ _ H) as (i & G & A & _).
      now exists i.
    - destruct (created_lease_names_busy_instance _ _ _ _ _ _ _ H) as (i & G & A & _).
      now exists i. }
  unfold withBrowserContext.
  destruct (task (leased lease) p) as [result p1]. cbn [fst snd].
  unfold releaseBrowserContext.
  destruct (JsMap.get (instanceId lease) (instances p1)) as [held|] eqn:G.
  - unfold assign; cbn [instances withInstances].
    split; [reflexivity|]. split; [| split; [| split; [| split]]].
    + intros instance [= <-]. apply get_set_same.
    + intros instance. rewrite get_set_same. now intros [= <-].
    + intros k Hk. apply get_set_other. congruence.
    + exact Hlease.
    + reflexivity.
  - split; [reflexivity|]. split; [| split; [| split; [| split]]].
    + intros instance H. congruence.
    + intros instance H. congruence.
    + reflexivity.
    + exact Hlease.
    + reflexivity.
Qed.

(** ** Pool shutdown *)

Lemma isShuttingDown_assign k instance t b (p : Pool) :
  isShuttingDown (assign k instance t b p) = isShuttingDown p.
Proof. reflexivity. Qed.

Lemma isShuttingDown_step cfg now ev (s : System) :
  isShuttingDown (pool s) = true ->
  isShuttingDown (pool (fst (step cfg now ev s))) = true.
Proof.
  intros H. destruct ev; simpl.
  - unfold getBrowserContext. rewrite H. exact H.
  - destruct (takeLaunch instanceId0 (launching s)) as [[l rest]|]; [| exact H].
    unfold createBrowserInstance. destruct launched; exact H.
  - destruct (nth_error (waiters s) waiter) as [w|]; [| exact H].
    destruct (found w); [exact H|].
    destruct (findAvailableInstance (waiterProxy w) (pool s)); exact H.
  - destruct (nth_error (waiters s) waiter) as [w|]; [| exact H].
    destruct (found w || timedOut w); exact H.
  - unfold releaseBrowserContext.
    destruct (JsMap.get instanceId0 (instances (pool s))); exact H.
  - destruct (cleanupInterval (pool s)); exact H.
  - destruct (takeStarted instanceId0 (closings s)) as [[rest others]|]; [| exact H].
    simpl. rewrite closeBrowserInstance_delete. exact H.
  - reflexivity.
Qed.

Lemma isShuttingDown_run cfg schedule :
  forall s, isShuttingDown (pool s) = true ->
            isShuttingDown (pool (run cfg schedule s)) = true.
Proof.
  induction schedule as [|[now ev] rest IH]; intros s H; simpl; [exact H|].
  apply IH. now apply isShuttingDown_step.
Qed.









(** A call of [shutdown] on a pool of two busy instances: it has not returned
    while one of its closings is in flight, and it has once both have settled,
    the second by a [close()] that threw. *)
Lemma shutdown_returns_after_its_closings :
  let cfg := {| poolSize := 3; idleTimeout := 300000; launchTimeout := 30000 |} in
  let s := run cfg [ (0, GetBrowserContext None "a1");
                     (800, LaunchSettled "a1" (Js.Resolved tt));
                     (900, GetBrowserContext None "b2");
                     (1700, LaunchSettled "b2" (Js.Resolved tt)) ] boot in
  let s1 := run cfg [ (2000, Shutdown);
                      (2500, CloseSettled "a1" (Js.Resolved tt)) ] s in
  let s2 := run cfg [ (2600, CloseSettled "b2"
                               (Js.Rejected (Js.Error "Target closed"))) ] s1 in
  activeInstances (getStats cfg 1700 (pool s)) = 2 /\
  shutdownReturned 0 s1 = false /\
  shutdownReturned 0 s2 = true /\
  closed s2 = [ ("b2", Js.Rejected (Js.Error "Target closed"));
                ("a1", Js.Resolved tt) ] /\
  instances (pool s2) = [].
Proof. cbv zeta. repeat split. Qed.

(** The sequences of closings without their starters: taking one and adding
    one read the same on both. *)
Lemma takeStarted_chains k (cs : list Closing) :
  takeClosing k (map chain cs)
  = match takeStarted k cs with
    | Some (c, others) => Some (chain c, map chain others)
    | None => None
    end.
Proof.
  induction cs as [|c cs IH]; [reflexivity|]. cbn [map takeClosing takeStarted].
  destruct (chain c) as [|head rest] eqn:Ec; [exact IH|].
  destruct (String.eqb k head); [reflexivity|].
  rewrite IH. destruct (takeStarted k cs) as [[c' others']|]; [| reflexivity].
  cbn [map]. now rewrite Ec.
Qed.

Lemma addStarted_chains (c : Closing) (cs : list Closing) :
  map chain (addStarted c cs) = addClosing (chain c) (map chain cs).
Proof.
  unfold addStarted, addClosing. destruct (chain c) eqn:E; [reflexivity|].
  rewrite map_app. cbn [map]. now rewrite E.
Qed.

(** The settling of a closing, read on the sequences in flight. *)
Lemma step_CloseSettled cfg now k closed' (s : System) :
  pool (fst (step cfg now (CloseSettled k closed') s))
  = match takeClosing k (closing s) with
    | Some _ => closeBrowserInstance k closed' (pool s)
    | None => pool s
    end /\
  closing (fst (step cfg now (CloseSettled k closed') s))
  = match takeClosing k (closing s) with
    | Some (rest, others) =>
        addClosing (startClosing rest (closeBrowserInstance k closed' (pool s))) others
    | None => closing s
    end /\
  launching (fst (step cfg now (CloseSettled k closed') s)) = launching s /\
  waiters (fst (step cfg now (CloseSettled k closed') s)) = waiters s /\
  snd (step cfg now (CloseSettled k closed') s) = [].
Proof.
  unfold closing. rewrite takeStarted_chains. unfold step.
  destruct (takeStarted k (closings s)) as [[c others]|];
    cbn [fst snd pool closings launching waiters]; [| now repeat split].
  rewrite addStarted_chains. now repeat split.
Qed.

(** The timer's tick and a call of [shutdown], read the same way. *)
Lemma closing_CleanupTick cfg now (s : System) :
  closing (fst (step cfg now CleanupTick s))
  = if cleanupInterval (pool s)
    then addClosing (startClosing (instancesToCleanup cfg now (pool s)) (pool s))
           (closing s)
    else closing s.
Proof.
  unfold step. destruct (cleanupInterval (pool s)); [| reflexivity].
  unfold closing. cbn [fst closings withClosings]. now rewrite addStarted_chains.
Qed.

Lemma closing_Shutdown cfg now (s : System) :
  closing (fst (step cfg now Shutdown s))
  = closing s ++ map (fun k => [k]) (JsMap.keys (instances (pool s))).
Proof.
  unfold step, closing. cbn [fst closings beginShutdown instances].
  now rewrite map_app, map_map.
Qed.

(** ** The Instagram queue *)

Import InstagramQueue.

(** *** The methods of p-queue *)

Lemma isIntervalPaused_frame now (q q1 : PQueue.Queue) paused :
  PQueue.isIntervalPaused now q = (q1, paused) ->
  PQueue.waiting q1 = PQueue.waiting q /\
  PQueue.pending q1 = PQueue.pending q /\
  PQueue.options q1 = PQueue.options q /\
  PQueue.intervalEnd q1 = PQueue.intervalEnd q /\
  PQueue.intervalId q1 = PQueue.intervalId q.
Proof.
  unfold PQueue.isIntervalPaused. cbv zeta.
  destruct (PQueue.intervalId q) eqn:I; [intros [= <- <-]; auto|].
  destruct (PQueue.intervalEnd q - now <? 0); [intros [= <- <-]; auto|].
  destruct (PQueue.timeoutId q); intros [= <- <-]; auto.
Qed.

(** The getter sets the count back only with the timer stopped and the last
    interval over. *)
Lemma isIntervalPaused_count now (q q1 : PQueue.Queue) paused :
  PQueue.isIntervalPaused now q = (q1, paused) ->
  (PQueue.resets q1 = PQueue.resets q /\
   PQueue.intervalCount q1 = PQueue.intervalCount q) \/
  (PQueue.resets q1 = S (PQueue.resets q) /\ PQueue.intervalCount q1 = 0 /\
   PQueue.intervalId q = None /\ PQueue.intervalEnd q < now /\ paused = false).
Proof.
  unfold PQueue.isIntervalPaused. cbv zeta.
  destruct (PQueue.intervalId q); [intros [= <- <-]; auto|].
  destruct (Z.ltb_spec (PQueue.intervalEnd q - now) 0).
  - intros [= <- <-]. right. cbn. repeat split; lia.
  - destruct (PQueue.timeoutId q); intros [= <- <-]; auto.
Qed.

Lemma initializeIntervalIfNeeded_frame now (q : PQueue.Queue) :
  PQueue.waiting (PQueue.initializeIntervalIfNeeded now q) = PQueue.waiting q /\
  PQueue.pending (PQueue.initializeIntervalIfNeeded now q) = PQueue.pending q /\
  PQueue.options (PQueue.initializeIntervalIfNeeded now q) = PQueue.options q /\
  PQueue.intervalCount (PQueue.initializeIntervalIfNeeded now q)
  = PQueue.intervalCount q /\
  PQueue.resets (PQueue.initializeIntervalIfNeeded now q) = PQueue.resets q /\
  PQueue.timeoutId (PQueue.initializeIntervalIfNeeded now q) = PQueue.timeoutId q.
Proof.
  unfold PQueue.initializeIntervalIfNeeded.
  destruct (PQueue.isIntervalIgnored q); [auto 10|].
  destruct (PQueue.intervalId q); cbn; auto 10.
Qed.

Lemma tryToStartAnother_starts now (qb q' : PQueue.Queue) (o : option PQueue.Job) :
  PQueue.tryToStartAnother now qb = (q', o) -> Starts qb q' (optionList o).
Proof.
  unfold PQueue.tryToStartAnother, Starts.
  destruct (PQueue.waiting qb) as [|job rest] eqn:W.
  - intros [= <- <-]. cbn. rewrite W. repeat split. lia.
  - destruct (PQueue.isIntervalPaused now qb) as [q1 paused] eqn:P.
    destruct (isIntervalPaused_frame _ _ _ _ P) as (W1 & P1 & O1 & _).
    destruct (PQueue.mayStart q1).
    + intros [= <- <-].
      destruct paused.
      * cbn. repeat split; [lia | exact O1].
      * destruct (initializeIntervalIfNeeded_frame now
                    {| PQueue.options := PQueue.options q1; PQueue.waiting := rest;
                       PQueue.pending := PQueue.pending q1 + 1;
                       PQueue.intervalCount := PQueue.intervalCount q1 + 1;
                       PQueue.intervalEnd := PQueue.intervalEnd q1;
                       PQueue.intervalId := PQueue.intervalId q1;
                       PQueue.timeoutId := PQueue.timeoutId q1;
                       PQueue.resets := PQueue.resets q1 |})
          as (Wi & Pi & Oi & _).
        rewrite Wi, Pi, Oi. cbn. repeat split; [lia | exact O1].
    + intros [= <- <-]. cbn. rewrite W1, W, P1. repeat split; [lia | exact O1].
Qed.

Lemma Starts_refl (q : PQueue.Queue) : Starts q q [].
Proof. unfold Starts. cbn. repeat split. lia. Qed.

Lemma Starts_cons (qb q1 q2 : PQueue.Queue) (job : PQueue.Job)
  (jobs : list PQueue.Job) :
  Starts qb q1 [job] -> Starts q1 q2 jobs -> Starts qb q2 (job :: jobs).
Proof.
  unfold Starts. intros (W1 & P1 & O1) (W2 & P2 & O2).
  cbn [List.length app] in *. repeat split.
  - now rewrite W1, W2.
  - lia.
  - congruence.
Qed.

Lemma processQueue_starts now (fuel : nat) :
  forall qb q' jobs,
    PQueue.processQueue fuel now qb = (q', jobs) -> Starts qb q' jobs.
Proof.
  induction fuel as [|fuel IH]; intros qb q' jobs; simpl.
  - intros [= <- <-]. apply Starts_refl.
  - destruct (PQueue.tryToStartAnother now qb) as [q1 [job|]] eqn:E.
    + destruct (PQueue.processQueue fuel now q1) as [q2 js] eqn:E2.
      intros [= <- <-].
      eapply Starts_cons; [exact (tryToStartAnother_starts _ _ _ _ E) | now apply IH].
    + intros [= <- <-]. exact (tryToStartAnother_starts _ _ _ _ E).
Qed.

(** The loop of [processQueue] ends by a call that starts nothing, never for
    want of turns: more turns than that give the same result. *)
Lemma processQueue_ends now (fuel : nat) :
  forall q, (List.length (PQueue.waiting q) < fuel)%nat ->
    PQueue.processQueue fuel now q
    = PQueue.processQueue (S (List.length (PQueue.waiting q))) now q.
Proof.
  induction fuel as [|fuel IH]; intros q Hlen; [lia|].
  cbn [PQueue.processQueue].
  destruct (PQueue.tryToStartAnother now q) as [q1 [job|]] eqn:E; [| reflexivity].
  pose proof (tryToStartAnother_starts _ _ _ _ E) as (W & _).
  cbn [optionList app] in W. rewrite W in *. cbn [List.length] in *.
  rewrite (IH q1) by lia. reflexivity.
Qed.

Lemma onInterval_starts now (q q' : PQueue.Queue) jobs :
  PQueue.onInterval now q = (q', jobs) -> Starts q q' jobs.
Proof.
  unfold PQueue.onInterval. intros E. apply processQueue_starts in E.
  destruct ((PQueue.intervalCount q =? 0) && (PQueue.pending q =? 0)); exact E.
Qed.

Lemma intervalFired_starts now (q q' : PQueue.Queue) jobs :
  PQueue.intervalFired now q = (q', jobs) -> Starts q q' jobs.
Proof. unfold PQueue.intervalFired. intros E. now apply onInterval_starts in E. Qed.

Lemma onResumeInterval_starts now (q q' : PQueue.Queue) jobs :
  PQueue.onResumeInterval now q = (q', jobs) -> Starts q q' jobs.
Proof.
  unfold PQueue.onResumeInterval.
  destruct (PQueue.onInterval now q) as [q1 js] eqn:E. intros [= <- <-].
  apply onInterval_starts in E. destruct E as (W & P & O).
  destruct (initializeIntervalIfNeeded_frame now q1) as (Wi & Pi & Oi & _).
  unfold Starts. cbn. now rewrite Wi, Pi, Oi.
Qed.

(** A start attempt counts what it starts, after the reset it may have made. *)
Lemma tryToStartAnother_counts now (qb q' : PQueue.Queue) (o : option PQueue.Job) :
  PQueue.tryToStartAnother now qb = (q', o) -> Counts qb q' (optionList o).
Proof.
  unfold PQueue.tryToStartAnother, Counts.
  destruct (PQueue.waiting qb) as [|job rest] eqn:W.
  - intros [= <- <-]. cbn. split; [left; split; [reflexivity | lia] | congruence].
  - destruct (PQueue.isIntervalPaused now qb) as [q1 paused] eqn:P.
    destruct (isIntervalPaused_frame _ _ _ _ P) as (_ & _ & O1 & _).
    pose proof (isIntervalPaused_count _ _ _ _ P) as C1.
    destruct (PQueue.mayStart q1) eqn:M.
    + intros [= <- <-].
      assert (Hq : forall q2 : PQueue.Queue,
                PQueue.resets q2 = PQueue.resets q1 ->
                PQueue.intervalCount q2 = PQueue.intervalCount q1 + 1 ->
                ((PQueue.resets q2 = PQueue.resets qb /\
                  PQueue.intervalCount q2
                  = PQueue.intervalCount qb + Z.of_nat (List.length [job])) \/
                 ((PQueue.resets qb < PQueue.resets q2)%nat /\
                  PQueue.intervalCount q2 = Z.of_nat (List.length [job]))) /\
                ([job] <> [] -> PQueue.interval (PQueue.options qb) <> 0 ->
                 PQueue.intervalCount q2 <= PQueue.intervalCap (PQueue.options qb))).
      { intros q2 R2 C2. cbn [List.length]. split.
        - destruct C1 as [[R C] | (R & C & _)]; [left | right]; split; lia.
        - intros _ Hi. rewrite C2. unfold PQueue.mayStart in M.
          apply andb_true_iff in M. destruct M as [M _].
          apply orb_true_iff in M. rewrite <- O1.
          destruct M as [M | M].
          + unfold PQueue.isIntervalIgnored in M. apply Z.eqb_eq in M. congruence.
          + apply Z.ltb_lt in M. lia. }
      cbn [optionList]. destruct paused.
      * apply Hq; reflexivity.
      * set (q2 := PQueue.Build_Queue _ _ _ _ _ _ _ _).
        destruct (initializeIntervalIfNeeded_frame now q2) as (_ & _ & _ & Ci & Ri & _).
        apply Hq; [rewrite Ri | rewrite Ci]; reflexivity.
    + intros [= <- <-]. cbn [optionList List.length]. split; [| congruence].
      destruct C1 as [[R C] | (R & C & _)]; [left | right]; split; cbn; lia.
Qed.

(** A start leaves the queue where no start attempt at the same time can set
    the count back. *)
Lemma tryToStartAnother_settles now (q q' : PQueue.Queue) (job : PQueue.Job) :
  PQueue.interval (PQueue.options q) <> 0 ->
  PQueue.tryToStartAnother now q = (q', Some job) -> Settled now q'.
Proof.
  intros Hi. unfold PQueue.tryToStartAnother.
  destruct (PQueue.waiting q) as [|j rest]; [discriminate|].
  unfold PQueue.isIntervalPaused. cbv zeta.
  assert (Hig : forall q0, PQueue.options q0 = PQueue.options q ->
                           PQueue.isIntervalIgnored q0 = false).
  { intros q0 O. unfold PQueue.isIntervalIgnored. rewrite O. now apply Z.eqb_neq. }
  destruct (PQueue.intervalId q) as [f|] eqn:I.
  - destruct (PQueue.mayStart q); [| discriminate]. intros [= <- _].
    left. unfold PQueue.initializeIntervalIfNeeded.
    rewrite Hig by reflexivity. cbn. rewrite I. discriminate.
  - destruct (Z.ltb_spec (PQueue.intervalEnd q - now) 0).
    + destruct (PQueue.mayStart (PQueue.resetCount q)); [| discriminate].
      intros [= <- _]. left. unfold PQueue.initializeIntervalIfNeeded.
      rewrite Hig by reflexivity. cbn. rewrite I. discriminate.
    + destruct (PQueue.timeoutId q).
      * destruct (PQueue.mayStart q); [| discriminate]. intros [= <- _].
        right. cbn. lia.
      * destruct (PQueue.mayStart _); [| discriminate]. intros [= <- _].
        right. cbn. lia.
Qed.

Lemma tryToStartAnother_settled now (q q' : PQueue.Queue) (o : option PQueue.Job) :
  Settled now q -> PQueue.tryToStartAnother now q = (q', o) ->
  PQueue.resets q' = PQueue.resets q /\
  PQueue.intervalCount q'
  = PQueue.intervalCount q + Z.of_nat (List.length (optionList o)).
Proof.
  intros Hs E. pose proof (tryToStartAnother_counts _ _ _ _ E) as [[H | [Hlt _]] _];
    [exact H|].
  exfalso. revert E. unfold PQueue.tryToStartAnother.
  destruct (PQueue.waiting q) as [|j rest]; [intros [= <- _]; cbn in Hlt; lia|].
  destruct (PQueue.isIntervalPaused now q) as [q1 paused] eqn:P.
  pose proof (isIntervalPaused_count _ _ _ _ P) as C1.
  assert (R1 : PQueue.resets q' = PQueue.resets q1 -> False).
  { intros R. destruct C1 as [[R1 _] | (_ & _ & I & Hend & _)]; [lia|].
    destruct Hs as [Hs | Hs]; [congruence | lia]. }
  destruct (PQueue.mayStart q1); [| intros [= <- _]; now apply R1].
  destruct paused; intros [= <- _]; apply R1; [reflexivity|].
  set (q2 := PQueue.Build_Queue _ _ _ _ _ _ _ _).
  destruct (initializeIntervalIfNeeded_frame now q2) as (_ & _ & _ & _ & Ri & _).
  rewrite Ri. reflexivity.
Qed.

Lemma processQueue_settled now (fuel : nat) :
  forall q q' jobs,
    PQueue.interval (PQueue.options q) <> 0 -> Settled now q ->
    PQueue.processQueue fuel now q = (q', jobs) ->
    PQueue.resets q' = PQueue.resets q /\
    PQueue.intervalCount q' = PQueue.intervalCount q + Z.of_nat (List.length jobs) /\
    (jobs <> [] ->
     PQueue.intervalCount q' <= PQueue.intervalCap (PQueue.options q)).
Proof.
  induction fuel as [|fuel IH]; intros q q' jobs Hi Hs; simpl.
  - intros [= <- <-]. cbn. repeat split; [lia | congruence].
  - destruct (PQueue.tryToStartAnother now q) as [q1 [job|]] eqn:E.
    + destruct (PQueue.processQueue fuel now q1) as [q2 js] eqn:E2.
      intros [= <- <-].
      destruct (tryToStartAnother_settled _ _ _ _ Hs E) as [R1 C1].
      pose proof (tryToStartAnother_counts _ _ _ _ E) as [_ L1].
      pose proof (tryToStartAnother_starts _ _ _ _ E) as (_ & _ & O1).
      assert (Hi1 : PQueue.interval (PQueue.options q1) <> 0) by now rewrite O1.
      destruct (IH q1 q2 js Hi1 (tryToStartAnother_settles _ _ _ _ Hi E) E2)
        as (R2 & C2 & L2).
      cbn [optionList List.length] in *. repeat split; [lia | lia |].
      intros _. destruct js as [|j js].
      * cbn [List.length] in C2. rewrite C2, Z.add_0_r. apply L1; [discriminate | exact Hi].
      * rewrite <- O1. apply L2. discriminate.
    + intros [= <- <-]. destruct (tryToStartAnother_settled _ _ _ _ Hs E) as [R1 C1].
      cbn [optionList List.length] in *. repeat split; [exact R1 | lia | congruence].
Qed.

Lemma processQueue_counts now (fuel : nat) (q q' : PQueue.Queue) jobs :
  PQueue.interval (PQueue.options q) <> 0 ->
  PQueue.processQueue fuel now q = (q', jobs) -> Counts q q' jobs.
Proof.
  intros Hi. destruct fuel as [|fuel]; simpl.
  - intros [= <- <-]. split; [left; cbn; split; [reflexivity | lia] | congruence].
  - destruct (PQueue.tryToStartAnother now q) as [q1 [job|]] eqn:E.
    + destruct (PQueue.processQueue fuel now q1) as [q2 js] eqn:E2.
      intros [= <- <-].
      pose proof (tryToStartAnother_counts _ _ _ _ E) as [C1 L1].
      pose proof (tryToStartAnother_starts _ _ _ _ E) as (_ & _ & O1).
      assert (Hi1 : PQueue.interval (PQueue.options q1) <> 0) by now rewrite O1.
      destruct (processQueue_settled now fuel q1 q2 js Hi1
                  (tryToStartAnother_settles _ _ _ _ Hi E) E2) as (R2 & C2 & L2).
      unfold Counts. cbn [optionList List.length] in *. split.
      * destruct C1 as [[R C] | [R C]]; [left | right]; split; lia.
      * intros _ _. destruct js as [|j js].
        -- cbn [List.length] in C2. rewrite C2, Z.add_0_r.
           apply L1; [discriminate | exact Hi].
        -- rewrite <- O1. apply L2. discriminate.
    + intros [= <- <-]. exact (tryToStartAnother_counts _ _ _ _ E).
Qed.

Lemma NoDup_app_disjoint {A : Type} (l1 l2 : list A) (a : A) :
  NoDup (l1 ++ l2) -> In a l1 -> In a l2 -> False.
Proof.
  induction l1 as [|x l1 IH]; simpl; [tauto|].
  intros Hnd [-> | Hin] H2; inversion Hnd as [|? ? Hnotin Hnd']; subst.
  - apply Hnotin. apply in_or_app. now right.
  - now apply IH.
Qed.

Section QueueFacts.

Variable T : Type.
Implicit Types (s : State T) (settled : list (nat * Js.Outcome T)).

Lemma promise_cons id id' (o : Js.Outcome T) settled :
  promise id ((id', o) :: settled)
  = if Nat.eqb id id' then Some o else promise id settled.
Proof. reflexivity. Qed.

Lemma enqueue_perm (job : PQueue.Job) (l : list PQueue.Job) :
  Permutation (PQueue.enqueue job l) (job :: l).
Proof.
  induction l as [|first rest IH]; simpl; [apply Permutation_refl|].
  destruct (PQueue.priority first <? PQueue.priority job).
  - apply Permutation_refl.
  - eapply Permutation_trans; [apply perm_skip; exact IH | apply perm_swap].
Qed.

Lemma mem_In (id : nat) (l : list nat) : mem id l = true <-> In id l.
Proof.
  unfold mem. rewrite existsb_exists. split.
  - intros [x [Hin E]]. apply Nat.eqb_eq in E. now subst.
  - intros Hin. exists id. split; [assumption | apply Nat.eqb_refl].
Qed.

Lemma remove_In (id x : nat) (l : list nat) :
  In x (remove id l) <-> In x l /\ x <> id.
Proof.
  unfold remove. rewrite filter_In, negb_true_iff, Nat.eqb_neq.
  split; intros [H1 H2]; split; auto.
Qed.

Lemma remove_length (id : nat) (l : list nat) :
  NoDup l -> In id l -> S (List.length (remove id l)) = List.length l.
Proof.
  unfold remove.
  induction l as [|x l IH]; [simpl; tauto|].
  intros Hnd Hin. inversion Hnd as [|? ? Hnotin Hnd']; subst.
  cbn [filter]. destruct (Nat.eqb_spec id x) as [E | E]; cbn [negb List.length].
  - subst x. f_equal. f_equal.
    apply forallb_filter_id. apply forallb_forall.
    intros y Hy. apply negb_true_iff, Nat.eqb_neq. intros ->. contradiction.
  - f_equal. apply IH; [assumption|]. destruct Hin; [congruence | assumption].
Qed.

Lemma NoDup_remove (id : nat) (l : list nat) : NoDup l -> NoDup (remove id l).
Proof. intros H. unfold remove. now apply NoDup_filter. Qed.

(** Starting jobs keeps the books in order. *)
Lemma Accounted_start (qb q' : PQueue.Queue) jobs submitted running settled :
  Starts qb q' jobs ->
  Accounted (PQueue.waiting qb) (PQueue.pending qb) submitted running settled ->
  Accounted (PQueue.waiting q') (PQueue.pending q') submitted
    (running ++ map PQueue.jobId jobs) settled.
Proof.
  intros (W & P & _) (Hnd & Hin & Hp & Hs).
  assert (Hperm : Permutation
            (map PQueue.jobId (PQueue.waiting q') ++ running ++ map PQueue.jobId jobs)
            (map PQueue.jobId (PQueue.waiting qb) ++ running)).
  { rewrite W, map_app.
    rewrite <- app_assoc.
    eapply Permutation_trans; [| apply Permutation_app_comm].
    rewrite <- app_assoc. apply Permutation_refl. }
  repeat split.
  - eapply Permutation_NoDup; [apply Permutation_sym; exact Hperm | exact Hnd].
  - apply Hin. eapply Permutation_in; [exact Hperm | assumption].
  - apply Hin. eapply Permutation_in; [exact Hperm | assumption].
  - rewrite P, Hp, length_app, length_map. lia.
  - exact Hs.
Qed.

Lemma Accounted_add (job : PQueue.Job) waiting pending submitted running settled :
  ~ In (PQueue.jobId job) submitted ->
  Accounted waiting pending submitted running settled ->
  Accounted (PQueue.enqueue job waiting) pending
    (PQueue.jobId job :: submitted) running settled.
Proof.
  intros Hfresh (Hnd & Hin & Hp & Hs).
  assert (Hperm : Permutation
            (map PQueue.jobId (PQueue.enqueue job waiting) ++ running)
            (PQueue.jobId job :: map PQueue.jobId waiting ++ running)).
  { change (PQueue.jobId job :: map PQueue.jobId waiting ++ running)
      with (map PQueue.jobId (job :: waiting) ++ running).
    apply Permutation_app_tail, Permutation_map, enqueue_perm. }
  repeat split.
  - eapply Permutation_NoDup; [apply Permutation_sym; exact Hperm|].
    constructor; [| exact Hnd]. intros Hc. apply Hfresh. now apply Hin.
  - apply (Permutation_in _ Hperm) in H. destruct H as [<- | H]; [now left|].
    right. now apply Hin.
  - apply (Permutation_in _ Hperm) in H. destruct H as [<- | H].
    + destruct (promise (PQueue.jobId job) settled) eqn:E; [| reflexivity].
      elim Hfresh. apply Hs. congruence.
    + now apply Hin.
  - exact Hp.
  - intros id Hid. right. now apply Hs.
Qed.

Lemma Accounted_finish id (o : Js.Outcome T) waiting pending submitted running settled :
  In id running ->
  Accounted waiting pending submitted running settled ->
  Accounted waiting (pending - 1) submitted (remove id running)
    ((id, o) :: settled).
Proof.
  intros Hrun (Hnd & Hin & Hp & Hs).
  assert (Hother : forall x, In x (map PQueue.jobId waiting ++ remove id running) ->
                             In x (map PQueue.jobId waiting ++ running) /\ x <> id).
  { intros x Hx. apply in_app_or in Hx. destruct Hx as [Hx | Hx].
    - split; [apply in_or_app; now left|].
      intros ->. exact (NoDup_app_disjoint _ _ id Hnd Hx Hrun).
    - apply remove_In in Hx. split; [apply in_or_app; now right | tauto]. }
  repeat split.
  - apply NoDup_app.
    + now apply NoDup_app_remove_r in Hnd.
    + apply NoDup_remove. now apply NoDup_app_remove_l in Hnd.
    + intros x Hx Hx'. apply remove_In in Hx'.
      exact (NoDup_app_disjoint _ _ x Hnd Hx (proj1 Hx')).
  - apply Hin. now apply Hother.
  - destruct (Hother _ H) as [Hx Hne]. rewrite promise_cons.
    destruct (Nat.eqb_spec id0 id); [contradiction|]. now apply Hin.
  - apply NoDup_app_remove_l in Hnd.
    pose proof (remove_length id running Hnd Hrun). lia.
  - intros x. rewrite promise_cons. destruct (Nat.eqb_spec x id) as [-> | Hne].
    + intros _. apply Hin. apply in_or_app. now right.
    + apply Hs.
Qed.

Lemma Accounted_clear waiting pending submitted running settled :
  Accounted waiting pending submitted running settled ->
  Accounted [] pending submitted running settled.
Proof.
  intros (Hnd & Hin & Hp & Hs). repeat split; simpl.
  - now apply NoDup_app_remove_l in Hnd.
  - apply Hin. apply in_or_app. now right.
  - apply Hin. apply in_or_app. now right.
  - exact Hp.
  - exact Hs.
Qed.

End QueueFacts.

Section QueueInvariants.

Variable T : Type.
Implicit Types (s : State T).

Lemma accounted_create cfg : accounted (create T cfg).
Proof.
  unfold accounted, Accounted; simpl.
  split; [constructor|]. split; [tauto|]. split; [reflexivity|].
  intros id H. now elim H.
Qed.

Lemma accounted_wake s : accounted s -> accounted (wake s).
Proof. unfold wake. now destruct (PQueue.isIdle (queue s)). Qed.

Lemma accounted_step now (ev : Event T) s : accounted s -> accounted (step now ev s).
Proof.
  intros Ha. destruct ev as [id prio | id o | | |]; unfold step.
  - destruct (mem id (submitted s)) eqn:M; [exact Ha|].
    destruct (PQueue.add _ now (queue s)) as [q job'] eqn:E.
    unfold PQueue.add in E. apply tryToStartAnother_starts in E.
    unfold accounted; cbn [queue submitted running settled started].
    change (id :: submitted s)
      with (PQueue.jobId {| PQueue.jobId := id;
                            PQueue.priority := match prio with
                                               | Some p => p
                                               | None => 0
                                               end |} :: submitted s).
    eapply Accounted_start; [exact E|].
    cbn [PQueue.waiting PQueue.pending PQueue.withWaiting].
    apply Accounted_add; [| exact Ha].
    cbn [PQueue.jobId]. intros Hin. apply mem_In in Hin. congruence.
  - destruct (mem id (running s)) eqn:M; [| exact Ha].
    destruct (PQueue.next now (queue s)) as [q job'] eqn:E.
    unfold PQueue.next in E. apply tryToStartAnother_starts in E.
    apply accounted_wake.
    unfold accounted; cbn [queue submitted running settled started].
    eapply Accounted_start; [exact E|].
    cbn [PQueue.waiting PQueue.pending PQueue.withPending].
    apply Accounted_finish; [now apply mem_In | exact Ha].
  - destruct (PQueue.intervalId (queue s)); [| exact Ha].
    destruct (PQueue.intervalFired now (queue s)) as [q jobs] eqn:E.
    apply intervalFired_starts in E.
    apply accounted_wake.
    unfold accounted; cbn [queue submitted running settled started].
    eapply Accounted_start; [exact E|]. exact Ha.
  - destruct (PQueue.timeoutId (queue s)); [| exact Ha].
    destruct (PQueue.onResumeInterval now (queue s)) as [q jobs] eqn:E.
    apply onResumeInterval_starts in E.
    apply accounted_wake.
    unfold accounted; cbn [queue submitted running settled started].
    eapply Accounted_start; [exact E|]. exact Ha.
  - unfold accounted; cbn [queue submitted running settled PQueue.clear
                             PQueue.withWaiting PQueue.waiting PQueue.pending].
    eapply Accounted_clear. exact Ha.
Qed.

Lemma accounted_run (schedule : list (Z * Event T)) :
  forall s, accounted s -> accounted (run schedule s).
Proof.
  induction schedule as [|[now ev] rest IH]; intros s Ha; simpl; [exact Ha|].
  apply IH. now apply accounted_step.
Qed.

Lemma countEpoch_app e (a b : list Admission) :
  countEpoch e (a ++ b) = (countEpoch e a + countEpoch e b)%nat.
Proof. unfold countEpoch. now rewrite filter_app, length_app. Qed.

Lemma countEpoch_fresh now r e (jobs : list PQueue.Job) :
  countEpoch e
    (rev (map (fun j => {| at_ := now; task := PQueue.jobId j; epoch := r |}) jobs))
  = if Nat.eqb r e then List.length jobs else 0%nat.
Proof.
  unfold countEpoch.
  induction jobs as [|j jobs IH]; simpl; [now destruct (Nat.eqb r e)|].
  rewrite filter_app, length_app, IH. simpl.
  destruct (Nat.eqb r e); simpl; lia.
Qed.

Lemma countEpoch_later (adm : list Admission) (r e : nat) :
  (forall a, In a adm -> (epoch a <= r)%nat) -> (r < e)%nat -> countEpoch e adm = 0%nat.
Proof.
  intros Hle Hlt. unfold countEpoch.
  induction adm as [|a adm IH]; simpl; [reflexivity|].
  destruct (Nat.eqb_spec (epoch a) e) as [E | E].
  - pose proof (Hle a (or_introl eq_refl)). lia.
  - apply IH. intros b Hb. apply Hle. now right.
Qed.

Lemma Capped_start cap count adm r now (jobs : list PQueue.Job) :
  Capped cap count adm r ->
  (jobs <> [] -> count + Z.of_nat (List.length jobs) <= cap) ->
  Capped cap (count + Z.of_nat (List.length jobs))
    (rev (map (fun j => {| at_ := now; task := PQueue.jobId j; epoch := r |}) jobs)
     ++ adm) r.
Proof.
  intros (Hc & Hle & Hall & Hep) Hroom.
  assert (Hsum : count + Z.of_nat (List.length jobs) <= cap).
  { destruct jobs; [simpl; lia | apply Hroom; discriminate]. }
  repeat split.
  - rewrite countEpoch_app, countEpoch_fresh, Nat.eqb_refl. lia.
  - exact Hsum.
  - intros e. rewrite countEpoch_app, countEpoch_fresh.
    destruct (Nat.eqb_spec r e) as [<- | Hne].
    + lia.
    + specialize (Hall e). lia.
  - intros a Ha. apply in_app_or in Ha. destruct Ha as [Ha | Ha]; [| now apply Hep].
    apply in_rev in Ha. apply in_map_iff in Ha. destruct Ha as [j [<- _]]. simpl. lia.
Qed.

Lemma Capped_reset cap count adm r r' :
  0 <= cap -> (r < r')%nat -> Capped cap count adm r -> Capped cap 0 adm r'.
Proof.
  intros Hcap Hlt (Hc & Hle & Hall & Hep). repeat split.
  - rewrite (countEpoch_later adm r r'); [reflexivity | exact Hep | lia].
  - exact Hcap.
  - exact Hall.
  - intros a Ha. specialize (Hep a Ha). lia.
Qed.

(** Whatever a piece of queue code started, it started within the cap. *)
Lemma Capped_counts adm now (qb q' : PQueue.Queue) jobs :
  0 <= PQueue.intervalCap (PQueue.options qb) ->
  PQueue.interval (PQueue.options qb) <> 0 ->
  Counts qb q' jobs ->
  Capped (PQueue.intervalCap (PQueue.options qb)) (PQueue.intervalCount qb) adm
    (PQueue.resets qb) ->
  Capped (PQueue.intervalCap (PQueue.options qb)) (PQueue.intervalCount q')
    (rev (map (fun j => {| at_ := now; task := PQueue.jobId j;
                           epoch := PQueue.resets q' |}) jobs) ++ adm)
    (PQueue.resets q').
Proof.
  intros Hcap Hi [[[R C] | [R C]] L] Hc.
  - rewrite R, C. apply Capped_start; [exact Hc|].
    intros Hne. rewrite <- C. now apply L.
  - rewrite C. change (Z.of_nat (List.length jobs))
      with (0 + Z.of_nat (List.length jobs)).
    apply Capped_start; [eapply Capped_reset; [exact Hcap | exact R | exact Hc]|].
    intros Hne. cbn [Z.add]. rewrite <- C. now apply L.
Qed.

(** A firing of either timer sets the count back before it starts anything. *)
Lemma onInterval_counts now (q q' : PQueue.Queue) jobs :
  PQueue.interval (PQueue.options q) <> 0 ->
  PQueue.onInterval now q = (q', jobs) ->
  (PQueue.resets q < PQueue.resets q')%nat /\ Counts q q' jobs.
Proof.
  intros Hi. unfold PQueue.onInterval. intros E.
  assert (H : Counts (PQueue.resetCount q) q' jobs).
  { destruct ((PQueue.intervalCount q =? 0) && (PQueue.pending q =? 0));
      apply processQueue_counts in E; try exact E; exact Hi. }
  destruct H as [[[R C] | [R C]] L]; cbn in R, C, L.
  - split; [lia|]. split; [right; split; lia | exact L].
  - split; [lia|]. split; [right; split; lia | exact L].
Qed.

Lemma intervalFired_counts now (q q' : PQueue.Queue) jobs :
  PQueue.interval (PQueue.options q) <> 0 ->
  PQueue.intervalFired now q = (q', jobs) ->
  (PQueue.resets q < PQueue.resets q')%nat /\ Counts q q' jobs.
Proof.
  intros Hi E. unfold PQueue.intervalFired in E.
  apply onInterval_counts in E; [exact E | exact Hi].
Qed.

Lemma onResumeInterval_counts now (q q' : PQueue.Queue) jobs :
  PQueue.interval (PQueue.options q) <> 0 ->
  PQueue.onResumeInterval now q = (q', jobs) ->
  (PQueue.resets q < PQueue.resets q')%nat /\ Counts q q' jobs.
Proof.
  intros Hi. unfold PQueue.onResumeInterval.
  destruct (PQueue.onInterval now q) as [q1 js] eqn:E. intros [= <- <-].
  apply onInterval_counts in E; [| exact Hi].
  destruct (initializeIntervalIfNeeded_frame now q1) as (_ & _ & _ & Ci & Ri & _).
  unfold Counts in *. cbn. rewrite Ci, Ri. exact E.
Qed.

Lemma capped_create cfg :
  0 <= rateLimitPerMinute cfg -> capped (create T cfg).
Proof.
  intros H. unfold capped, Capped; simpl.
  split; [reflexivity|]. split; [exact H|]. split; [intros e; exact H|].
  intros a Ha. now elim Ha.
Qed.

Lemma capped_wake s : capped s -> capped (wake s).
Proof. unfold wake. now destruct (PQueue.isIdle (queue s)). Qed.

Lemma options_wake s : PQueue.options (queue (wake s)) = PQueue.options (queue s).
Proof. unfold wake. now destruct (PQueue.isIdle (queue s)). Qed.

(** No piece of queue code changes the options the queue was built with. *)
Lemma options_step now (ev : Event T) s :
  PQueue.options (queue (step now ev s)) = PQueue.options (queue s).
Proof.
  destruct ev as [id prio | id o | | |]; unfold step.
  - destruct (mem id (submitted s)); [reflexivity|].
    destruct (PQueue.add _ now (queue s)) as [q job'] eqn:E.
    unfold PQueue.add in E. apply tryToStartAnother_starts in E.
    destruct E as (_ & _ & O). exact O.
  - destruct (mem id (running s)); [| reflexivity].
    destruct (PQueue.next now (queue s)) as [q job'] eqn:E.
    unfold PQueue.next in E. apply tryToStartAnother_starts in E.
    destruct E as (_ & _ & O). rewrite options_wake. exact O.
  - destruct (PQueue.intervalId (queue s)); [| reflexivity].
    destruct (PQueue.intervalFired now (queue s)) as [q jobs] eqn:E.
    apply intervalFired_starts in E.
    destruct E as (_ & _ & O). rewrite options_wake. exact O.
  - destruct (PQueue.timeoutId (queue s)); [| reflexivity].
    destruct (PQueue.onResumeInterval now (queue s)) as [q jobs] eqn:E.
    apply onResumeInterval_starts in E.
    destruct E as (_ & _ & O). rewrite options_wake. exact O.
  - reflexivity.
Qed.

Lemma options_run (schedule : list (Z * Event T)) :
  forall s, PQueue.options (queue (run schedule s)) = PQueue.options (queue s).
Proof.
  induction schedule as [|[now ev] rest IH]; intros s; simpl; [reflexivity|].
  now rewrite IH, options_step.
Qed.

Lemma capped_step now (ev : Event T) s :
  0 <= PQueue.intervalCap (PQueue.options (queue s)) ->
  PQueue.interval (PQueue.options (queue s)) <> 0 ->
  capped s -> capped (step now ev s).
Proof.
  intros Hcap Hi Hc.
  assert (Hstart : forall (qb q : PQueue.Queue) jobs s1,
            PQueue.options qb = PQueue.options (queue s) ->
            PQueue.intervalCount qb = PQueue.intervalCount (queue s) ->
            PQueue.resets qb = PQueue.resets (queue s) ->
            admissions s1 = admissions s ->
            Starts qb q jobs -> Counts qb q jobs ->
            capped (started now jobs s1 q)).
  { intros qb q jobs s1 O C R A (_ & _ & O') Hcounts.
    unfold capped, resets; cbn [queue admissions started].
    rewrite O', A. rewrite O in *.
    rewrite <- O. apply Capped_counts; rewrite ?O; try assumption.
    rewrite C, R. exact Hc. }
  destruct ev as [id prio | id o | | |]; unfold step.
  - destruct (mem id (submitted s)); [exact Hc|].
    destruct (PQueue.add _ now (queue s)) as [q job'] eqn:E.
    unfold PQueue.add in E.
    pose proof (tryToStartAnother_starts _ _ _ _ E) as Hs.
    pose proof (tryToStartAnother_counts _ _ _ _ E) as Hn.
    exact (Hstart (PQueue.withWaiting (queue s) _) q (optionList job') s
             eq_refl eq_refl eq_refl eq_refl Hs Hn).
  - destruct (mem id (running s)); [| exact Hc].
    destruct (PQueue.next now (queue s)) as [q job'] eqn:E.
    unfold PQueue.next in E.
    pose proof (tryToStartAnother_starts _ _ _ _ E) as Hs.
    pose proof (tryToStartAnother_counts _ _ _ _ E) as Hn.
    apply capped_wake.
    exact (Hstart (PQueue.withPending (queue s) _) q (optionList job') _
             eq_refl eq_refl eq_refl eq_refl Hs Hn).
  - destruct (PQueue.intervalId (queue s)); [| exact Hc].
    destruct (PQueue.intervalFired now (queue s)) as [q jobs] eqn:E.
    pose proof (intervalFired_starts _ _ _ _ E) as Hs.
    pose proof (intervalFired_counts _ _ _ _ Hi E) as [_ Hn].
    apply capped_wake.
    exact (Hstart (queue s) q jobs s eq_refl eq_refl eq_refl eq_refl Hs Hn).
  - destruct (PQueue.timeoutId (queue s)); [| exact Hc].
    destruct (PQueue.onResumeInterval now (queue s)) as [q jobs] eqn:E.
    pose proof (onResumeInterval_starts _ _ _ _ E) as Hs.
    pose proof (onResumeInterval_counts _ _ _ _ Hi E) as [_ Hn].
    apply capped_wake.
    exact (Hstart (queue s) q jobs s eq_refl eq_refl eq_refl eq_refl Hs Hn).
  - exact Hc.
Qed.

Lemma capped_run (schedule : list (Z * Event T)) :
  forall s, 0 <= PQueue.intervalCap (PQueue.options (queue s)) ->
            PQueue.interval (PQueue.options (queue s)) <> 0 ->
            capped s -> capped (run schedule s).
Proof.
  induction schedule as [|[now ev] rest IH]; intros s Hcap Hi Hc; simpl; [exact Hc|].
  apply IH; [now rewrite options_step | now rewrite options_step
            | now apply capped_step].
Qed.

End QueueInvariants.

Section QueueShutdown.

Variable T : Type.
Implicit Types (s : State T).

Lemma Starts_ids (qb q' : PQueue.Queue) jobs x :
  Starts qb q' jobs ->
  In x (map PQueue.jobId (PQueue.waiting q')) \/ In x (map PQueue.jobId jobs) ->
  In x (map PQueue.jobId (PQueue.waiting qb)).
Proof.
  intros (W & _) H. rewrite W, map_app. apply in_or_app. tauto.
Qed.

Lemma running_wake s : running (wake s) = running s.
Proof. unfold wake. now destruct (PQueue.isIdle (queue s)). Qed.

Lemma settled_wake s : settled (wake s) = settled s.
Proof. unfold wake. now destruct (PQueue.isIdle (queue s)). Qed.

Lemma submitted_wake s : submitted (wake s) = submitted s.
Proof. unfold wake. now destruct (PQueue.isIdle (queue s)). Qed.

Lemma queue_wake s : queue (wake s) = queue s.
Proof. unfold wake. now destruct (PQueue.isIdle (queue s)). Qed.

Lemma shutdowns_wake s :
  shutdowns (wake s) = shutdowns s \/
  (PQueue.isIdle (queue (wake s)) = true /\
   shutdowns (wake s) = map (fun _ => true) (shutdowns s)).
Proof.
  unfold wake. destruct (PQueue.isIdle (queue s)) eqn:I; [right | left]; auto.
Qed.

Lemma dropped_step id now (ev : Event T) s : dropped id s -> dropped id (step now ev s).
Proof.
  intros (Hsub & Hq & Hr & Hp). destruct ev as [id' prio | id' o | | |]; unfold step.
  - destruct (mem id' (submitted s)) eqn:M; [repeat split; assumption|].
    assert (Hne : id <> id').
    { intros <-. apply mem_In in Hsub. congruence. }
    destruct (PQueue.add _ now (queue s)) as [q job'] eqn:E.
    unfold PQueue.add in E. apply tryToStartAnother_starts in E.
    assert (Hbase : forall x, In x (map PQueue.jobId (PQueue.waiting q))
                              \/ In x (map PQueue.jobId (optionList job')) ->
                              x = id' \/ In x (queued s)).
    { intros x Hx. pose proof (Starts_ids _ _ _ x E Hx) as Hin.
      cbn [PQueue.waiting PQueue.withWaiting] in Hin.
      apply (Permutation_in _ (Permutation_map PQueue.jobId (enqueue_perm _ _))) in Hin.
      destruct Hin as [<- | Hin]; [now left | now right]. }
    unfold dropped, queued; cbn [queue submitted running settled started].
    repeat split.
    + now right.
    + intros Hin. destruct (Hbase id (or_introl Hin)); [congruence | contradiction].
    + intros Hin. apply in_app_or in Hin. destruct Hin as [Hin | Hin]; [contradiction|].
      destruct (Hbase id (or_intror Hin)); [congruence | contradiction].
    + exact Hp.
  - destruct (mem id' (running s)) eqn:M; [| repeat split; assumption].
    assert (Hne : id <> id').
    { intros <-. apply mem_In in M. contradiction. }
    destruct (PQueue.next now (queue s)) as [q job'] eqn:E.
    unfold PQueue.next in E. apply tryToStartAnother_starts in E.
    unfold dropped, queued.
    rewrite submitted_wake, running_wake, settled_wake, queue_wake.
    cbn [queue submitted running settled started].
    repeat split.
    + exact Hsub.
    + intros Hin. apply Hq. exact (Starts_ids _ _ _ id E (or_introl Hin)).
    + intros Hin. apply in_app_or in Hin. destruct Hin as [Hin | Hin].
      * apply remove_In in Hin. tauto.
      * apply Hq. exact (Starts_ids _ _ _ id E (or_intror Hin)).
    + rewrite promise_cons. destruct (Nat.eqb_spec id id'); [contradiction | exact Hp].
  - destruct (PQueue.intervalId (queue s)); [| repeat split; assumption].
    destruct (PQueue.intervalFired now (queue s)) as [q jobs] eqn:E.
    apply intervalFired_starts in E.
    unfold dropped, queued.
    rewrite submitted_wake, running_wake, settled_wake, queue_wake.
    cbn [queue submitted running settled started].
    repeat split.
    + exact Hsub.
    + intros Hin. apply Hq. exact (Starts_ids _ _ _ id E (or_introl Hin)).
    + intros Hin. apply in_app_or in Hin. destruct Hin as [Hin | Hin]; [contradiction|].
      apply Hq. exact (Starts_ids _ _ _ id E (or_intror Hin)).
    + exact Hp.
  - destruct (PQueue.timeoutId (queue s)); [| repeat split; assumption].
    destruct (PQueue.onResumeInterval now (queue s)) as [q jobs] eqn:E.
    apply onResumeInterval_starts in E.
    unfold dropped, queued.
    rewrite submitted_wake, running_wake, settled_wake, queue_wake.
    cbn [queue submitted running settled started].
    repeat split.
    + exact Hsub.
    + intros Hin. apply Hq. exact (Starts_ids _ _ _ id E (or_introl Hin)).
    + intros Hin. apply in_app_or in Hin. destruct Hin as [Hin | Hin]; [contradiction|].
      apply Hq. exact (Starts_ids _ _ _ id E (or_intror Hin)).
    + exact Hp.
  - unfold dropped, queued;
      cbn [queue submitted running settled PQueue.clear PQueue.withWaiting
           PQueue.waiting].
    repeat split; try assumption. simpl. tauto.
Qed.

Lemma dropped_run id (schedule : list (Z * Event T)) :
  forall s, dropped id s -> dropped id (run schedule s).
Proof.
  induction schedule as [|[now ev] rest IH]; intros s H; simpl; [exact H|].
  apply IH. now apply dropped_step.
Qed.

(** [shutdown()] empties the waiting list; what waited is dropped. *)
Lemma shutdown_drops now s id :
  accounted s -> In id (queued s) ->
  queued (step now Shutdown s) = [] /\ dropped id (step now Shutdown s).
Proof.
  intros (Hnd & Hin & Hp & Hs) Hq. unfold queued in Hq.
  split; [reflexivity|].
  unfold dropped, queued;
    cbn [step queue submitted running settled PQueue.clear PQueue.withWaiting
         PQueue.waiting].
  destruct (Hin id (in_or_app _ _ _ (or_introl Hq))) as [Hsub Hnone].
  repeat split; try assumption.
  - simpl. tauto.
  - intros Hr. exact (NoDup_app_disjoint _ _ id Hnd Hq Hr).
Qed.

(** A task stays running or settled once it runs. *)
Lemma running_or_settled_step id now (ev : Event T) s :
  In id (running s) \/ promise id (settled s) <> None ->
  In id (running (step now ev s)) \/ promise id (settled (step now ev s)) <> None.
Proof.
  intros H. destruct ev as [id' prio | id' o | | |]; unfold step.
  - destruct (mem id' (submitted s)); [exact H|].
    destruct (PQueue.add _ now (queue s)) as [q job'].
    cbn [running settled started]. destruct H as [H | H]; [left | right; exact H].
    apply in_or_app. now left.
  - destruct (mem id' (running s)); [| exact H].
    destruct (PQueue.next now (queue s)) as [q job'].
    rewrite running_wake, settled_wake. cbn [running settled started].
    rewrite promise_cons. destruct (Nat.eqb_spec id id') as [-> | Hne].
    + right. discriminate.
    + destruct H as [H | H]; [left | right; exact H].
      apply in_or_app. left. apply remove_In. tauto.
  - destruct (PQueue.intervalId (queue s)); [| exact H].
    destruct (PQueue.intervalFired now (queue s)) as [q jobs].
    rewrite running_wake, settled_wake. cbn [running settled started].
    destruct H as [H | H]; [left | right; exact H].
    apply in_or_app. now left.
  - destruct (PQueue.timeoutId (queue s)); [| exact H].
    destruct (PQueue.onResumeInterval now (queue s)) as [q jobs].
    rewrite running_wake, settled_wake. cbn [running settled started].
    destruct H as [H | H]; [left | right; exact H].
    apply in_or_app. now left.
  - exact H.
Qed.

Lemma idle_nothing_runs s :
  accounted s -> PQueue.isIdle (queue s) = true -> running s = [].
Proof.
  intros (_ & _ & Hp & _) I. unfold PQueue.isIdle in I.
  apply andb_true_iff in I. destruct I as [I _]. apply Z.eqb_eq in I.
  rewrite I in Hp. destruct (running s); [reflexivity | simpl in Hp; lia].
Qed.

Lemma shutdowns_step now (ev : Event T) s :
  shutdowns (step now ev s) = shutdowns s \/
  (PQueue.isIdle (queue (step now ev s)) = true /\
   shutdowns (step now ev s) = map (fun _ => true) (shutdowns s)) \/
  (exists b, shutdowns (step now ev s) = shutdowns s ++ [b]).
Proof.
  destruct ev as [id' prio | id' o | | |]; unfold step.
  - destruct (mem id' (submitted s)); [now left|].
    destruct (PQueue.add _ now (queue s)) as [q job']. now left.
  - destruct (mem id' (running s)); [| now left].
    destruct (PQueue.next now (queue s)) as [q job'].
    match goal with
    | |- context [wake ?x] => destruct (shutdowns_wake x) as [H | H]
    end; [left | right; left]; exact H.
  - destruct (PQueue.intervalId (queue s)); [| now left].
    destruct (PQueue.intervalFired now (queue s)) as [q jobs].
    match goal with
    | |- context [wake ?x] => destruct (shutdowns_wake x) as [H | H]
    end; [left | right; left]; exact H.
  - destruct (PQueue.timeoutId (queue s)); [| now left].
    destruct (PQueue.onResumeInterval now (queue s)) as [q jobs].
    match goal with
    | |- context [wake ?x] => destruct (shutdowns_wake x) as [H | H]
    end; [left | right; left]; exact H.
  - right; right. eexists. reflexivity.
Qed.

Lemma settled_step_mono id now (ev : Event T) s :
  promise id (settled s) <> None -> promise id (settled (step now ev s)) <> None.
Proof.
  intros H. destruct ev as [id' prio | id' o | | |]; unfold step.
  - destruct (mem id' (submitted s)); [exact H|].
    destruct (PQueue.add _ now (queue s)) as [q job']. exact H.
  - destruct (mem id' (running s)); [| exact H].
    destruct (PQueue.next now (queue s)) as [q job'].
    rewrite settled_wake. cbn [settled started]. rewrite promise_cons.
    destruct (Nat.eqb id id'); [discriminate | exact H].
  - destruct (PQueue.intervalId (queue s)); [| exact H].
    destruct (PQueue.intervalFired now (queue s)) as [q jobs].
    rewrite settled_wake. exact H.
  - destruct (PQueue.timeoutId (queue s)); [| exact H].
    destruct (PQueue.onResumeInterval now (queue s)) as [q jobs].
    rewrite settled_wake. exact H.
  - exact H.
Qed.

Lemma nth_all_true (n : nat) (l : list bool) :
  (n < List.length l)%nat -> nth n (map (fun _ => true) l) false = true.
Proof.
  revert n. induction l as [|b l IH]; intros n Hn; simpl in *; [lia|].
  destruct n; [reflexivity | apply IH; lia].
Qed.

Lemma drained_step n active now (ev : Event T) s :
  drained n active s -> drained n active (step now ev s).
Proof.
  intros (Ha & Hn & Hrs & Hret).
  pose proof (accounted_step T now ev s Ha) as Ha'.
  assert (Hrs' : forall id, In id active ->
            In id (running (step now ev s))
            \/ promise id (settled (step now ev s)) <> None)
    by (intros id Hid; apply running_or_settled_step; now apply Hrs).
  split; [exact Ha'|].
  destruct (shutdowns_step now ev s) as [E | [[I E] | [b E]]]; rewrite E.
  - split; [exact Hn|]. split; [exact Hrs'|].
    intros Hr id Hid. apply settled_step_mono. now apply Hret.
  - split; [now rewrite length_map|]. split; [exact Hrs'|].
    intros _ id Hid.
    pose proof (idle_nothing_runs _ Ha' I) as Hnone.
    destruct (Hrs' id Hid) as [Hx | Hx]; [| exact Hx].
    rewrite Hnone in Hx. now elim Hx.
  - split; [rewrite length_app; simpl; lia|]. split; [exact Hrs'|].
    rewrite app_nth1 by exact Hn.
    intros Hr id Hid. apply settled_step_mono. now apply Hret.
Qed.

Lemma drained_run n active (schedule : list (Z * Event T)) :
  forall s, drained n active s -> drained n active (run schedule s).
Proof.
  induction schedule as [|[now ev] rest IH]; intros s H; simpl; [exact H|].
  apply IH. now apply drained_step.
Qed.

(** From a call of [shutdown] on, the call is waiting for the tasks that ran
    when it was made. *)
Lemma shutdown_drained now s :
  accounted s ->
  drained (List.length (shutdowns s)) (running s) (step now Shutdown s).
Proof.
  intros Ha. pose proof (accounted_step T now Shutdown s Ha) as Ha'.
  split; [exact Ha'|]. cbn [step shutdowns running settled].
  split; [rewrite length_app; simpl; lia|].
  split; [intros id Hid; now left|].
  rewrite nth_middle. intros I id Hid.
  pose proof (idle_nothing_runs (step now Shutdown s) Ha' I) as Hnone.
  cbn [step running] in Hnone. rewrite Hnone in Hid. now elim Hid.
Qed.

End QueueShutdown.

Section QueueClock.

Variable T : Type.
Implicit Types (s : State T).

(** The clock facts look at the count's resets and at the timers only. *)
Lemma Timed_ext W clock since (q q' : PQueue.Queue) adm :
  PQueue.resets q' = PQueue.resets q ->
  PQueue.intervalEnd q' = PQueue.intervalEnd q ->
  PQueue.intervalId q' = PQueue.intervalId q ->
  PQueue.timeoutId q' = PQueue.timeoutId q ->
  Timed W clock since q adm -> Timed W clock since q' adm.
Proof. unfold Timed. intros -> -> -> ->. tauto. Qed.

Lemma Timed_advance W clock now since (q : PQueue.Queue) adm :
  Timed W clock since q adm -> clock <= now ->
  (forall firing, PQueue.intervalId q = Some firing -> now <= firing) ->
  (forall firing, PQueue.timeoutId q = Some firing -> now <= firing) ->
  Timed W now since q adm.
Proof.
  intros (H1 & H2 & H3 & H4 & H5 & H6 & H7) Hle Hf Hg.
  split; [| split; [exact H2 | split; [lia | split; [lia | split; [| split; [| exact H7]]]]]].
  - intros a Ha. destruct (H1 a Ha). split; [assumption | lia].
  - destruct (PQueue.intervalId q) as [f|]; [| exact H5].
    specialize (Hf f eq_refl). lia.
  - destruct (PQueue.timeoutId q) as [g|]; [| exact I].
    destruct H6 as (A & B & C). specialize (Hg g eq_refl). repeat split; auto.
Qed.

(** A start is within [W] of the starts it is counted with. *)
Lemma Timed_admit W now since (q : PQueue.Queue) adm id :
  0 <= W -> Timed W now since q adm ->
  (forall b, In b adm -> epoch b = PQueue.resets q -> now - at_ b <= W) ->
  Timed W now since q
    ({| at_ := now; task := id; epoch := PQueue.resets q |} :: adm).
Proof.
  intros HW (H1 & H2 & H3 & H4 & H5 & H6 & H7) Hold.
  split; [| split; [| split; [exact H3 | split; [exact H4
                   | split; [exact H5 | split; [exact H6 |]]]]]].
  - intros a [<- | Ha]; [cbn; split; lia | now apply H1].
  - intros a [<- | Ha] He; [cbn; exact H3 | now apply H2].
  - intros a b [<- | Ha] [<- | Hb] Hab; cbn [at_ epoch] in *.
    + lia.
    + symmetry in Hab. now apply Hold.
    + destruct (H1 a Ha). lia.
    + now apply H7.
Qed.

(** Setting the count back at [now] starts a new stretch of counting. *)
Lemma Timed_reset W now since (q q' : PQueue.Queue) adm :
  Timed W now since q adm ->
  PQueue.resets q' = S (PQueue.resets q) ->
  PQueue.intervalEnd q' = PQueue.intervalEnd q ->
  PQueue.timeoutId q' = PQueue.timeoutId q ->
  match PQueue.intervalId q' with
  | Some firing =>
      firing - W <= now <= firing /\ PQueue.intervalEnd q <= firing /\
      PQueue.timeoutId q = None
  | None => True
  end ->
  Timed W now now q' adm.
Proof.
  intros (H1 & H2 & H3 & H4 & H5 & H6 & H7) R E Tm Hid. unfold Timed.
  rewrite R, E, Tm.
  split; [| split; [| split; [lia | split; [exact H4 | split; [| split; [| exact H7]]]]]].
  - intros a Ha. destruct (H1 a Ha). split; [lia | assumption].
  - intros a Ha He. destruct (H1 a Ha). lia.
  - destruct (PQueue.intervalId q') as [f|]; [lia | exact H4].
  - destruct (PQueue.intervalId q') as [f|].
    + destruct Hid as (_ & _ & ->). exact I.
    + destruct (PQueue.timeoutId q) as [g|]; [| exact I].
      destruct H6 as (_ & B & C). auto.
Qed.

(** Stopping the interval timer keeps the clock facts. *)
Lemma Timed_clear W now since (q : PQueue.Queue) adm :
  Timed W now since q adm -> Timed W now since (PQueue.withIntervalId q None) adm.
Proof.
  intros (H1 & H2 & H3 & H4 & H5 & H6 & H7). unfold Timed.
  cbn [PQueue.withIntervalId PQueue.resets PQueue.intervalEnd PQueue.intervalId
       PQueue.timeoutId].
  split; [exact H1 | split; [exact H2 | split; [exact H3 | split; [exact H4
    | split; [| split; [| exact H7]]]]]].
  - destruct (PQueue.intervalId q) as [f|]; [lia | exact H5].
  - destruct (PQueue.timeoutId q) as [g|]; [| exact I].
    destruct H6 as (_ & B & C). auto.
Qed.

(** Arming the interval timer right after a reset keeps them too. *)
Lemma Timed_init W now (q q' : PQueue.Queue) adm :
  0 <= W -> Timed W now now q adm ->
  PQueue.resets q' = PQueue.resets q ->
  PQueue.intervalEnd q' = now + W ->
  PQueue.intervalId q' = Some (now + W) ->
  PQueue.timeoutId q' = None ->
  Timed W now now q' adm.
Proof.
  intros HW (H1 & H2 & H3 & H4 & H5 & H6 & H7) R E Id Tm. unfold Timed.
  rewrite R, E, Id, Tm.
  split; [exact H1 | split; [exact H2 | split; [exact H3 | split; [lia
    | split; [lia | split; [exact I | exact H7]]]]]].
Qed.

Lemma Timed_try W now since (q q' : PQueue.Queue) (o : option PQueue.Job) adm :
  0 < W -> PQueue.interval (PQueue.options q) = W ->
  Timed W now since q adm ->
  PQueue.tryToStartAnother now q = (q', o) ->
  exists since',
    since <= since' /\
    Timed W now since' q'
      (rev (map (fun j => {| at_ := now; task := PQueue.jobId j;
                             epoch := PQueue.resets q' |}) (optionList o)) ++ adm).
Proof.
  intros HW Hi Ht. unfold PQueue.tryToStartAnother.
  destruct (PQueue.waiting q) as [|job rest].
  { intros [= <- <-]. exists since. split; [lia|]. now apply Timed_clear. }
  destruct (PQueue.isIntervalPaused now q) as [q1 paused] eqn:P.
  assert (Hq1 : exists since1,
            since <= since1 /\ Timed W now since1 q1 adm /\
            PQueue.options q1 = PQueue.options q /\
            (forall b, In b adm -> epoch b = PQueue.resets q1 -> now - at_ b <= W) /\
            (paused = false ->
             PQueue.intervalId q1 <> None \/
             (PQueue.intervalId q1 = None /\ since1 = now /\
              PQueue.timeoutId q1 = None))).
  { pose proof Ht as (H1 & H2 & H3 & H4 & H5 & H6 & H7).
    unfold PQueue.isIntervalPaused in P. cbv zeta in P.
    destruct (PQueue.intervalId q) as [f|] eqn:Id.
    - injection P as <- <-. exists since.
      split; [lia|]. split; [exact Ht|]. split; [reflexivity|]. split.
      + intros b Hb He. specialize (H2 b Hb He). lia.
      + intros _. left. congruence.
    - destruct (Z.ltb_spec (PQueue.intervalEnd q - now) 0) as [Hlt | Hge].
      + injection P as <- <-. exists now.
        assert (Tm : PQueue.timeoutId q = None).
        { destruct (PQueue.timeoutId q) as [g|]; [| reflexivity].
          destruct H6 as (_ & B & C). lia. }
        split; [exact H3|]. split.
        { apply (Timed_reset W now since q);
            [exact Ht | reflexivity | reflexivity | reflexivity |].
          cbn [PQueue.resetCount PQueue.intervalId]. now rewrite Id. }
        split; [reflexivity|]. split.
        * intros b Hb He. cbn [PQueue.resetCount PQueue.resets] in He.
          destruct (H1 b Hb). lia.
        * intros _. right. cbn [PQueue.resetCount PQueue.intervalId PQueue.timeoutId].
          auto.
      + assert (Hold : forall b, In b adm -> epoch b = PQueue.resets q ->
                                 now - at_ b <= W).
        { intros b Hb He. specialize (H2 b Hb He). lia. }
        destruct (PQueue.timeoutId q) as [g|] eqn:Tm; injection P as <- <-;
          exists since.
        * split; [lia|]. split; [exact Ht|]. split; [reflexivity|].
          split; [exact Hold | discriminate].
        * split; [lia|]. split; [| split; [reflexivity | split; [exact Hold | discriminate]]].
          unfold Timed.
          cbn [PQueue.withTimeoutId PQueue.resets PQueue.intervalEnd
               PQueue.intervalId PQueue.timeoutId].
          rewrite Id.
          split; [exact H1 | split; [exact H2 | split; [exact H3 | split; [exact H4
            | split; [exact H5 | split; [| exact H7]]]]]].
          repeat split; lia. }
  destruct Hq1 as (since1 & Hs1 & Ht1 & O1 & Hold & Hnp).
  destruct (PQueue.mayStart q1).
  - set (q2 := PQueue.Build_Queue _ _ _ _ _ _ _ _).
    assert (Ht2 : Timed W now since1 q2
                    ({| at_ := now; task := PQueue.jobId job;
                        epoch := PQueue.resets q2 |} :: adm)).
    { apply (Timed_ext W now since1 q1 q2); try reflexivity.
      change (PQueue.resets q2) with (PQueue.resets q1).
      apply Timed_admit; [lia | exact Ht1 | exact Hold]. }
    destruct paused.
    + intros [= <- <-]. exists since1. split; [exact Hs1 | exact Ht2].
    + intros [= <- <-]. exists since1. split; [exact Hs1|].
      cbn [optionList map rev app].
      unfold PQueue.initializeIntervalIfNeeded.
      assert (Hig : PQueue.isIntervalIgnored q2 = false).
      { unfold PQueue.isIntervalIgnored. subst q2. cbn [PQueue.options].
        rewrite O1, Hi. apply Z.eqb_neq. lia. }
      rewrite Hig.
      destruct (PQueue.intervalId q2) as [f|] eqn:Id2; [exact Ht2|].
      destruct (Hnp eq_refl) as [Hsome | (_ & -> & Tm1)];
        [subst q2; cbn [PQueue.intervalId] in Id2; congruence|].
      cbn [PQueue.resets].
      apply (Timed_init W now q2); try reflexivity; [lia | exact Ht2 | | | exact Tm1].
      * cbn [PQueue.intervalEnd]. subst q2. cbn [PQueue.options]. now rewrite O1, Hi.
      * cbn [PQueue.intervalId]. subst q2. cbn [PQueue.options]. now rewrite O1, Hi.
  - intros [= <- <-]. exists since1. split; [exact Hs1 | exact Ht1].
Qed.

Lemma Timed_process W now (fuel : nat) :
  forall since (q q' : PQueue.Queue) jobs adm,
    0 < W -> PQueue.interval (PQueue.options q) = W ->
    Timed W now since q adm ->
    PQueue.processQueue fuel now q = (q', jobs) ->
    exists since',
      since <= since' /\
      Timed W now since' q'
        (rev (map (fun j => {| at_ := now; task := PQueue.jobId j;
                               epoch := PQueue.resets q' |}) jobs) ++ adm).
Proof.
  induction fuel as [|fuel IH]; intros since q q' jobs adm HW Hi Ht; simpl.
  - intros [= <- <-]. exists since. split; [lia | exact Ht].
  - destruct (PQueue.tryToStartAnother now q) as [q1 [job|]] eqn:E.
    + destruct (PQueue.processQueue fuel now q1) as [q2 js] eqn:E2.
      intros [= <- <-].
      destruct (Timed_try W now since q q1 (Some job) adm HW Hi Ht E)
        as (since1 & Hs1 & Ht1).
      pose proof (tryToStartAnother_starts _ _ _ _ E) as (_ & _ & O1).
      assert (Hi1 : PQueue.interval (PQueue.options q1) = W) by now rewrite O1.
      assert (Hne : PQueue.interval (PQueue.options q) <> 0) by lia.
      assert (Hne1 : PQueue.interval (PQueue.options q1) <> 0) by lia.
      destruct (processQueue_settled now fuel q1 q2 js Hne1
                  (tryToStartAnother_settles _ _ _ _ Hne E) E2) as (R2 & _).
      destruct (IH since1 q1 q2 js _ HW Hi1 Ht1 E2) as (since2 & Hs2 & Ht2).
      exists since2. split; [lia|].
      cbn [optionList map rev app] in Ht2. cbn [map rev].
      rewrite <- app_assoc. cbn [app]. rewrite <- R2 in Ht2. exact Ht2.
    + intros [= <- <-].
      exact (Timed_try W now since q q1 None adm HW Hi Ht E).
Qed.

(** Once the count is set back at [now], what [onInterval] starts is counted
    from [now]. *)
Lemma Timed_restart W now (fuel : nat) (q q' : PQueue.Queue) jobs adm :
  0 < W -> PQueue.interval (PQueue.options q) = W ->
  Timed W now now q adm ->
  PQueue.processQueue fuel now q = (q', jobs) ->
  Timed W now now q'
    (rev (map (fun j => {| at_ := now; task := PQueue.jobId j;
                           epoch := PQueue.resets q' |}) jobs) ++ adm).
Proof.
  intros HW Hi Ht E.
  destruct (Timed_process W now fuel now q q' jobs adm HW Hi Ht E)
    as (since' & Hs & Ht').
  assert (since' = now) by (destruct Ht' as (_ & _ & H3 & _); lia).
  now subst since'.
Qed.

Lemma Timed_onInterval W now since (q q' : PQueue.Queue) jobs adm :
  0 < W -> PQueue.interval (PQueue.options q) = W ->
  Timed W now since q adm ->
  PQueue.onInterval now q = (q', jobs) ->
  Timed W now now q'
    (rev (map (fun j => {| at_ := now; task := PQueue.jobId j;
                           epoch := PQueue.resets q' |}) jobs) ++ adm).
Proof.
  intros HW Hi Ht. unfold PQueue.onInterval.
  pose proof Ht as (H1 & H2 & H3 & H4 & H5 & H6 & H7).
  destruct ((PQueue.intervalCount q =? 0) && (PQueue.pending q =? 0)).
  - apply Timed_restart; [exact HW | exact Hi |].
    apply (Timed_reset W now since q);
      [exact Ht | reflexivity | reflexivity | reflexivity | exact I].
  - apply Timed_restart; [exact HW | exact Hi |].
    apply (Timed_reset W now since q);
      [exact Ht | reflexivity | reflexivity | reflexivity |].
    cbn [PQueue.resetCount PQueue.intervalId].
    destruct (PQueue.intervalId q) as [f|]; [| exact I].
    destruct (PQueue.timeoutId q) as [g|];
      [destruct H6 as (A & _); discriminate|].
    repeat split; lia.
Qed.

Lemma Timed_intervalFired W now since (q q' : PQueue.Queue) jobs adm :
  0 < W -> PQueue.interval (PQueue.options q) = W ->
  Timed W now since q adm -> PQueue.intervalId q <> None ->
  PQueue.intervalFired now q = (q', jobs) ->
  Timed W now now q'
    (rev (map (fun j => {| at_ := now; task := PQueue.jobId j;
                           epoch := PQueue.resets q' |}) jobs) ++ adm).
Proof.
  intros HW Hi Ht Hid. unfold PQueue.intervalFired, PQueue.onInterval.
  pose proof Ht as (H1 & H2 & H3 & H4 & H5 & H6 & H7).
  assert (Tm : PQueue.timeoutId q = None).
  { destruct (PQueue.timeoutId q) as [g|]; [| reflexivity].
    destruct H6 as (A & _). contradiction. }
  cbn [PQueue.withIntervalId PQueue.intervalCount PQueue.pending PQueue.waiting].
  destruct ((PQueue.intervalCount q =? 0) && (PQueue.pending q =? 0)).
  - apply Timed_restart; [exact HW | exact Hi |].
    apply (Timed_reset W now since q);
      [exact Ht | reflexivity | reflexivity | reflexivity | exact I].
  - apply Timed_restart; [exact HW | exact Hi |].
    apply (Timed_reset W now since q);
      [exact Ht | reflexivity | reflexivity | reflexivity |].
    cbn [PQueue.resetCount PQueue.withIntervalId PQueue.intervalId].
    rewrite Hi. repeat split; [lia | lia | lia | exact Tm].
Qed.

Lemma Timed_onResumeInterval W now since (q q' : PQueue.Queue) jobs adm :
  0 < W -> PQueue.interval (PQueue.options q) = W ->
  Timed W now since q adm ->
  PQueue.onResumeInterval now q = (q', jobs) ->
  Timed W now now q'
    (rev (map (fun j => {| at_ := now; task := PQueue.jobId j;
                           epoch := PQueue.resets q' |}) jobs) ++ adm).
Proof.
  intros HW Hi Ht. unfold PQueue.onResumeInterval.
  destruct (PQueue.onInterval now q) as [q1 js] eqn:E. intros [= <- <-].
  pose proof (onInterval_starts _ _ _ _ E) as (_ & _ & O1).
  pose proof (Timed_onInterval W now since q q1 js adm HW Hi Ht E) as Ht1.
  destruct (initializeIntervalIfNeeded_frame now q1) as (_ & _ & _ & _ & Ri & _).
  cbn [PQueue.withTimeoutId PQueue.resets]. rewrite Ri.
  revert Ht1.
  generalize (rev (map (fun j => {| at_ := now; task := PQueue.jobId j;
                                    epoch := PQueue.resets q1 |}) js) ++ adm).
  intros adm1 Ht1.
  unfold PQueue.initializeIntervalIfNeeded.
  assert (Hig : PQueue.isIntervalIgnored q1 = false).
  { unfold PQueue.isIntervalIgnored. rewrite O1, Hi. apply Z.eqb_neq. lia. }
  rewrite Hig.
  destruct (PQueue.intervalId q1) as [f|] eqn:Id1.
  - destruct Ht1 as (H1 & H2 & H3 & H4 & H5 & H6 & H7). unfold Timed.
    cbn [PQueue.withTimeoutId PQueue.resets PQueue.intervalEnd PQueue.intervalId
         PQueue.timeoutId].
    rewrite Id1 in *.
    split; [exact H1 | split; [exact H2 | split; [exact H3 | split; [exact H4
      | split; [exact H5 | split; [exact I | exact H7]]]]]].
  - apply (Timed_init W now q1); try reflexivity; [lia | exact Ht1 | |].
    + cbn [PQueue.withTimeoutId PQueue.intervalEnd]. now rewrite O1, Hi.
    + cbn [PQueue.withTimeoutId PQueue.intervalId]. now rewrite O1, Hi.
Qed.

Lemma timed_wake clock s : timed clock s -> timed clock (wake s).
Proof. unfold wake. now destruct (PQueue.isIdle (queue s)). Qed.

(** One timely event keeps the clock facts. *)
Lemma timed_step clock now (ev : Event T) s :
  0 < PQueue.interval (PQueue.options (queue s)) ->
  timed clock s -> clock <= now ->
  match PQueue.intervalId (queue s) with
  | Some firing =>
      match ev with IntervalTick => now = firing | _ => now <= firing end
  | None => True
  end ->
  match PQueue.timeoutId (queue s) with
  | Some firing =>
      match ev with ResumeTick => now = firing | _ => now <= firing end
  | None => True
  end ->
  timed now (step now ev s).
Proof.
  intros HW [since Ht] Hle Hf Hg.
  assert (Hnow : Timed (PQueue.interval (PQueue.options (queue s))) now since
                   (queue s) (admissions s)).
  { apply (Timed_advance _ clock); [exact Ht | exact Hle | |].
    - intros f Hid. rewrite Hid in Hf. destruct ev; lia.
    - intros g Hid. rewrite Hid in Hg. destruct ev; lia. }
  clear Ht. unfold timed.
  destruct ev as [id prio | id o | | |]; unfold step.
  - destruct (mem id (submitted s)); [now exists since|].
    destruct (PQueue.add _ now (queue s)) as [q job'] eqn:E.
    unfold PQueue.add in E.
    pose proof (tryToStartAnother_starts _ _ _ _ E) as (_ & _ & O).
    destruct (Timed_try _ now since (PQueue.withWaiting (queue s) _) q job'
                (admissions s) HW eq_refl Hnow E)
      as (since' & _ & Ht').
    exists since'. cbn [queue admissions started]. rewrite O. exact Ht'.
  - destruct (mem id (running s)); [| now exists since].
    destruct (PQueue.next now (queue s)) as [q job'] eqn:E.
    unfold PQueue.next in E.
    pose proof (tryToStartAnother_starts _ _ _ _ E) as (_ & _ & O).
    destruct (Timed_try _ now since (PQueue.withPending (queue s) _) q job'
                (admissions s) HW eq_refl Hnow E)
      as (since' & _ & Ht').
    apply timed_wake.
    exists since'. cbn [queue admissions started]. rewrite O. exact Ht'.
  - destruct (PQueue.intervalId (queue s)) as [f|] eqn:Id; [| now exists since].
    destruct (PQueue.intervalFired now (queue s)) as [q jobs] eqn:E.
    pose proof (intervalFired_starts _ _ _ _ E) as (_ & _ & O).
    apply timed_wake.
    exists now. cbn [queue admissions started]. rewrite O.
    apply (Timed_intervalFired _ now since (queue s)); try assumption;
      [reflexivity | congruence].
  - destruct (PQueue.timeoutId (queue s)) as [g|] eqn:Id; [| now exists since].
    destruct (PQueue.onResumeInterval now (queue s)) as [q jobs] eqn:E.
    pose proof (onResumeInterval_starts _ _ _ _ E) as (_ & _ & O).
    apply timed_wake.
    exists now. cbn [queue admissions started]. rewrite O.
    apply (Timed_onResumeInterval _ now since (queue s)); try assumption.
    reflexivity.
  - now exists since.
Qed.

Lemma timed_run (schedule : list (Z * Event T)) :
  forall clock s,
    0 < PQueue.interval (PQueue.options (queue s)) ->
    timed clock s -> timely clock schedule s = true ->
    exists clock', timed clock' (run schedule s).
Proof.
  induction schedule as [|[now ev] rest IH]; intros clock s HW Ht Hs; simpl.
  - now exists clock.
  - simpl in Hs. apply andb_true_iff in Hs. destruct Hs as [Hs Hrest].
    apply andb_true_iff in Hs. destruct Hs as [Hs Hg].
    apply andb_true_iff in Hs. destruct Hs as [Hle Hf]. apply Z.leb_le in Hle.
    apply (IH now).
    + now rewrite options_step.
    + apply (timed_step clock); [exact HW | exact Ht | exact Hle | |].
      * destruct (PQueue.intervalId (queue s)) as [f|]; [| exact I].
        destruct ev; try (now apply Z.leb_le); now apply Z.eqb_eq.
      * destruct (PQueue.timeoutId (queue s)) as [g|]; [| exact I].
        destruct ev; try (now apply Z.leb_le); now apply Z.eqb_eq.
    + exact Hrest.
Qed.

Lemma timed_create cfg clock : 0 <= clock -> timed clock (create T cfg).
Proof.
  intros Hc. exists clock. unfold Timed; cbn.
  repeat split; try lia; intros; contradiction.
Qed.

End QueueClock.

(** A start attempt sets the count back only with the interval timer stopped
    and the last interval over. *)
Lemma tryToStartAnother_resets now (q q' : PQueue.Queue) (o : option PQueue.Job) :
  PQueue.tryToStartAnother now q = (q', o) ->
  PQueue.resets q' = PQueue.resets q \/
  (PQueue.intervalId q = None /\ PQueue.intervalEnd q < now).
Proof.
  unfold PQueue.tryToStartAnother.
  destruct (PQueue.waiting q) as [|job rest]; [intros [= <- _]; now left|].
  destruct (PQueue.isIntervalPaused now q) as [q1 paused] eqn:P.
  destruct (isIntervalPaused_count _ _ _ _ P) as [[R _] | (_ & _ & Id & Hend & _)];
    [| intros _; now right].
  intros E. left. revert E.
  destruct (PQueue.mayStart q1); [| intros [= <- _]; exact R].
  destruct paused; intros [= <- _]; [exact R|].
  set (q2 := PQueue.Build_Queue _ _ _ _ _ _ _ _).
  destruct (initializeIntervalIfNeeded_frame now q2) as (_ & _ & _ & _ & Ri & _).
  rewrite Ri. exact R.
Qed.

(** The interval count is set back when the interval timer or the timeout
    fires, or when a start attempt finds the timer stopped and the last
    interval over, and at no other time. *)
Lemma resets_step (T : Type) now (ev : Event T) (s : State T) :
  resets (step now ev s) <> resets s ->
  (ev = IntervalTick /\ PQueue.intervalId (queue s) <> None) \/
  (ev = ResumeTick /\ PQueue.timeoutId (queue s) <> None) \/
  (PQueue.intervalId (queue s) = None /\ PQueue.intervalEnd (queue s) < now).
Proof.
  unfold resets. destruct ev as [id prio | id o | | |]; unfold step.
  - destruct (mem id (submitted s)); [intros H; now elim H|].
    destruct (PQueue.add _ now (queue s)) as [q job'] eqn:E.
    unfold PQueue.add in E. apply tryToStartAnother_resets in E.
    cbn [queue started]. intros Hne. destruct E as [E | E]; [now elim Hne|].
    right; right. exact E.
  - destruct (mem id (running s)); [| intros H; now elim H].
    destruct (PQueue.next now (queue s)) as [q job'] eqn:E.
    unfold PQueue.next in E. apply tryToStartAnother_resets in E.
    rewrite queue_wake. cbn [queue started].
    intros Hne. destruct E as [E | E]; [now elim Hne|].
    right; right. exact E.
  - destruct (PQueue.intervalId (queue s)); [| intros H; now elim H].
    intros _. left. split; [reflexivity | discriminate].
  - destruct (PQueue.timeoutId (queue s)); [| intros H; now elim H].
    intros _. right; left. split; [reflexivity | discriminate].
  - cbn [queue PQueue.clear PQueue.withWaiting PQueue.resets].
    intros H; now elim H.
Qed.

(** What the constructor accepts. *)
Lemma construct_create (T : Type) (cfg : Config) (s0 : State T) :
  construct T cfg = Some s0 ->
  s0 = create T cfg /\ 1 <= rateLimitPerMinute cfg /\ 1 <= concurrency cfg.
Proof.
  unfold construct, PQueue.construct, queueOptions.
  cbn [PQueue.intervalCap PQueue.interval PQueue.concurrency].
  destruct (Z.leb_spec 1 (rateLimitPerMinute cfg)); cbn [andb]; [| discriminate].
  destruct (Z.leb_spec 1 (concurrency cfg)); cbn [andb]; [| discriminate].
  intros [= <-]. auto.
Qed.

(** C2, as stated, fails: with a cap of 2 per minute, task 1 is started at
    1000 ms, which opens an interval that ends at 61000 ms, and finishes; the
    queue being empty, the interval timer is stopped.  Task 2 is started at
    60999 ms and counted with task 1; task 3 has to wait.  At 61000 ms the
    timeout set for the interval's end fires, the count is set back and task 3
    is started, and so is task 4, added in the same millisecond.  The window
    of the last two milliseconds, and so the trailing minute, sees three
    starts.  The schedule respects the clock. *)
Lemma sliding_window_sees_more_than_cap :
  let cfg := {| concurrency := 5; rateLimitPerMinute := 2 |} in
  let schedule : list (Z * Event unit) :=
    [ (1000, Add 1 None); (1010, Finish 1 (Js.Resolved tt));
      (60999, Add 2 None); (60999, Add 3 None);
      (61000, ResumeTick); (61000, Add 4 None) ] in
  let s := run schedule (create unit cfg) in
  construct unit cfg = Some (create unit cfg) /\
  timely 0 schedule (create unit cfg) = true /\
  map (fun a => (at_ a, task a)) (admissions s)
  = [(61000, 4%nat); (61000, 3%nat); (60999, 2%nat); (1000, 1%nat)] /\
  admittedWithin 60998 61000 s = 3%nat /\
  admittedWithin (61000 - 60000) 61000 s = 3%nat /\
  rateLimitPerMinute cfg = 2 /\
  rateLimitPerMinute cfg < Z.of_nat (admittedWithin (61000 - 60000) 61000 s).
Proof. cbv zeta. repeat split. Qed.

(** C2, amended: starts are capped per stretch of counting, not per sliding
    window.  For a queue that could be constructed, in every history: the
    starts between two consecutive resets of the interval count number at most
    [rateLimitPerMinute]; the count equals the starts since the last reset;
    the count is set back when p-queue's interval timer or its timeout fires,
    or when a start attempt finds the timer stopped and the last interval
    over, and at no other time; and when the history respects the clock,
    starts counted together lie at most 60000 ms apart. *)
Theorem admissions_capped_between_resets
  (T : Type) (cfg : Config) (s0 : State T) (schedule : list (Z * Event T)) :
  construct T cfg = Some s0 ->
  let s := run schedule s0 in
  (forall e, Z.of_nat (admittedInEpoch e s) <= rateLimitPerMinute cfg) /\
  PQueue.intervalCount (queue s) = Z.of_nat (admittedInEpoch (resets s) s) /\
  (forall a, In a (admissions s) -> (epoch a <= resets s)%nat) /\
  (forall now ev,
     resets (step now ev s) <> resets s ->
     (ev = IntervalTick /\ PQueue.intervalId (queue s) <> None) \/
     (ev = ResumeTick /\ PQueue.timeoutId (queue s) <> None) \/
     (PQueue.intervalId (queue s) = None /\ PQueue.intervalEnd (queue s) < now)) /\
  (timely 0 schedule s0 = true ->
   forall a b, In a (admissions s) -> In b (admissions s) ->
               epoch a = epoch b -> at_ a - at_ b <= 60000).
Proof.
  intros Hc s. destruct (construct_create T cfg s0 Hc) as (-> & Hcap & _).
  assert (Hcapped : capped s).
  { apply capped_run; [cbn; lia | cbn; lia | apply capped_create; lia]. }
  assert (Ho : PQueue.options (queue s) = PQueue.options (queue (create T cfg))).
  { subst s. now rewrite options_run. }
  destruct Hcapped as (Hcount & Hle & Hall & Hep). rewrite Ho in *.
  cbn [create queue PQueue.create PQueue.options PQueue.intervalCap queueOptions] in *.
  split; [exact Hall|]. split; [symmetry; exact Hcount|]. split; [exact Hep|].
  split; [intros now ev; apply resets_step|].
  intros Ht a b Ha Hb Hab.
  destruct (timed_run T schedule 0 (create T cfg)) as [clock' [since Htimed]].
  - cbn. lia.
  - apply timed_create. lia.
  - exact Ht.
  - fold s in Htimed. rewrite Ho in Htimed.
    cbn [create queue PQueue.create PQueue.options PQueue.interval queueOptions]
      in Htimed.
    destruct Htimed as (_ & _ & _ & _ & _ & _ & H7). exact (H7 a b Ha Hb Hab).
Qed.

(** C2, amended, at work: a cap of two and four tasks; the starts fall in two
    stretches of counting, two in each. *)
Lemma admissions_capped_between_resets_witness :
  let cfg := {| concurrency := 5; rateLimitPerMinute := 2 |} in
  let schedule : list (Z * Event unit) :=
    [ (1000, Add 1 None); (1010, Finish 1 (Js.Resolved tt));
      (60999, Add 2 None); (60999, Add 3 None);
      (61000, ResumeTick); (61000, Add 4 None) ] in
  construct unit cfg = Some (create unit cfg) /\
  Z.of_nat (admittedInEpoch 1 (run schedule (create unit cfg))) <= 2 /\
  Z.of_nat (admittedInEpoch 2 (run schedule (create unit cfg))) <= 2.
Proof.
  cbv zeta.
  pose proof (admissions_capped_between_resets unit
                {| concurrency := 5; rateLimitPerMinute := 2 |}
                (create unit {| concurrency := 5; rateLimitPerMinute := 2 |})
                [ (1000, Add 1 None); (1010, Finish 1 (Js.Resolved tt));
                  (60999, Add 2 None); (60999, Add 3 None);
                  (61000, ResumeTick); (61000, Add 4 None) ]
                eq_refl) as H.
  cbv zeta in H. destruct H as (H & _).
  split; [reflexivity|]. split; [exact (H 1%nat) | exact (H 2%nat)].
Defined.

(** C4, as stated, fails: task 2 waits when [shutdown()] is called; the call
    returns once task 1 has finished, and the promise of task 2 has not been
    settled by then: its caller receives no error at all. *)
Lemma queued_task_receives_no_shutdown_error :
  let cfg := {| concurrency := 1; rateLimitPerMinute := 30 |} in
  let before : list (Z * Event unit) := [ (0, Add 1 None); (5, Add 2 None) ] in
  let after : list (Z * Event unit) :=
    [ (10, Shutdown); (20, Finish 1 (Js.Resolved tt)) ] in
  let s := run (before ++ after) (create unit cfg) in
  queued (run before (create unit cfg)) = [2%nat] /\
  shutdowns s = [true] /\
  promise 2 (settled s) = None /\
  promise 1 (settled s) = Some (Js.Resolved tt) /\
  queued s = [] /\ running s = [].
Proof. cbv zeta. repeat split. Qed.

(** C4, amended: [shutdown()] drops every waiting task without a word to its
    caller: whatever happens afterwards, such a task is never started and its
    promise never settles, with an error or otherwise.  The call itself
    returns only when every task that ran when it was made has settled. *)
Theorem shutdown_drops_queued_silently
  (T : Type) (cfg : Config) (before after : list (Z * Event T)) (now : Z) (id : nat) :
  let s0 := run before (create T cfg) in
  let s1 := step now Shutdown s0 in
  let s2 := run after s1 in
  In id (queued s0) ->
  queued s1 = [] /\
  promise id (settled s2) = None /\
  ~ In id (running s2) /\
  ~ In id (queued s2) /\
  (nth (List.length (shutdowns s0)) (shutdowns s2) false = true ->
   forall active, In active (running s0) -> promise active (settled s2) <> None).
Proof.
  intros s0 s1 s2 Hq.
  assert (Ha : accounted s0) by (apply accounted_run, accounted_create).
  destruct (shutdown_drops T now s0 id Ha Hq) as [Hempty Hd].
  pose proof (dropped_run T id after s1 Hd) as (_ & Hnq & Hnr & Hp).
  pose proof (drained_run T _ _ after s1 (shutdown_drained T now s0 Ha))
    as (_ & _ & _ & Hret).
  repeat split; assumption.
Qed.

(** C4, amended, at work: task 2 waits at shutdown; later events, among them
    a new task and a timer firing, never settle it. *)
Lemma shutdown_drops_queued_silently_witness :
  let cfg := {| concurrency := 1; rateLimitPerMinute := 30 |} in
  let before : list (Z * Event unit) := [ (0, Add 1 None); (5, Add 2 None) ] in
  let after : list (Z * Event unit) :=
    [ (20, Finish 1 (Js.Resolved tt)); (30, Add 3 None); (60000, IntervalTick) ] in
  promise 2 (settled (run after (step 10 Shutdown (run before (create unit cfg)))))
  = None.
Proof.
  cbv zeta.
  pose proof (shutdown_drops_queued_silently unit
                {| concurrency := 1; rateLimitPerMinute := 30 |}
                [ (0, Add 1 None); (5, Add 2 None) ]
                [ (20, Finish 1 (Js.Resolved tt)); (30, Add 3 None);
                  (60000, IntervalTick) ]
                10 2%nat) as H.
  cbv zeta in H. destruct H as (_ & H & _).
  - simpl. now left.
  - exact H.
Defined.






(* ================================================================== *)
(** * Further properties of the code *)

(** ** withRetry at its bounds *)

(** X1: with [maxAttempts <= 0] the loop of [withRetry] is never entered: the
    operation is not called, nothing is logged or waited for, and the caller
    receives the unassigned [lastError], that is [undefined]. *)
Theorem withRetry_without_attempts
  (World T : Type) (sleep : Z -> World -> World)
  (operation : Retry.Operation World T) (n : Z) (cid : string) (w : World) :
  n <= 0 ->
  let run := Retry.withRetry sleep operation n cid w in
  Retry.outcome run = Js.Rejected Js.Undefined /\
  Retry.world run = w /\
  Retry.events run = [] /\
  Retry.invocations (Retry.events run) = 0%nat.
Proof.
  intros Hn. cbv zeta. unfold Retry.withRetry.
  replace (Z.to_nat n) with 0%nat by lia.
  cbn [Retry.retryLoop].
  destruct (Z.leb_spec 1 n) as [H | _]; [lia|].
  repeat split.
Qed.

(** X1 at work: no attempt allowed, an operation that would time out. *)
Lemma withRetry_without_attempts_witness :
  Retry.outcome (Retry.withRetry (fun _ w => w) Retry.alwaysTimeout 0 "req-a" tt)
  = Js.Rejected Js.Undefined.
Proof.
  exact (proj1 (withRetry_without_attempts unit unit (fun _ w => w)
                  Retry.alwaysTimeout 0 "req-a" tt (Z.le_refl 0))).
Defined.

Lemma backoff_bounds (a : Z) : 1 <= a -> 1000 <= Retry.backoff a <= 10000.
Proof.
  intros Ha. unfold Retry.backoff.
  assert (0 < 2 ^ (a - 1)) by (apply Z.pow_pos_nonneg; lia).
  lia.
Qed.

Lemma retryLoop_waits_bounded
  (World T : Type) (sleep : Z -> World -> World)
  (operation : Retry.Operation World T) (fuel : nat) :
  forall n cid a lastError w,
    1 <= a ->
    Forall (fun d => 1000 <= d <= 10000)
      (Retry.waits (Retry.events
         (Retry.retryLoop sleep fuel operation n cid a lastError w))) /\
    Z.of_nat (List.length
      (Retry.waits (Retry.events
         (Retry.retryLoop sleep fuel operation n cid a lastError w))))
    <= Z.max 0 (n - a).
Proof.
  induction fuel as [|fuel IH]; intros n cid a lastError w Ha; cbn [Retry.retryLoop].
  - cbn. split; [constructor | lia].
  - destruct (Z.leb_spec a n) as [Hle | Hgt]; [| cbn; split; [constructor | lia]].
    destruct (operation w) as [[v | e] w1].
    + cbn. split; [constructor | lia].
    + destruct (Z.ltb_spec a n) as [Hlt | Hge];
        cbn [Retry.prepend Retry.events]; rewrite waits_app.
      * rewrite waits_app. cbn [Retry.waits List.app].
        destruct (IH n cid (a + 1) (Retry.asError e)
                    (sleep (Retry.backoff a) w1)) as [HF HL]; [lia|].
        split.
        -- constructor; [now apply backoff_bounds | exact HF].
        -- cbn [List.length]. lia.
      * cbn [Retry.waits List.app].
        destruct (IH n cid (a + 1) (Retry.asError e) w1) as [HF HL]; [lia|].
        split; [exact HF | lia].
Qed.

Lemma sum_bounded (ws : list Z) :
  Forall (fun d => 1000 <= d <= 10000) ws ->
  fold_right Z.add 0 ws <= 10000 * Z.of_nat (List.length ws).
Proof.
  induction 1 as [|d ws Hd _ IH]; cbn [fold_right List.length]; lia.
Qed.

(** X2: whatever the operation does, every delay [withRetry] waits lies between
    1000 and 10000 ms, there are at most [maxAttempts - 1] of them, and a run
    sleeps at most [10000 * (maxAttempts - 1)] ms in all. *)
Theorem withRetry_delays_bounded
  (World T : Type) (sleep : Z -> World -> World)
  (operation : Retry.Operation World T) (n : Z) (cid : string) (w : World) :
  let ws := Retry.waits (Retry.events (Retry.withRetry sleep operation n cid w)) in
  Forall (fun d => 1000 <= d <= 10000) ws /\
  Z.of_nat (List.length ws) <= Z.max 0 (n - 1) /\
  fold_right Z.add 0 ws <= 10000 * Z.max 0 (n - 1).
Proof.
  cbv zeta. unfold Retry.withRetry.
  destruct (retryLoop_waits_bounded World T sleep operation
              (S (Z.to_nat n)) n cid 1 Js.Undefined w) as [HF HL]; [lia|].
  split; [exact HF|]. split; [exact HL|].
  pose proof (sum_bounded _ HF). lia.
Qed.

(** ** The browser pool: statistics *)

Lemma minimum_le (xs : list Z) :
  forall x, BrowserPool.minimum x xs <= x /\
            (forall y, In y xs -> BrowserPool.minimum x xs <= y) /\
            In (BrowserPool.minimum x xs) (x :: xs).
Proof.
  unfold BrowserPool.minimum.
  induction xs as [|y xs IH]; intros x; cbn [fold_left].
  - split; [lia|]. split; [intros y []| now left].
  - destruct (IH (Z.min x y)) as (H1 & H2 & H3).
    remember (fold_left Z.min xs (Z.min x y)) as m eqn:Em in *. clear Em.
    split; [lia|]. split.
    + intros z [<- | Hz]; [lia | now apply H2].
    + destruct H3 as [H3 | H3]; [| now right; right].
      destruct (Z.min_spec x y) as [[_ E] | [_ E]]; rewrite E in H3.
      * now left.
      * right; now left.
Qed.

(** X3: the [oldestInstance] of [getStats] is the smallest age in the pool,
    the age of the instance created last and not of the oldest one: it is at
    most the age [now - createdAt] of every instance, it is the age of one of
    them, and it is 0 for an empty pool. *)
Theorem getStats_oldestInstance_is_least_age
  (cfg : BrowserPool.Config) (now : Z) (p : Pool) :
  let oldest := oldestInstance (BrowserPool.getStats cfg now p) in
  (instances p = [] -> oldest = 0) /\
  (forall i, In i (JsMap.values (instances p)) -> oldest <= now - createdAt i) /\
  (instances p <> [] ->
   exists i, In i (JsMap.values (instances p)) /\ oldest = now - createdAt i).
Proof.
  cbv zeta. unfold BrowserPool.getStats; cbn [oldestInstance].
  destruct (instances p) as [|[k v] m]; cbn [JsMap.values map].
  - split; [reflexivity|]. split; [intros i [] | congruence].
  - destruct (minimum_le (map (fun i => now - createdAt i) (map snd m))
                (now - createdAt (snd (k, v)))) as (H1 & H2 & H3).
    split; [discriminate|]. split.
    + intros i [<- | Hi]; [exact H1|].
      apply H2. apply in_map_iff. now exists i.
    + intros _. destruct H3 as [H3 | H3].
      * exists v. split; [now left | now rewrite <- H3].
      * apply in_map_iff in H3 as (i & E & Hi).
        exists i. split; [now right | now rewrite E].
Qed.

(** X4: in every pool the busy and the idle instances that [getStats] counts
    add up to its [totalInstances], which is the size of the map. *)
Theorem getStats_counts_add_up (cfg : BrowserPool.Config) (now : Z) (p : Pool) :
  activeInstances (BrowserPool.getStats cfg now p)
  + idleInstances (BrowserPool.getStats cfg now p)
  = totalInstances (BrowserPool.getStats cfg now p) /\
  totalInstances (BrowserPool.getStats cfg now p) = JsMap.size (instances p) /\
  0 <= activeInstances (BrowserPool.getStats cfg now p) /\
  0 <= idleInstances (BrowserPool.getStats cfg now p).
Proof.
  destruct (getStats_partition cfg now p) as [H1 H2].
  split; [exact H1|]. split; [exact H2|].
  unfold BrowserPool.getStats; cbn [activeInstances idleInstances]. lia.
Qed.

(** ** The browser pool: capacity *)

Lemma serial_capacity_run (cfg : BrowserPool.Config) schedule :
  forall s : System,
    wellKeyed (pool s) ->
    JsMap.size (instances (pool s)) + Z.of_nat (List.length (launching s))
      <= poolSize cfg ->
    serial cfg schedule s = true ->
    JsMap.size (instances (pool (BrowserPool.run cfg schedule s)))
    + Z.of_nat (List.length (launching (BrowserPool.run cfg schedule s)))
      <= poolSize cfg.
Proof.
  induction schedule as [|[now ev] rest IH]; intros s Hw Hcap Hs;
    cbn [BrowserPool.run].
  - exact Hcap.
  - cbn [serial] in Hs. apply IH.
    + now apply wellKeyed_step.
    + apply capacity_step; [exact Hw | | exact Hcap].
      destruct ev; try exact I. destruct (launching s); [exact I | discriminate].
    + destruct ev; try exact Hs. destruct (launching s); [exact Hs | discriminate].
Qed.

(** X5: as long as no caller enters [getBrowserContext] while a launch is in
    flight, the instances the pool holds and the launches in flight together
    never exceed [poolSize], from the start of the service on. *)
Theorem serial_schedule_keeps_pool_within_size
  (cfg : BrowserPool.Config) (schedule : list (Z * BrowserPool.Event)) :
  0 <= poolSize cfg ->
  serial cfg schedule boot = true ->
  let s := BrowserPool.run cfg schedule boot in
  JsMap.size (instances (pool s)) + Z.of_nat (List.length (launching s))
    <= poolSize cfg /\
  totalInstances (BrowserPool.getStats cfg 0 (pool s)) <= poolSize cfg.
Proof.
  intros Hp Hs. cbv zeta.
  assert (H : JsMap.size (instances (pool (BrowserPool.run cfg schedule boot)))
              + Z.of_nat (List.length (launching (BrowserPool.run cfg schedule boot)))
              <= poolSize cfg).
  { apply serial_capacity_run; [apply wellKeyed_create | cbn; lia | exact Hs]. }
  split; [exact H|].
  destruct (getStats_partition cfg 0 (pool (BrowserPool.run cfg schedule boot)))
    as [_ ->].
  lia.
Qed.

(** X5 at work: a pool of one; the second caller comes after the first launch
    has settled and waits, the third after the release and reuses. *)
Lemma serial_schedule_keeps_pool_within_size_witness :
  let cfg := {| poolSize := 1; idleTimeout := 300000; launchTimeout := 30000 |} in
  let schedule :=
    [ (0, GetBrowserContext None "a1");
      (800, LaunchSettled "a1" (Js.Resolved tt));
      (900, GetBrowserContext None "b2");
      (5000, ReleaseBrowserContext "a1");
      (5001, GetBrowserContext None "c3") ] in
  let s := BrowserPool.run cfg schedule boot in
  JsMap.size (instances (pool s)) + Z.of_nat (List.length (launching s)) <= 1 /\
  totalInstances (BrowserPool.getStats cfg 0 (pool s)) <= 1.
Proof.
  cbv zeta.
  exact (serial_schedule_keeps_pool_within_size
           {| poolSize := 1; idleTimeout := 300000; launchTimeout := 30000 |}
           [ (0, GetBrowserContext None "a1");
             (800, LaunchSettled "a1" (Js.Resolved tt));
             (900, GetBrowserContext None "b2");
             (5000, ReleaseBrowserContext "a1");
             (5001, GetBrowserContext None "c3") ]
           ltac:(cbn; lia) eq_refl).
Defined.

(** X6: in every state the pool reaches, each instance is filed under its own
    id and no id is filed twice. *)
Theorem pool_files_instances_under_their_ids
  (cfg : BrowserPool.Config) (schedule : list (Z * BrowserPool.Event)) :
  let p := pool (BrowserPool.run cfg schedule boot) in
  NoDup (JsMap.keys (instances p)) /\
  (forall k i, JsMap.get k (instances p) = Some i -> id i = k) /\
  (forall i, In i (JsMap.values (instances p)) ->
             JsMap.get (id i) (instances p) = Some i).
Proof.
  cbv zeta.
  destruct (wellKeyed_run cfg schedule boot wellKeyed_create) as [Hnd Hk].
  split; [exact Hnd|]. split.
  - intros k i G. apply get_In in G.
    rewrite Forall_forall in Hk. now specialize (Hk _ G).
  - intros i Hi. unfold JsMap.values in Hi. apply in_map_iff in Hi as ([k v] & E & Hin).
    cbn in E. subst v.
    rewrite Forall_forall in Hk. pose proof (Hk _ Hin) as Hid. cbn in Hid.
    rewrite <- Hid. now apply In_get.
Qed.

Lemma empty_pool_step (cfg : BrowserPool.Config) now ev (s : System) :
  poolSize cfg <= 0 ->
  instances (pool s) = [] -> launching s = [] ->
  instances (pool (fst (BrowserPool.step cfg now ev s))) = [] /\
  launching (fst (BrowserPool.step cfg now ev s)) = [] /\
  (forall o, In o (snd (BrowserPool.step cfg now ev s)) -> Js.isRejected o = true).
Proof.
  intros Hc Hi Hl. destruct ev; unfold BrowserPool.step.
  - unfold getBrowserContext, findAvailableInstance. rewrite Hi.
    cbn [JsMap.values map find JsMap.size List.length Z.of_nat].
    destruct (isShuttingDown (pool s)).
    + cbn. split; [exact Hi|]. split; [exact Hl|].
      intros o [<- | []]. reflexivity.
    + destruct (Z.ltb_spec 0 (poolSize cfg)); [lia|].
      cbn. split; [exact Hi|]. split; [exact Hl|]. intros o [].
  - rewrite Hl. cbn. split; [exact Hi|]. split; [exact Hl|]. intros o [].
  - destruct (nth_error (waiters s) waiter) as [w|];
      [| cbn; split; [exact Hi|]; split; [exact Hl|]; intros o []].
    destruct (found w);
      [cbn; split; [exact Hi|]; split; [exact Hl|]; intros o [] |].
    unfold findAvailableInstance. rewrite Hi. cbn.
    split; [exact Hi|]. split; [exact Hl|]. intros o [].
  - destruct (nth_error (waiters s) waiter) as [w|];
      [| cbn; split; [exact Hi|]; split; [exact Hl|]; intros o []].
    destruct (found w || timedOut w); cbn.
    + split; [exact Hi|]. split; [exact Hl|]. intros o [].
    + split; [exact Hi|]. split; [exact Hl|]. intros o [<- | []]. reflexivity.
  - unfold releaseBrowserContext. rewrite Hi. cbn.
    split; [exact Hi|]. split; [exact Hl|]. intros o [].
  - destruct (cleanupInterval (pool s)); cbn;
      (split; [exact Hi|]; split; [exact Hl|]; intros o []).
  - destruct (takeStarted instanceId0 (closings s)) as [[rest others]|]; cbn.
    + unfold closeBrowserInstance. rewrite Hi. cbn.
      split; [exact Hi|]. split; [exact Hl|]. intros o [].
    + split; [exact Hi|]. split; [exact Hl|]. intros o [].
  - cbn. split; [exact Hi|]. split; [exact Hl|]. intros o [].
Qed.

(** X7: with [poolSize <= 0] the size test of [getBrowserContext] never lets a
    launch start: the pool stays empty for ever, and no call of
    [getBrowserContext] is ever answered with a browser; callers wait and time
    out, or are refused once the pool shuts down. *)
Theorem pool_without_capacity_serves_nobody
  (cfg : BrowserPool.Config) (schedule : list (Z * BrowserPool.Event)) :
  poolSize cfg <= 0 ->
  let s := BrowserPool.run cfg schedule boot in
  instances (pool s) = [] /\
  launching s = [] /\
  (forall now ev o, In o (snd (BrowserPool.step cfg now ev s)) ->
                    Js.isRejected o = true).
Proof.
  intros Hc. cbv zeta.
  assert (H : forall s : System,
             instances (pool s) = [] -> launching s = [] ->
             instances (pool (BrowserPool.run cfg schedule s)) = [] /\
             launching (BrowserPool.run cfg schedule s) = []).
  { induction schedule as [|[now ev] rest IH]; intros s Hi Hl; cbn [BrowserPool.run].
    - now split.
    - destruct (empty_pool_step cfg now ev s Hc Hi Hl) as (Hi' & Hl' & _).
      now apply IH. }
  destruct (H boot eq_refl eq_refl) as [Hi Hl].
  split; [exact Hi|]. split; [exact Hl|].
  intros now ev. now apply empty_pool_step.
Qed.

(** X7 at work: a pool of size 0; the caller waits and is timed out. *)
Lemma pool_without_capacity_serves_nobody_witness :
  let cfg := {| poolSize := 0; idleTimeout := 300000; launchTimeout := 30000 |} in
  instances (pool (BrowserPool.run cfg [ (0, GetBrowserContext None "a1");
                                         (30000, WaitTimeout 0) ] boot)) = [].
Proof.
  cbv zeta.
  exact (proj1 (pool_without_capacity_serves_nobody
                  {| poolSize := 0; idleTimeout := 300000; launchTimeout := 30000 |}
                  [ (0, GetBrowserContext None "a1"); (30000, WaitTimeout 0) ]
                  (Z.le_refl 0))).
Defined.

(** ** The browser pool: waiting and releasing *)

(** X8: the timer of [waitForAvailableInstance] rejects the caller's promise
    but leaves the polling interval running.  A waiter that has timed out
    therefore still takes the next idle instance it finds: the instance is
    marked busy with [lastUsed] set, no promise is settled by it, and no
    caller holds the id to release it. *)
Theorem timed_out_waiter_still_takes_instance
  (cfg : BrowserPool.Config) (now : Z) (s : System) (k : nat) (w : Waiter)
  (available : BrowserInstance) :
  wellKeyed (pool s) ->
  nth_error (waiters s) k = Some w ->
  timedOut w = true -> found w = false ->
  findAvailableInstance (waiterProxy w) (pool s) = Some available ->
  let after := BrowserPool.step cfg now (PollAvailable k) s in
  snd after = [] /\
  isActive available = false /\
  JsMap.get (id available) (instances (pool (fst after)))
  = Some {| browser := browser available; context := context available;
            createdAt := createdAt available; lastUsed := now;
            isActive := true; id := id available |} /\
  JsMap.keys (instances (pool (fst after))) = JsMap.keys (instances (pool s)).
Proof.
  intros Hw Hk Ht Hf Ha. cbv zeta. unfold BrowserPool.step.
  rewrite Hk, Hf, Ha, Ht. cbn [fst snd pool].
  destruct (findAvailableInstance_stored _ _ _ Hw Ha) as [Hidle Hget].
  split; [reflexivity|]. split; [exact Hidle|].
  unfold assign; cbn [instances withInstances]. split.
  - apply get_set_same.
  - apply keys_set_present. congruence.
Qed.

(** X8 at work: a pool of one; the second caller waits and is timed out at
    30 s; after the release its interval takes the instance. *)
Lemma timed_out_waiter_still_takes_instance_witness :
  let cfg := {| poolSize := 1; idleTimeout := 300000; launchTimeout := 30000 |} in
  let s := BrowserPool.run cfg
             [ (0, GetBrowserContext None "a1");
               (800, LaunchSettled "a1" (Js.Resolved tt));
               (900, GetBrowserContext None "b2");
               (30900, WaitTimeout 0);
               (40000, ReleaseBrowserContext "a1") ] boot in
  snd (BrowserPool.step cfg 40100 (PollAvailable 0) s) = [] /\
  activeInstances
    (BrowserPool.getStats cfg 40100
       (pool (fst (BrowserPool.step cfg 40100 (PollAvailable 0) s)))) = 1.
Proof.
  cbv zeta. split; [| reflexivity].
  refine (proj1 (timed_out_waiter_still_takes_instance
                   {| poolSize := 1; idleTimeout := 300000; launchTimeout := 30000 |}
                   40100
                   (BrowserPool.run
                      {| poolSize := 1; idleTimeout := 300000; launchTimeout := 30000 |}
                      [ (0, GetBrowserContext None "a1");
                        (800, LaunchSettled "a1" (Js.Resolved tt));
                        (900, GetBrowserContext None "b2");
                        (30900, WaitTimeout 0);
                        (40000, ReleaseBrowserContext "a1") ] boot)
                   0%nat
                   {| waiterProxy := None; timedOut := true; found := false |}
                   {| browser := plain; context := {| owner := plain |};
                      createdAt := 800; lastUsed := 40000; isActive := false;
                      id := "a1" |}
                   _ eq_refl eq_refl eq_refl eq_refl)).
  apply wellKeyed_run, wellKeyed_create.
Defined.

Lemma values_set_In (m : JsMap.t BrowserInstance) k v :
  In v (JsMap.values (JsMap.set k v m)).
Proof.
  unfold JsMap.values.
  induction m as [|[k' v'] m IH]; cbn [JsMap.set map].
  - now left.
  - destruct (String.eqb k k'); cbn [map]; [now left | now right].
Qed.

(** X9: [releaseBrowserContext] neither adds nor removes an instance, and an
    id the pool does not hold leaves it as it was.  After the release of an
    id it holds, the next [getBrowserContext] on a running pool is answered at
    once with an instance of the pool: it neither launches nor waits, whatever
    the pool size. *)
Theorem released_instance_serves_next_caller
  (cfg : BrowserPool.Config) (proxy : option string) (k : string)
  (now now' : Z) (p : Pool) :
  wellKeyed p ->
  isShuttingDown p = false ->
  JsMap.get k (instances p) <> None ->
  let released := releaseBrowserContext k now p in
  JsMap.keys (instances released) = JsMap.keys (instances p) /\
  (forall k', JsMap.get k' (instances p) = None ->
              releaseBrowserContext k' now p = p) /\
  exists lease p',
    getBrowserContext cfg proxy now' released = Returns lease p' /\
    In (instanceId lease) (JsMap.keys (instances p)) /\
    JsMap.keys (instances p') = JsMap.keys (instances p).
Proof.
  intros Hw Hs Hk. cbv zeta.
  pose proof (wellKeyed_release p k now Hw) as Hw'.
  unfold releaseBrowserContext in *.
  destruct (JsMap.get k (instances p)) as [i|] eqn:G; [| congruence].
  assert (Hkeys : JsMap.keys (instances (assign k i now false p))
                  = JsMap.keys (instances p)).
  { unfold assign; cbn [instances withInstances].
    apply keys_set_present. congruence. }
  split; [exact Hkeys|]. split.
  - intros k' G'. now rewrite G'.
  - unfold getBrowserContext.
    replace (isShuttingDown (assign k i now false p)) with false
      by (symmetry; exact Hs).
    destruct (findAvailableInstance proxy (assign k i now false p))
      as [a|] eqn:F.
    + destruct (findAvailableInstance_stored _ _ _ Hw' F) as [_ Ga].
      eexists _, _. split; [reflexivity|]. cbn [instanceId]. split.
      * rewrite <- Hkeys. apply get_In in Ga.
        unfold JsMap.keys. apply in_map_iff. now exists (id a, a).
      * unfold assign at 1; cbn [instances withInstances].
        rewrite <- Hkeys. apply keys_set_present. congruence.
    + exfalso. unfold findAvailableInstance in F.
      pose proof (find_none _ _ F) as Hnone.
      unfold assign in Hnone; cbn [instances withInstances] in Hnone.
      specialize (Hnone _ (values_set_In (instances p) k _)).
      discriminate.
Qed.

(** X9 at work on [samplePool]: the busy instance is released at a time when
    the pool is full. *)
Lemma released_instance_serves_next_caller_witness :
  JsMap.keys (instances (releaseBrowserContext "busy" 1000000 samplePool))
  = ["busy"; "stale"; "fresh"].
Proof.
  refine (proj1 (released_instance_serves_next_caller sampleConfig None "busy"
                   1000000 1000001 samplePool _ eq_refl _)).
  - split; [| repeat constructor].
    repeat (constructor; [cbn; intuition discriminate|]). constructor.
  - discriminate.
Defined.

(** ** The browser pool: a launch that outlives shutdown *)

Lemma takeLaunch_In k (ls : list Launch) :
  In k (map launchId ls) -> exists l rest, takeLaunch k ls = Some (l, rest).
Proof.
  induction ls as [|l ls IH]; cbn [map takeLaunch]; [intros []|].
  intros [E | Hin].
  - subst k. rewrite String.eqb_refl. now eexists _, _.
  - destruct (String.eqb k (launchId l)); [now eexists _, _|].
    destruct (IH Hin) as (l' & rest & ->). now eexists _, _.
Qed.

Lemma takeClosing_sub k (chains : list (list string)) :
  forall rest others,
    takeClosing k chains = Some (rest, others) ->
    (exists chain, In chain chains /\ In k chain /\
                   forall x, In x rest -> In x chain) /\
    (forall c, In c others -> In c chains).
Proof.
  induction chains as [|chain chains IH]; intros rest others; cbn [takeClosing];
    [discriminate|].
  destruct chain as [|head tail].
  - intros E. destruct (IH _ _ E) as [(c & Hc & Hk & Hr) Ho]. split.
    + exists c. split; [now right | now split].
    + intros c' Hc'. right. now apply Ho.
  - destruct (String.eqb_spec k head) as [-> | Hne].
    + intros [= <- <-]. split.
      * exists (head :: tail). split; [now left|]. split; [now left|].
        intros x Hx. now right.
      * intros c Hc. now right.
    + destruct (takeClosing k chains) as [[rest' others']|] eqn:E; [| discriminate].
      intros [= <- <-]. destruct (IH _ _ eq_refl) as [(c & Hc & Hk & Hr) Ho]. split.
      * exists c. split; [now right | now split].
      * intros c' [<- | Hc']; [now left | right; now apply Ho].
Qed.

Lemma startClosing_sub (ids : list string) (p : Pool) x :
  In x (startClosing ids p) -> In x ids.
Proof.
  induction ids as [|k ids IH]; cbn [startClosing]; [intros []|].
  destruct (JsMap.get k (instances p)); [tauto|].
  intros H. right. now apply IH.
Qed.

Lemma addClosing_In (chain : list string) chains c :
  In c (addClosing chain chains) -> c = chain \/ In c chains.
Proof.
  unfold addClosing. destruct chain; [now right|].
  intros H. apply in_app_or in H as [H | [H | []]]; [now right | now left].
Qed.

Lemma get_set_kept (m : JsMap.t BrowserInstance) k k' v :
  JsMap.get k m <> None -> JsMap.get k (JsMap.set k' v m) <> None.
Proof.
  intros H. destruct (String.eqb_spec k' k) as [-> | Hne].
  - rewrite get_set_same. discriminate.
  - now rewrite get_set_other.
Qed.

(** Once the sweep timer is cleared, an instance whose id is in no sequence of
    closings stays in the map through every piece of pool code but a further
    [shutdown]. *)
Lemma kept_step (cfg : BrowserPool.Config) now ev (s : System) k :
  ev <> BrowserPool.Shutdown ->
  cleanupInterval (pool s) = false ->
  JsMap.get k (instances (pool s)) <> None ->
  (forall chain, In chain (closing s) -> ~ In k chain) ->
  cleanupInterval (pool (fst (BrowserPool.step cfg now ev s))) = false /\
  JsMap.get k (instances (pool (fst (BrowserPool.step cfg now ev s)))) <> None /\
  (forall chain, In chain (closing (fst (BrowserPool.step cfg now ev s))) ->
                 ~ In k chain).
Proof.
  intros Hev Hc Hk Hcl.
  assert (Hsame : cleanupInterval (pool s) = false /\
                  JsMap.get k (instances (pool s)) <> None /\
                  (forall chain, In chain (closing s) -> ~ In k chain)) by auto.
  destruct ev.
  - unfold BrowserPool.step, getBrowserContext.
    destruct (isShuttingDown (pool s)); [exact Hsame|].
    destruct (findAvailableInstance proxy (pool s)) as [a|].
    + cbn [fst pool withPool]. unfold assign; cbn [instances withInstances cleanupInterval].
      split; [exact Hc|]. split; [now apply get_set_kept | exact Hcl].
    + destruct (JsMap.size (instances (pool s)) <? poolSize cfg); exact Hsame.
  - unfold BrowserPool.step.
    destruct (takeLaunch instanceId0 (launching s)) as [[l rest]|]; [| exact Hsame].
    unfold createBrowserInstance.
    destruct launched; cbn [fst pool withLaunching withPool].
    + cbn [instances withInstances cleanupInterval].
      split; [exact Hc|]. split; [now apply get_set_kept | exact Hcl].
    + exact Hsame.
  - unfold BrowserPool.step.
    destruct (nth_error (waiters s) waiter) as [w|]; [| exact Hsame].
    destruct (found w); [exact Hsame|].
    destruct (findAvailableInstance (waiterProxy w) (pool s)) as [a|]; [| exact Hsame].
    cbn [fst pool withWaiters withPool].
    unfold assign; cbn [instances withInstances cleanupInterval].
    split; [exact Hc|]. split; [now apply get_set_kept | exact Hcl].
  - unfold BrowserPool.step.
    destruct (nth_error (waiters s) waiter) as [w|]; [| exact Hsame].
    destruct (found w || timedOut w); exact Hsame.
  - unfold BrowserPool.step. cbn [fst pool withPool]. unfold releaseBrowserContext.
    destruct (JsMap.get instanceId0 (instances (pool s))); [| exact Hsame].
    unfold assign; cbn [instances withInstances cleanupInterval].
    split; [exact Hc|]. split; [now apply get_set_kept | exact Hcl].
  - unfold BrowserPool.step. rewrite Hc. exact Hsame.
  - destruct (step_CloseSettled cfg now instanceId0 closed0 s) as (Ep & Ec & _).
    rewrite Ep, Ec.
    destruct (takeClosing instanceId0 (closing s)) as [[rest others]|] eqn:E;
      [| exact Hsame].
    destruct (takeClosing_sub _ _ _ _ E) as [(c & Hcin & Hkc & Hr) Ho].
    assert (Hne : instanceId0 <> k).
    { intros ->. exact (Hcl _ Hcin Hkc). }
    rewrite closeBrowserInstance_delete.
    cbn [instances withInstances cleanupInterval].
    split; [exact Hc|]. split.
    + now rewrite get_delete_other.
    + intros chain Hin. apply addClosing_In in Hin as [-> | Hin].
      * intros Hx. apply startClosing_sub in Hx. exact (Hcl _ Hcin (Hr _ Hx)).
      * apply Hcl. now apply Ho.
  - congruence.
Qed.

(** X10: [createBrowserInstance] does not look at [isShuttingDown] after its
    awaits, and [shutdown] closes the instances the map holds when it is
    called.  A browser whose launch is in flight at that moment is therefore
    stored in the pool when the launch settles, and nothing closes it
    afterwards: it is still in the map after any later events, short of a
    second call of [shutdown]. *)
Theorem launch_settled_after_shutdown_is_never_closed
  (cfg : BrowserPool.Config) (now0 now1 : Z) (k : string) (s : System)
  (schedule : list (Z * BrowserPool.Event)) :
  In k (map launchId (launching s)) ->
  JsMap.get k (instances (pool s)) = None ->
  (forall chain, In chain (closing s) -> ~ In k chain) ->
  Forall (fun e => snd e <> BrowserPool.Shutdown) schedule ->
  let s1 := fst (BrowserPool.step cfg now0 BrowserPool.Shutdown s) in
  let s2 := fst (BrowserPool.step cfg now1 (LaunchSettled k (Js.Resolved tt)) s1) in
  let s3 := BrowserPool.run cfg schedule s2 in
  isShuttingDown (pool s3) = true /\
  exists instance, JsMap.get k (instances (pool s3)) = Some instance.
Proof.
  intros Hl Hk Hcl Hsched. cbv zeta.
  destruct (takeLaunch_In _ _ Hl) as (l & rest & El).
  set (s1 := fst (BrowserPool.step cfg now0 BrowserPool.Shutdown s)).
  set (s2 := fst (BrowserPool.step cfg now1 (LaunchSettled k (Js.Resolved tt)) s1)).
  assert (H2 : isShuttingDown (pool s2) = true /\
               cleanupInterval (pool s2) = false /\
               JsMap.get k (instances (pool s2)) <> None /\
               (forall chain, In chain (closing s2) -> ~ In k chain)).
  { assert (Ec : closing s2 = closing s1).
    { subst s2. unfold BrowserPool.step.
      destruct (takeLaunch k (launching s1)) as [[l1 rest1]|]; [| reflexivity].
      now destruct (createBrowserInstance (launchFor l1) k (Js.Resolved tt) now1
                      (pool s1)). }
    rewrite Ec. subst s2 s1. rewrite closing_Shutdown.
    cbn [BrowserPool.step fst launching beginShutdown].
    rewrite El. cbn [createBrowserInstance fst pool withLaunching withPool
                     withInstances instances isShuttingDown cleanupInterval].
    split; [reflexivity|]. split; [reflexivity|]. split.
    - rewrite get_set_same. discriminate.
    - intros chain Hin. apply in_app_or in Hin as [Hin | Hin]; [now apply Hcl|].
      apply in_map_iff in Hin as (x & <- & Hx).
      intros [-> | []]. apply get_None_keys in Hk. now apply Hk. }
  clearbody s2. clear s1 El Hl Hk Hcl.
  revert s2 H2. induction Hsched as [|[now ev] rest' Hev _ IH]; intros s2 H2;
    cbn [BrowserPool.run].
  - destruct H2 as (Hs & _ & Hk & _). split; [exact Hs|].
    destruct (JsMap.get k (instances (pool s2))) as [i|]; [now exists i | congruence].
  - apply IH. destruct H2 as (Hs & Hc & Hk & Hcl).
    split; [now apply isShuttingDown_step|].
    now apply kept_step.
Qed.

(** X10 at work: the launch of [a1] is in flight when [shutdown] is called;
    the browser is released by its caller and later timer events find the
    sweep stopped. *)
Lemma launch_settled_after_shutdown_is_never_closed_witness :
  let cfg := {| poolSize := 2; idleTimeout := 300000; launchTimeout := 30000 |} in
  let s := BrowserPool.run cfg [ (0, GetBrowserContext None "a1") ] boot in
  let s1 := fst (BrowserPool.step cfg 100 BrowserPool.Shutdown s) in
  let s2 := fst (BrowserPool.step cfg 800 (LaunchSettled "a1" (Js.Resolved tt)) s1) in
  let s3 := BrowserPool.run cfg [ (2000, ReleaseBrowserContext "a1");
                                  (400000, CleanupTick) ] s2 in
  isShuttingDown (pool s3) = true.
Proof.
  cbv zeta.
  refine (proj1 (launch_settled_after_shutdown_is_never_closed
                   {| poolSize := 2; idleTimeout := 300000; launchTimeout := 30000 |}
                   100 800 "a1"
                   (BrowserPool.run
                      {| poolSize := 2; idleTimeout := 300000; launchTimeout := 30000 |}
                      [ (0, GetBrowserContext None "a1") ] boot)
                   [ (2000, ReleaseBrowserContext "a1"); (400000, CleanupTick) ]
                   _ eq_refl _ _)).
  - now left.
  - intros chain [].
  - repeat constructor; discriminate.
Defined.

(** ** The Instagram queue: concurrency and counters *)

(** A job is started only below the concurrency limit. *)
Lemma tryToStartAnother_may now (q q' : PQueue.Queue) (job : PQueue.Job) :
  PQueue.tryToStartAnother now q = (q', Some job) ->
  PQueue.pending q < PQueue.concurrency (PQueue.options q).
Proof.
  unfold PQueue.tryToStartAnother.
  destruct (PQueue.waiting q) as [|j rest]; [discriminate|].
  destruct (PQueue.isIntervalPaused now q) as [q1 paused] eqn:P.
  destruct (isIntervalPaused_frame _ _ _ _ P) as (_ & P1 & O1 & _).
  destruct (PQueue.mayStart q1) eqn:M; [| discriminate]. intros _.
  unfold PQueue.mayStart in M. apply andb_true_iff in M as [_ M].
  apply Z.ltb_lt in M. now rewrite P1, O1 in M.
Qed.

Lemma tryToStartAnother_within now (q q' : PQueue.Queue) (o : option PQueue.Job)
  (bound : Z) :
  PQueue.tryToStartAnother now q = (q', o) ->
  PQueue.concurrency (PQueue.options q) <= bound ->
  PQueue.pending q <= bound -> PQueue.pending q' <= bound.
Proof.
  intros E Hb Hp. pose proof (tryToStartAnother_starts _ _ _ _ E) as (_ & P & _).
  destruct o as [job|]; cbn [optionList List.length] in P; [| lia].
  pose proof (tryToStartAnother_may _ _ _ _ E). lia.
Qed.

Lemma processQueue_within now (fuel : nat) (bound : Z) :
  forall (q q' : PQueue.Queue) jobs,
    PQueue.processQueue fuel now q = (q', jobs) ->
    PQueue.concurrency (PQueue.options q) <= bound ->
    PQueue.pending q <= bound -> PQueue.pending q' <= bound.
Proof.
  induction fuel as [|fuel IH]; intros q q' jobs; cbn [PQueue.processQueue].
  - now intros [= <- <-].
  - destruct (PQueue.tryToStartAnother now q) as [q1 [job|]] eqn:E.
    + destruct (PQueue.processQueue fuel now q1) as [q2 js] eqn:E2.
      intros [= <- <-] Hb Hp.
      pose proof (tryToStartAnother_within _ _ _ _ _ E Hb Hp) as H1.
      destruct (tryToStartAnother_starts _ _ _ _ E) as (_ & _ & O).
      eapply IH; [exact E2 | now rewrite O | exact H1].
    + intros [= <- <-]. now apply tryToStartAnother_within with (o := None) (now := now).
Qed.

Lemma onInterval_within now (q q' : PQueue.Queue) jobs (bound : Z) :
  PQueue.onInterval now q = (q', jobs) ->
  PQueue.concurrency (PQueue.options q) <= bound ->
  PQueue.pending q <= bound -> PQueue.pending q' <= bound.
Proof.
  unfold PQueue.onInterval. intros E Hb Hp.
  destruct ((PQueue.intervalCount q =? 0) && (PQueue.pending q =? 0));
    exact (processQueue_within _ _ _ _ _ _ E Hb Hp).
Qed.

Lemma onResumeInterval_within now (q q' : PQueue.Queue) jobs (bound : Z) :
  PQueue.onResumeInterval now q = (q', jobs) ->
  PQueue.concurrency (PQueue.options q) <= bound ->
  PQueue.pending q <= bound -> PQueue.pending q' <= bound.
Proof.
  unfold PQueue.onResumeInterval.
  destruct (PQueue.onInterval now q) as [q1 js] eqn:E1.
  intros [= <- <-] Hb Hp.
  pose proof (onInterval_within _ _ _ _ _ E1 Hb Hp) as H1.
  destruct (initializeIntervalIfNeeded_frame now q1) as (_ & Pi & _).
  cbn [PQueue.withTimeoutId PQueue.pending]. now rewrite Pi.
Qed.

(** The queue never counts more pending jobs than a bound its concurrency
    limit respects. *)
Lemma pending_step (T : Type) now (ev : InstagramQueue.Event T)
  (s : InstagramQueue.State T) (bound : Z) :
  PQueue.concurrency (PQueue.options (queue s)) <= bound ->
  PQueue.pending (queue s) <= bound ->
  PQueue.pending (queue (InstagramQueue.step now ev s)) <= bound.
Proof.
  intros Hb Hp. destruct ev as [id prio | id o | | |]; unfold InstagramQueue.step.
  - destruct (mem id (submitted s)); [exact Hp|].
    destruct (PQueue.add _ now (queue s)) as [q job'] eqn:E.
    unfold PQueue.add in E. cbn [queue started].
    exact (tryToStartAnother_within _ _ _ _ _ E Hb Hp).
  - destruct (mem id (running s)); [| exact Hp].
    destruct (PQueue.next now (queue s)) as [q job'] eqn:E.
    unfold PQueue.next in E. rewrite queue_wake. cbn [queue started].
    apply (tryToStartAnother_within _ _ _ _ _ E Hb).
    cbn [PQueue.withPending PQueue.pending]. lia.
  - destruct (PQueue.intervalId (queue s)); [| exact Hp].
    destruct (PQueue.intervalFired now (queue s)) as [q jobs] eqn:E.
    rewrite queue_wake. cbn [queue started].
    exact (onInterval_within _ _ _ _ _ E Hb Hp).
  - destruct (PQueue.timeoutId (queue s)); [| exact Hp].
    destruct (PQueue.onResumeInterval now (queue s)) as [q jobs] eqn:E.
    rewrite queue_wake. cbn [queue started].
    exact (onResumeInterval_within _ _ _ _ _ E Hb Hp).
  - exact Hp.
Qed.

Lemma pending_run (T : Type) (schedule : list (Z * InstagramQueue.Event T))
  (bound : Z) :
  forall s : InstagramQueue.State T,
    PQueue.concurrency (PQueue.options (queue s)) <= bound ->
    PQueue.pending (queue s) <= bound ->
    PQueue.pending (queue (InstagramQueue.run schedule s)) <= bound.
Proof.
  induction schedule as [|[now ev] rest IH]; intros s Hb Hp; cbn [InstagramQueue.run];
    [exact Hp|].
  apply IH; [now rewrite options_step | now apply pending_step].
Qed.

Lemma onActive_fold (jobs : list PQueue.Job) :
  forall st,
    let st' := fold_left (fun st (_ : PQueue.Job) => onActive st) jobs st in
    currentActive st' = currentActive st + Z.of_nat (List.length jobs) /\
    totalProcessed st' = totalProcessed st /\
    totalErrors st' = totalErrors st /\
    (currentActive st <= peakActive st ->
     currentActive st' <= peakActive st' /\
     peakActive st' <= Z.max (peakActive st) (currentActive st')).
Proof.
  induction jobs as [|j jobs IH]; intros st; cbn [fold_left List.length].
  - cbv zeta. repeat split; lia.
  - cbv zeta in *. destruct (IH (onActive st)) as (H1 & H2 & H3 & H4).
    rewrite H1, H2, H3. cbn [onActive currentActive totalProcessed totalErrors].
    split; [lia|]. split; [reflexivity|]. split; [reflexivity|].
    intros Hle. cbn [onActive currentActive peakActive] in H4.
    destruct H4 as [H5 H6]; [lia|]. rewrite H1 in *.
    cbn [onActive currentActive] in *. lia.
Qed.

Section QueueCounters.

Variable T : Type.

Lemma Counted_start (qb q' : PQueue.Queue) jobs st running
  (settled : list (nat * Js.Outcome T)) :
  Starts qb q' jobs ->
  (0 <= PQueue.concurrency (PQueue.options qb) ->
   PQueue.pending q' <= PQueue.concurrency (PQueue.options qb)) ->
  PQueue.pending qb = Z.of_nat (List.length running) ->
  Counted (PQueue.concurrency (PQueue.options qb)) (PQueue.pending qb) st running settled ->
  Counted (PQueue.concurrency (PQueue.options q')) (PQueue.pending q')
    (fold_left (fun st (_ : PQueue.Job) => onActive st) jobs st)
    (running ++ map PQueue.jobId jobs) settled.
Proof.
  intros (_ & P & O) Hb Hp (_ & C1 & C2 & C3 & C4 & C5).
  destruct (onActive_fold jobs st) as (H1 & H2 & H3 & H4).
  destruct H4 as [H5 H6]; [exact C4|].
  unfold Counted. rewrite O, H1, H2, H3, length_app, length_map.
  split; [exact Hb|]. split; [lia|]. split; [exact C2|]. split; [exact C3|].
  rewrite H1 in H5, H6. split; [lia|].
  intros Hc. specialize (Hb Hc). specialize (C5 Hc). lia.
Qed.

Lemma counted_wake (s : State T) : counted (wake s) <-> counted s.
Proof. unfold wake. now destruct (PQueue.isIdle (queue s)). Qed.

Lemma counted_step now (ev : Event T) s :
  accounted s -> counted s -> counted (step now ev s).
Proof.
  intros Ha Hc. pose proof Ha as (Hnd & _ & Hp & _).
  assert (Hstart : forall (qb q : PQueue.Queue) jobs (s1 : State T),
            PQueue.options qb = PQueue.options (queue s) ->
            PQueue.pending q = PQueue.pending (queue (step now ev s)) ->
            PQueue.pending qb = Z.of_nat (List.length (running s1)) ->
            Starts qb q jobs ->
            Counted (PQueue.concurrency (PQueue.options qb)) (PQueue.pending qb)
              (stats s1) (running s1) (settled s1) ->
            counted (started now jobs s1 q)).
  { intros qb q jobs s1 O Pq Hp1 Hs Hc1.
    unfold counted; cbn [queue stats running settled started].
    apply (Counted_start qb q jobs); try assumption.
    intros H0. rewrite Pq, O. apply pending_step; [lia|].
    destruct Hc as (C0 & _). apply C0. now rewrite <- O. }
  destruct ev as [id prio | id o | | |]; unfold step in *.
  - destruct (mem id (submitted s)); [exact Hc|].
    destruct (PQueue.add _ now (queue s)) as [q job'] eqn:E.
    unfold PQueue.add in E. apply tryToStartAnother_starts in E.
    exact (Hstart (PQueue.withWaiting (queue s) _) q (optionList job') s
             eq_refl eq_refl Hp E Hc).
  - destruct (mem id (running s)) eqn:M; [| exact Hc].
    apply mem_In in M.
    destruct (PQueue.next now (queue s)) as [q job'] eqn:E.
    unfold PQueue.next in E. apply tryToStartAnother_starts in E.
    apply counted_wake.
    assert (Hnr : NoDup (running s)).
    { apply NoDup_app_remove_l in Hnd. exact Hnd. }
    pose proof (remove_length id (running s) Hnr M) as Hlen.
    rewrite queue_wake in Hstart.
    apply (Hstart (PQueue.withPending (queue s) (PQueue.pending (queue s) - 1)) q
             (optionList job') _ eq_refl eq_refl); [| exact E |];
      cbn [PQueue.withPending PQueue.pending PQueue.options running stats settled].
    + lia.
    + destruct Hc as (C0 & C1 & C2 & C3 & C4 & C5).
      unfold Counted. cbn [filter snd List.length].
      split; [intros H0; specialize (C0 H0); lia|].
      destruct o as [v | e]; cbn [Js.isRejected negb onCompleted onError
                                  currentActive totalProcessed totalErrors peakActive
                                  List.length];
        repeat split; try lia; exact C5.
  - destruct (PQueue.intervalId (queue s)); [| exact Hc].
    destruct (PQueue.intervalFired now (queue s)) as [q jobs] eqn:E.
    apply intervalFired_starts in E.
    apply counted_wake. rewrite queue_wake in Hstart.
    exact (Hstart (queue s) q jobs s eq_refl eq_refl Hp E Hc).
  - destruct (PQueue.timeoutId (queue s)); [| exact Hc].
    destruct (PQueue.onResumeInterval now (queue s)) as [q jobs] eqn:E.
    apply onResumeInterval_starts in E.
    apply counted_wake. rewrite queue_wake in Hstart.
    exact (Hstart (queue s) q jobs s eq_refl eq_refl Hp E Hc).
  - exact Hc.
Qed.

Lemma counted_run (schedule : list (Z * Event T)) :
  forall s, accounted s -> counted s ->
            accounted (run schedule s) /\ counted (run schedule s).
Proof.
  induction schedule as [|[now ev] rest IH]; intros s Ha Hc; cbn [run].
  - now split.
  - apply IH; [now apply accounted_step | now apply counted_step].
Qed.

Lemma counted_create cfg : counted (create T cfg).
Proof.
  unfold counted, Counted, create; cbn. repeat split; lia.
Qed.

End QueueCounters.

(** X11: for a queue that could be constructed, in every history the tasks
    that run at one time are at most [concurrency]; the queue's [pending] and
    the wrapper's [currentActive] both count exactly the tasks that run, and
    [peakActive] never exceeds the limit. *)
Theorem queue_runs_within_concurrency
  (T : Type) (cfg : InstagramQueue.Config) (s0 : InstagramQueue.State T)
  (schedule : list (Z * InstagramQueue.Event T)) :
  InstagramQueue.construct T cfg = Some s0 ->
  let s := InstagramQueue.run schedule s0 in
  Z.of_nat (List.length (running s)) <= concurrency cfg /\
  snapPending (InstagramQueue.getStats cfg s) = Z.of_nat (List.length (running s)) /\
  currentActive (stats s) = Z.of_nat (List.length (running s)) /\
  currentActive (stats s) <= peakActive (stats s) /\
  peakActive (stats s) <= concurrency cfg.
Proof.
  intros Hc. cbv zeta.
  destruct (construct_create T cfg s0 Hc) as (-> & _ & Hconc).
  destruct (counted_run T schedule (InstagramQueue.create T cfg)
              (accounted_create T cfg) (counted_create T cfg))
    as [(_ & _ & Hp & _) (C0 & C1 & _ & _ & C4 & C5)].
  rewrite options_run in C0, C5.
  cbn [InstagramQueue.create queue PQueue.create PQueue.options PQueue.concurrency
       queueOptions] in C0, C5.
  cbn [InstagramQueue.getStats snapPending].
  specialize (C0 ltac:(lia)). specialize (C5 ltac:(lia)).
  repeat split; lia.
Qed.

(** X11 at work: one task may run at a time and three are submitted. *)
Lemma queue_runs_within_concurrency_witness :
  let cfg := {| concurrency := 1; rateLimitPerMinute := 30 |} in
  let s := InstagramQueue.run
             [ (1000, Add 1 None); (1001, Add 2 None); (1002, Add 3 None) ]
             (InstagramQueue.create unit cfg) in
  InstagramQueue.construct unit cfg = Some (InstagramQueue.create unit cfg) /\
  Z.of_nat (List.length (running s)) <= 1 /\
  peakActive (stats s) <= 1.
Proof.
  cbv zeta.
  pose proof (queue_runs_within_concurrency unit
                {| concurrency := 1; rateLimitPerMinute := 30 |}
                (InstagramQueue.create unit
                   {| concurrency := 1; rateLimitPerMinute := 30 |})
                [ (1000, Add 1 None); (1001, Add 2 None); (1002, Add 3 None) ]
                eq_refl) as H.
  cbv zeta in H. destruct H as (H1 & _ & _ & _ & H5).
  split; [reflexivity|]. split; [exact H1 | exact H5].
Defined.

(** X12: the counters of the wrapper tell the history: [totalProcessed] is the
    number of tasks that have ended with a result, [totalErrors] the number
    that have ended with an error, so that together they count the tasks that
    have ended; a failed task is not counted as processed. *)
Theorem queue_counters_follow_history
  (T : Type) (cfg : InstagramQueue.Config)
  (schedule : list (Z * InstagramQueue.Event T)) :
  let s := InstagramQueue.run schedule (InstagramQueue.create T cfg) in
  totalProcessed (stats s)
  = Z.of_nat (List.length
                (filter (fun e => negb (Js.isRejected (snd e))) (settled s))) /\
  totalErrors (stats s)
  = Z.of_nat (List.length (filter (fun e => Js.isRejected (snd e)) (settled s))) /\
  totalProcessed (stats s) + totalErrors (stats s)
  = Z.of_nat (List.length (settled s)).
Proof.
  cbv zeta.
  destruct (counted_run T schedule (InstagramQueue.create T cfg)
              (accounted_create T cfg) (counted_create T cfg))
    as [_ (_ & _ & C2 & C3 & _)].
  split; [exact C2|]. split; [exact C3|].
  rewrite C2, C3, <- Nat2Z.inj_add. f_equal. clear C2 C3.
  induction (settled (InstagramQueue.run schedule (InstagramQueue.create T cfg)))
    as [|[id o] l IH]; [reflexivity|].
  cbn [filter snd]. destruct (Js.isRejected o); cbn [negb List.length]; lia.
Qed.

(** X13: in every history, the [isIdle] getter of the wrapper is true exactly
    when no task waits and no task runs, and it agrees with the condition
    under which the queue itself reports idle. *)
Theorem isIdle_when_nothing_waits_or_runs
  (T : Type) (cfg : InstagramQueue.Config)
  (schedule : list (Z * InstagramQueue.Event T)) :
  let s := InstagramQueue.run schedule (InstagramQueue.create T cfg) in
  (InstagramQueue.isIdle s = true <-> queued s = [] /\ running s = []) /\
  InstagramQueue.isIdle s = PQueue.isIdle (queue s).
Proof.
  cbv zeta.
  destruct (counted_run T schedule (InstagramQueue.create T cfg)
              (accounted_create T cfg) (counted_create T cfg))
    as [(_ & _ & Hp & _) (_ & C1 & _)].
  set (s := InstagramQueue.run schedule (InstagramQueue.create T cfg)) in *.
  unfold InstagramQueue.isIdle, PQueue.isIdle, PQueue.size, queued.
  rewrite C1, Hp.
  destruct (PQueue.waiting (queue s)) as [|j w]; destruct (running s) as [|r rs];
    cbn [List.length map Z.of_nat]; split;
    try (split; [intros H | intros [H1 H2]]); try discriminate;
    try reflexivity; try (now split).
Qed.

(** ** The health checks *)

Lemma started_counters (T : Type) now (jobs : list PQueue.Job)
  (s : State T) (q : PQueue.Queue) :
  totalProcessed (stats (started now jobs s q)) = totalProcessed (stats s) /\
  totalErrors (stats (started now jobs s q)) = totalErrors (stats s).
Proof.
  cbn [started stats].
  destruct (onActive_fold jobs (stats s)) as (_ & H2 & H3 & _). now split.
Qed.

Lemma stats_wake (T : Type) (s : State T) : stats (wake s) = stats s.
Proof. unfold wake. now destruct (PQueue.isIdle (queue s)). Qed.

Lemma totalProcessed_step (T : Type) now (ev : InstagramQueue.Event T) (s : State T) :
  (forall id o, ev = Finish id o -> Js.isRejected o = true) ->
  totalProcessed (stats (InstagramQueue.step now ev s)) = totalProcessed (stats s).
Proof.
  intros Hev. destruct ev as [id prio | id o | | |]; unfold InstagramQueue.step.
  - destruct (mem id (submitted s)); [reflexivity|].
    destruct (PQueue.add _ now (queue s)) as [q job'].
    cbn [stats]. apply started_counters.
  - destruct (mem id (running s)); [| reflexivity].
    destruct (PQueue.next now (queue s)) as [q job'].
    rewrite stats_wake.
    match goal with
    | |- totalProcessed (stats (started now ?jobs ?s1 q)) = _ =>
        destruct (started_counters T now jobs s1 q) as [-> _]
    end.
    cbn [stats]. specialize (Hev id o eq_refl).
    destruct o; [discriminate | reflexivity].
  - destruct (PQueue.intervalId (queue s)); [| reflexivity].
    destruct (PQueue.intervalFired now (queue s)) as [q jobs].
    rewrite stats_wake.
    now destruct (started_counters T now jobs s q) as [-> _].
  - destruct (PQueue.timeoutId (queue s)); [| reflexivity].
    destruct (PQueue.onResumeInterval now (queue s)) as [q jobs].
    rewrite stats_wake.
    now destruct (started_counters T now jobs s q) as [-> _].
  - reflexivity.
Qed.

(** X14: [checkInstagramQueueHealth] compares [totalErrors] with
    [totalProcessed], which counts successes only, and requires
    [totalProcessed > 0].  As long as no task has succeeded the queue is
    therefore never reported [unhealthy], however many tasks have failed. *)
Theorem queue_health_blind_to_failures_without_success
  (T : Type) (cfg : InstagramQueue.Config)
  (schedule : list (Z * InstagramQueue.Event T)) :
  (forall now id o, In (now, Finish id o) schedule -> Js.isRejected o = true) ->
  let s := InstagramQueue.run schedule (InstagramQueue.create T cfg) in
  totalProcessed (stats s) = 0 /\
  HealthRoute.queueStatus (HealthRoute.checkInstagramQueueHealth cfg s)
  <> Health.unhealthy.
Proof.
  intros Hfail. cbv zeta.
  assert (H : forall s : State T,
             totalProcessed (stats (InstagramQueue.run schedule s))
             = totalProcessed (stats s)).
  { induction schedule as [|[now ev] rest IH]; intros s; cbn [InstagramQueue.run];
      [reflexivity|].
    rewrite IH.
    - apply totalProcessed_step. intros id o ->. apply (Hfail now id o). now left.
    - intros now' id o Hin. apply (Hfail now' id o). now right. }
  specialize (H (InstagramQueue.create T cfg)).
  cbn [InstagramQueue.create stats totalProcessed] in H.
  split; [exact H|].
  unfold HealthRoute.checkInstagramQueueHealth.
  cbn [HealthRoute.queueStatus InstagramQueue.getStats snapStats snapPending].
  rewrite H. cbn [Z.ltb Z.compare andb].
  rewrite andb_false_r.
  destruct (10 <? _); discriminate.
Qed.

(** X14 at work: both tasks fail and the check reports [healthy]. *)
Lemma queue_health_blind_to_failures_without_success_witness :
  let cfg := {| concurrency := 2; rateLimitPerMinute := 30 |} in
  let schedule : list (Z * InstagramQueue.Event unit) :=
    [ (0, Add 1 None); (5, Add 2 None);
      (900, Finish 1 (Js.Rejected (Js.Error "Instagram scrape failed: Timeout")));
      (950, Finish 2 (Js.Rejected (Js.Error "Instagram scrape failed: Timeout"))) ] in
  totalProcessed (stats (InstagramQueue.run schedule (InstagramQueue.create unit cfg)))
  = 0.
Proof.
  cbv zeta.
  refine (proj1 (queue_health_blind_to_failures_without_success unit
                   {| concurrency := 2; rateLimitPerMinute := 30 |}
                   [ (0, Add 1 None); (5, Add 2 None);
                     (900, Finish 1 (Js.Rejected
                                       (Js.Error "Instagram scrape failed: Timeout")));
                     (950, Finish 2 (Js.Rejected
                                       (Js.Error "Instagram scrape failed: Timeout"))) ]
                   _)).
  intros now id o [H | [H | [H | [H | []]]]]; inversion H; reflexivity.
Defined.

(** X15: the check reads [pending], the number of tasks that run, not the
    number that wait.  With a concurrency limit of at most 10 the queue is
    therefore never reported [degraded], whatever the number of tasks that
    wait in it. *)
Theorem queue_health_never_degraded_below_eleven
  (T : Type) (cfg : InstagramQueue.Config)
  (schedule : list (Z * InstagramQueue.Event T)) :
  concurrency cfg <= 10 ->
  HealthRoute.queueStatus
    (HealthRoute.checkInstagramQueueHealth cfg
       (InstagramQueue.run schedule (InstagramQueue.create T cfg)))
  <> Health.degraded.
Proof.
  intros Hc.
  assert (Hp : PQueue.pending
                 (queue (InstagramQueue.run schedule (InstagramQueue.create T cfg)))
               <= 10).
  { apply pending_run; cbn; lia. }
  unfold HealthRoute.checkInstagramQueueHealth.
  cbn [HealthRoute.queueStatus InstagramQueue.getStats snapStats snapPending].
  destruct (Z.ltb_spec 10
              (PQueue.pending
                 (queue (InstagramQueue.run schedule (InstagramQueue.create T cfg)))));
    [lia|].
  destruct (_ && _); discriminate.
Qed.

(** X15 at work: one task may run at a time and three are submitted. *)
Lemma queue_health_never_degraded_below_eleven_witness :
  1 <= 10 /\
  HealthRoute.queueStatus
    (HealthRoute.checkInstagramQueueHealth
       {| concurrency := 1; rateLimitPerMinute := 30 |}
       (InstagramQueue.run
          ([ (0, Add 1 None); (1, Add 2 None); (2, Add 3 None) ]
             : list (Z * InstagramQueue.Event unit))
          (InstagramQueue.create unit {| concurrency := 1; rateLimitPerMinute := 30 |})))
  <> Health.degraded.
Proof.
  split; [lia|].
  apply (queue_health_never_degraded_below_eleven unit
           {| concurrency := 1; rateLimitPerMinute := 30 |}
           [ (0, Add 1 None); (1, Add 2 None); (2, Add 3 None) ]).
  cbn. lia.
Defined.

(** X16: once [shutdown()] of the pool has been called, [checkBrowserPoolHealth]
    reports [unhealthy] in every later state, whatever else the pool holds;
    [GET /health] then answers 503 with [unhealthy] whatever the other checks
    say, and [GET /health/ready] answers 503. *)
Theorem pool_shutdown_turns_health_unhealthy
  (cfg : BrowserPool.Config) (now0 now : Z) (s : System)
  (schedule : list (Z * BrowserPool.Event))
  (redisHealth : Js.Outcome HealthRoute.RedisHealth)
  (playwrightHealth : Js.Outcome HealthRoute.PlaywrightHealth)
  (redisReady : HealthRoute.RedisHealth) (queue : HealthRoute.QueueHealth) :
  let s' := BrowserPool.run cfg schedule
              (fst (BrowserPool.step cfg now0 BrowserPool.Shutdown s)) in
  let poolHealth := HealthRoute.checkBrowserPoolHealth cfg now (pool s') in
  HealthRoute.poolStatus poolHealth = Health.unhealthy /\
  HealthRoute.health redisHealth playwrightHealth queue poolHealth
  = (503, Health.unhealthy) /\
  HealthRoute.ready redisReady queue poolHealth = 503.
Proof.
  cbv zeta.
  assert (Hs : isShuttingDown
                 (pool (BrowserPool.run cfg schedule
                          (fst (BrowserPool.step cfg now0 BrowserPool.Shutdown s))))
               = true) by (apply isShuttingDown_run; reflexivity).
  assert (Hp : HealthRoute.poolStatus
                 (HealthRoute.checkBrowserPoolHealth cfg now
                    (pool (BrowserPool.run cfg schedule
                             (fst (BrowserPool.step cfg now0 BrowserPool.Shutdown s)))))
               = Health.unhealthy).
  { unfold HealthRoute.checkBrowserPoolHealth.
    cbn [HealthRoute.poolStatus BrowserPool.getStats statsIsShuttingDown].
    now rewrite Hs. }
  split; [exact Hp|]. split.
  - unfold HealthRoute.health, HealthRoute.services, Health.determineOverallStatus.
    cbn [Health.redis Health.instagram_queue Health.browser_pool Health.playwright].
    rewrite Hp. unfold Health.includes. cbn [existsb Health.status_eqb].
    rewrite !orb_true_r. reflexivity.
  - unfold HealthRoute.ready, HealthRoute.isReady. rewrite Hp.
    cbn [Health.status_eqb negb]. now rewrite andb_false_r.
Qed.



(** X18: the Playwright check borrows a browser from the pool.  On a pool that
    is shutting down it reports [unhealthy] with the pool's message.  When the
    pool hands it an idle instance, it reports [healthy] and gives the
    instance back at once: the pool holds the same ids as before, the
    instance is idle again, but its [lastUsed] is now the time of the probe,
    so that no sweep selects it before [idleTimeout] has passed again. *)
Theorem playwright_probe_borrows_and_returns
  (cfg : BrowserPool.Config) (startTime now : Z) (p : Pool) :
  wellKeyed p ->
  (isShuttingDown p = true ->
   getBrowserContext cfg None startTime p
   = Throws (Js.Error "Browser pool is shutting down") /\
   HealthRoute.checkPlaywrightHealth true
     (Js.Rejected (Js.Error "Browser pool is shutting down")) startTime now p
   = ({| HealthRoute.playwrightStatus := Health.unhealthy;
         HealthRoute.playwrightError := Some "Browser pool is shutting down";
         HealthRoute.testDuration := None |}, p)) /\
  (forall lease p1,
     getBrowserContext cfg None startTime p = Returns lease p1 ->
     let probed := HealthRoute.checkPlaywrightHealth true (Js.Resolved lease)
                     startTime now p1 in
     HealthRoute.playwrightStatus (fst probed) = Health.healthy /\
     JsMap.keys (instances (snd probed)) = JsMap.keys (instances p) /\
     (exists instance,
        JsMap.get (instanceId lease) (instances (snd probed)) = Some instance /\
        isActive instance = false /\ lastUsed instance = now) /\
     (forall later, later - now <= idleTimeout cfg ->
        ~ In (instanceId lease) (instancesToCleanup cfg later (snd probed)))) /\
  (forall acquired,
     HealthRoute.checkPlaywrightHealth false acquired startTime now p
     = ({| HealthRoute.playwrightStatus := Health.healthy;
           HealthRoute.playwrightError := None;
           HealthRoute.testDuration := None |}, p)).
Proof.
  intros Hw. split; [| split].
  - intros Hs. unfold getBrowserContext. rewrite Hs. now split.
  - intros lease p1 Hret. cbv zeta.
    unfold getBrowserContext in Hret.
    destruct (isShuttingDown p); [discriminate|].
    destruct (findAvailableInstance None p) as [a|] eqn:F;
      [| destruct (JsMap.size (instances p) <? poolSize cfg); discriminate].
    injection Hret as <- <-.
    destruct (findAvailableInstance_stored _ _ _ Hw F) as [Hidle Hget].
    cbn [HealthRoute.checkPlaywrightHealth negb fst snd instanceId
           HealthRoute.playwrightStatus].
    assert (Hw1 : wellKeyed (assign (id a) a startTime true p))
      by (now apply wellKeyed_assign).
    pose proof (wellKeyed_release _ (id a) now Hw1) as Hw2.
    unfold releaseBrowserContext in *.
    assert (G1 : JsMap.get (id a) (instances (assign (id a) a startTime true p))
                 = Some {| browser := browser a; context := context a;
                           createdAt := createdAt a; lastUsed := startTime;
                           isActive := true; id := id a |}).
    { unfold assign; cbn [instances withInstances]. apply get_set_same. }
    rewrite G1 in *.
    assert (G2 : JsMap.get (id a)
                   (instances
                      (assign (id a)
                         {| browser := browser a; context := context a;
                            createdAt := createdAt a; lastUsed := startTime;
                            isActive := true; id := id a |} now false
                         (assign (id a) a startTime true p)))
                 = Some {| browser := browser a; context := context a;
                           createdAt := createdAt a; lastUsed := now;
                           isActive := false; id := id a |}).
    { unfold assign at 1; cbn [instances withInstances browser context createdAt id].
      apply get_set_same. }
    split; [reflexivity|]. split; [| split].
    + unfold assign; cbn [instances withInstances].
      rewrite keys_set_present.
      * apply keys_set_present. congruence.
      * rewrite get_set_same. discriminate.
    + eexists. split; [exact G2|]. now split.
    + intros later Hl Hin.
      unfold instancesToCleanup, JsMap.keys in Hin.
      apply in_map_iff in Hin as ([k v] & E & Hin). cbn in E. subst k.
      apply filter_In in Hin as [Hin Hsw].
      apply In_get in Hin; [| exact (proj1 Hw2)].
      rewrite G2 in Hin. injection Hin as <-.
      unfold swept in Hsw. cbn [snd isActive lastUsed negb andb] in Hsw.
      apply Z.ltb_lt in Hsw. lia.
  - intros acquired. reflexivity.
Qed.

(** X18 at work on [samplePool]: the probe borrows the first idle instance
    and gives it back; the pool holds the same three ids. *)
Lemma playwright_probe_borrows_and_returns_witness :
  JsMap.keys
    (instances
       (snd (HealthRoute.checkPlaywrightHealth true
               (Js.Resolved {| leased := {| owner := plain |};
                               instanceId := "stale" |})
               1000000 1000050
               (assign "stale"
                  {| browser := plain; context := {| owner := plain |};
                     createdAt := 10; lastUsed := 2000; isActive := false;
                     id := "stale" |} 1000000 true samplePool))))
  = ["busy"; "stale"; "fresh"].
Proof.
  refine (proj1 (proj2 (proj1 (proj2 (playwright_probe_borrows_and_returns
                                        sampleConfig 1000000 1000050 samplePool _))
                          {| leased := {| owner := plain |}; instanceId := "stale" |}
                          (assign "stale"
                             {| browser := plain; context := {| owner := plain |};
                                createdAt := 10; lastUsed := 2000; isActive := false;
                                id := "stale" |} 1000000 true samplePool)
                          eq_refl))).
  split; [| repeat constructor].
  repeat (constructor; [cbn; intuition discriminate|]). constructor.
Defined.

(** ** The cache *)

Section CacheFacts.

Variable stringify : Types.Json -> string.
Variable parse : string -> Js.Outcome Types.Json.

Lemma truthy_text (text : string) : text <> EmptyString -> Js.truthy (Some text) = true.
Proof. destruct text; [congruence | reflexivity]. Qed.

Lemma getCache_after_setCache key value seconds now now' (r : Cache.Redis) :
  Cache.failure r = None ->
  0 < seconds ->
  fst (Cache.redisSetEx key (stringify value) seconds now r) = Js.Resolved tt /\
  Cache.failure (snd (Cache.redisSetEx key (stringify value) seconds now r)) = None /\
  (stringify value <> EmptyString -> now' < now + 1000 * seconds ->
   Cache.getCache parse key now' (snd (Cache.redisSetEx key (stringify value) seconds now r))
   = parse (stringify value)) /\
  (now + 1000 * seconds <= now' ->
   Cache.getCache parse key now' (snd (Cache.redisSetEx key (stringify value) seconds now r))
   = Js.Resolved Types.JNull) /\
  (forall k', k' <> key ->
     Cache.getCache parse k' now' (snd (Cache.redisSetEx key (stringify value) seconds now r))
     = Cache.getCache parse k' now' r).
Proof.
  intros Hf Hs. unfold Cache.redisSetEx. rewrite Hf.
  destruct (Z.leb_spec seconds 0) as [H | _]; [lia|].
  cbn [fst snd Cache.failure].
  split; [reflexivity|]. split; [reflexivity|].
  unfold Cache.getCache, Cache.redisGet. cbn [Cache.failure Cache.entries].
  rewrite ?Hf, get_set_same. cbn [Cache.expiresAt Cache.stored].
  split; [| split].
  - intros Hne Hlt. destruct (Z.ltb_spec now' (now + 1000 * seconds)); [| lia].
    now rewrite truthy_text.
  - intros Hge. destruct (Z.ltb_spec now' (now + 1000 * seconds)); [lia|].
    reflexivity.
  - intros k' Hne. rewrite get_set_other by congruence. reflexivity.
Qed.

End CacheFacts.

(** X19: a value written by [setCache] is read back by [getCache] under the
    same key until its time to live is over, and reads as [null] from then on;
    other keys are not touched.  Without a third argument the time to live is
    86400 s, one day.  This holds on a reachable Redis for a value that
    [JSON.parse] gives back from its [JSON.stringify]. *)
Theorem cache_round_trip_until_expiry
  (stringify : Types.Json -> string) (parse : string -> Js.Outcome Types.Json)
  (key : string) (value : Types.Json) (ttlSeconds : option Z) (now now' : Z)
  (r : Cache.Redis) :
  Cache.failure r = None ->
  parse (stringify value) = Js.Resolved value ->
  stringify value <> EmptyString ->
  0 < match ttlSeconds with Some t => t | None => 86400 end ->
  let ttl := 1000 * match ttlSeconds with Some t => t | None => 86400 end in
  let written := Cache.setCache stringify key value ttlSeconds now r in
  fst written = Js.Resolved tt /\
  (now' < now + ttl ->
   Cache.getCache parse key now' (snd written) = Js.Resolved value) /\
  (now + ttl <= now' ->
   Cache.getCache parse key now' (snd written) = Js.Resolved Types.JNull) /\
  (forall k', k' <> key ->
     Cache.getCache parse k' now' (snd written) = Cache.getCache parse k' now' r) /\
  (ttlSeconds = None -> ttl = 86400000).
Proof.
  intros Hf Hrt Hne Hpos. cbv zeta. unfold Cache.setCache.
  destruct (getCache_after_setCache stringify parse key value
              (match ttlSeconds with Some t => t | None => 86400 end)
              now now' r Hf Hpos) as (H1 & _ & H3 & H4 & H5).
  split; [exact H1|]. split; [| split; [exact H4 | split; [exact H5|]]].
  - intros Hlt. rewrite H3; [exact Hrt | exact Hne | exact Hlt].
  - intros ->. reflexivity.
Qed.

(** X19 at work: a value stored for ten seconds is read back after five. *)
Lemma cache_round_trip_until_expiry_witness :
  Cache.getCache (fun _ => Js.Resolved (Types.JString "ok")) "health:check" 5000
    (snd (Cache.setCache (fun _ => "ok") "health:check" (Types.JString "ok")
            (Some 10) 0 {| Cache.entries := []; Cache.failure := None |}))
  = Js.Resolved (Types.JString "ok").
Proof.
  refine (proj1 (proj2 (cache_round_trip_until_expiry
                          (fun _ => "ok") (fun _ => Js.Resolved (Types.JString "ok"))
                          "health:check" (Types.JString "ok") (Some 10) 0 5000
                          {| Cache.entries := []; Cache.failure := None |}
                          eq_refl eq_refl _ _)) _).
  - discriminate.
  - reflexivity.
  - reflexivity.
Defined.

(** X20: [checkRedisHealth] writes [health:check] with ten seconds to live and
    reads it back.  On a reachable Redis it reports [healthy], with the time
    from start to end as latency, when the read reaches the server less than
    ten seconds after the write, and [unhealthy] with [Redis test failed] when
    it comes later; while Redis cannot be reached it reports [unhealthy] with
    the connection's error message. *)
Theorem checkRedisHealth_reads_back_its_probe
  (stringify : Types.Json -> string) (parse : string -> Js.Outcome Types.Json)
  (startTime setAt getAt endTime : Z) (r : Cache.Redis) :
  parse (stringify (Types.JString "ok")) = Js.Resolved (Types.JString "ok") ->
  stringify (Types.JString "ok") <> EmptyString ->
  let checked := HealthRoute.checkRedisHealth stringify parse
                   startTime setAt getAt endTime r in
  (Cache.failure r = None -> getAt < setAt + 10000 ->
   fst checked = {| HealthRoute.redisStatus := Health.healthy;
                    HealthRoute.latency := Some (endTime - startTime);
                    HealthRoute.redisError := None |}) /\
  (Cache.failure r = None -> setAt + 10000 <= getAt ->
   fst checked = {| HealthRoute.redisStatus := Health.unhealthy;
                    HealthRoute.latency := None;
                    HealthRoute.redisError := Some "Redis test failed" |}) /\
  (forall error, Cache.failure r = Some error ->
   checked = ({| HealthRoute.redisStatus := Health.unhealthy;
                 HealthRoute.latency := None;
                 HealthRoute.redisError := Some (Types.errorMessage error) |}, r)).
Proof.
  intros Hrt Hne. cbv zeta. unfold HealthRoute.checkRedisHealth, Cache.setCache.
  split; [| split].
  - intros Hf Hlt.
    destruct (getCache_after_setCache stringify parse "health:check"
                (Types.JString "ok") 10 setAt getAt r Hf ltac:(lia))
      as (H1 & _ & H3 & _).
    destruct (Cache.redisSetEx _ _ _ _ _) as [o r1]. cbn [fst snd] in *. subst o.
    rewrite H3, Hrt by (assumption || lia). reflexivity.
  - intros Hf Hge.
    destruct (getCache_after_setCache stringify parse "health:check"
                (Types.JString "ok") 10 setAt getAt r Hf ltac:(lia))
      as (H1 & _ & _ & H4 & _).
    destruct (Cache.redisSetEx _ _ _ _ _) as [o r1]. cbn [fst snd] in *. subst o.
    rewrite H4 by lia. reflexivity.
  - intros error Hf. unfold Cache.redisSetEx. rewrite Hf. reflexivity.
Qed.

(** X20 at work: Redis answers within five milliseconds. *)
Lemma checkRedisHealth_reads_back_its_probe_witness :
  fst (HealthRoute.checkRedisHealth (fun _ => "ok")
         (fun _ => Js.Resolved (Types.JString "ok")) 0 2 4 5
         {| Cache.entries := []; Cache.failure := None |})
  = {| HealthRoute.redisStatus := Health.healthy;
       HealthRoute.latency := Some (5 - 0);
       HealthRoute.redisError := None |}.
Proof.
  refine (proj1 (checkRedisHealth_reads_back_its_probe
                   (fun _ => "ok") (fun _ => Js.Resolved (Types.JString "ok"))
                   0 2 4 5 {| Cache.entries := []; Cache.failure := None |}
                   eq_refl _) eq_refl _).
  - discriminate.
  - reflexivity.
Defined.

(** ** Platform detection and the cache key *)

Lemma endsWith_iff (s suffix : string) :
  Str.endsWith s suffix = true <-> exists pre, s = String.append pre suffix.
Proof.
  split.
  - induction s as [|c s IH]; cbn [Str.endsWith].
    + destruct (String.eqb_spec EmptyString suffix) as [<- | _]; [| discriminate].
      intros _. now exists EmptyString.
    + destruct (String.eqb_spec (String c s) suffix) as [<- | _].
      * intros _. now exists EmptyString.
      * intros H. destruct (IH H) as [pre ->]. now exists (String c pre).
  - intros [pre ->]. induction pre as [|c pre IH]; cbn [String.append].
    + destruct suffix; cbn [Str.endsWith]; now rewrite String.eqb_refl.
    + cbn [Str.endsWith]. rewrite IH. now destruct (String.eqb _ _).
Qed.

(** X21: [detectPlatform] decides on the characters of the hostname alone.
    A URL counts as Instagram exactly when its hostname ends with the text
    [instagram.com], whatever precedes it, a dot or not; it counts as Telegram
    exactly when its hostname is [t.me]; a string that is not a URL has no
    platform. *)
Theorem detectPlatform_by_hostname_text
  (hostnameOf : string -> option string) (url : string) :
  (Platform.detectPlatform hostnameOf url = Some Platform.instagram <->
   exists pre, hostnameOf url = Some (String.append pre "instagram.com")) /\
  (Platform.detectPlatform hostnameOf url = Some Platform.telegram <->
   hostnameOf url = Some "t.me") /\
  (hostnameOf url = None -> Platform.detectPlatform hostnameOf url = None).
Proof.
  unfold Platform.detectPlatform.
  destruct (hostnameOf url) as [hostname|]; [| split; [| split]].
  - destruct (Str.endsWith hostname "instagram.com") eqn:E.
    + split; [| split].
      * apply endsWith_iff in E as [pre ->].
        split; [intros _; now exists pre | reflexivity].
      * split; [discriminate|]. intros [= ->]. discriminate E.
      * discriminate.
    + split; [| split].
      * split.
        -- destruct (String.eqb hostname "t.me"); discriminate.
        -- intros [pre [= ->]].
           assert (Str.endsWith (String.append pre "instagram.com") "instagram.com"
                   = true) by (apply endsWith_iff; now exists pre).
           congruence.
      * destruct (String.eqb_spec hostname "t.me") as [-> | Hne].
        -- split; reflexivity.
        -- split; [discriminate | congruence].
      * discriminate.
  - split; [discriminate | intros [pre H]; discriminate H].
  - split; discriminate.
  - reflexivity.
Qed.

Lemma dropPrefix_app (p q s : string) :
  Str.dropPrefix (String.append p q) s
  = match Str.dropPrefix p s with
    | Some rest => Str.dropPrefix q rest
    | None => None
    end.
Proof.
  revert s. induction p as [|a p IH]; intros s; [reflexivity|].
  cbn [String.append Str.dropPrefix].
  destruct s as [|b s]; [reflexivity|].
  destruct (Ascii.eqb a b); [apply IH | reflexivity].
Qed.

Lemma dropTrailingSlash_app (u : string) :
  Str.dropTrailingSlash (String.append u "/") = u.
Proof.
  induction u as [|c u IH]; [reflexivity|].
  cbn [String.append Str.dropTrailingSlash]. rewrite IH.
  destruct u; reflexivity.
Qed.

Lemma dropTrailingSlash_none (u : string) :
  Str.endsWith u "/" = false -> Str.dropTrailingSlash u = u.
Proof.
  induction u as [|c u IH]; [reflexivity|].
  cbn [Str.endsWith Str.dropTrailingSlash].
  destruct (String.eqb_spec (String c u) "/") as [E | Hne]; [discriminate|].
  intros H. destruct u as [|c' u'].
  - destruct (Ascii.eqb_spec c "/") as [-> | _]; [congruence | reflexivity].
  - now rewrite IH.
Qed.

(** X22: the handler of [POST /parse] files an Instagram profile under one
    cache key whether the URL is written with or without [www.] and with or
    without a final slash; a Telegram URL is filed under what follows
    [https://t.me/].  A URL that does not begin with [https://], another
    scheme for one, keeps its whole text in the key, less a final slash for
    Instagram. *)
Theorem cacheKey_normalises_profile_urls (u : string) :
  let key := ParseRoute.cacheKey in
  key Platform.instagram (String.append "https://www.instagram.com/" (String.append u "/"))
  = String.append "cache:instagram:" u /\
  key Platform.instagram (String.append "https://instagram.com/" (String.append u "/"))
  = String.append "cache:instagram:" u /\
  (Str.endsWith u "/" = false ->
   key Platform.instagram (String.append "https://www.instagram.com/" u)
   = String.append "cache:instagram:" u /\
   key Platform.instagram (String.append "https://instagram.com/" u)
   = String.append "cache:instagram:" u) /\
  key Platform.telegram (String.append "https://t.me/" u)
  = String.append "cache:telegram:" u /\
  (Str.dropPrefix "https://" u = None ->
   key Platform.instagram u
   = String.append "cache:instagram:" (Str.dropTrailingSlash u) /\
   key Platform.telegram u = String.append "cache:telegram:" u).
Proof.
  cbv zeta. unfold ParseRoute.cacheKey, ParseRoute.nickname.
  assert (W : forall v, ParseRoute.dropInstagramOrigin
                          (String.append "https://www.instagram.com/" v) = v)
    by reflexivity.
  assert (N : forall v, ParseRoute.dropInstagramOrigin
                          (String.append "https://instagram.com/" v) = v)
    by reflexivity.
  rewrite !W, !N, !dropTrailingSlash_app.
  split; [reflexivity|]. split; [reflexivity|]. split; [| split].
  - intros H. rewrite (dropTrailingSlash_none u H). now split.
  - reflexivity.
  - intros H. unfold ParseRoute.dropInstagramOrigin. rewrite H.
    split; [reflexivity|].
    unfold Str.replacePrefix.
    destruct (Str.dropPrefix "https://t.me/" u) eqn:E; [| reflexivity].
    change "https://t.me/" with (String.append "https://" "t.me/") in E.
    rewrite dropPrefix_app, H in E. discriminate E.
Qed.

(** ** The handler of POST /parse *)

Lemma cacheKey_by_nickname platform url1 url2 :
  ParseRoute.nickname platform url2 = ParseRoute.nickname platform url1 ->
  ParseRoute.cacheKey platform url2 = ParseRoute.cacheKey platform url1.
Proof. unfold ParseRoute.cacheKey. now intros ->. Qed.

(** X23: a profile that is not in the cache is scraped once and stored under
    its cache key; for the next 86400 s every request for the same platform
    and nickname, however its URL is written and whatever its scraper would
    do, is answered 200 with the stored result after a single read of the
    cache, without a call of the scraper and without a write.  From then on
    the scraper is called again.  This holds for a result that [JSON.parse]
    gives back from its [JSON.stringify]. *)
Theorem parse_route_serves_repeat_from_cache
  (hostnameOf : string -> option string) (isUrl : string -> bool)
  (stringify : Types.Json -> string) (parse : string -> Js.Outcome Types.Json)
  (body1 body2 : Types.Json) (url1 url2 : string) (proxy1 proxy2 : option string)
  (platform : Platform.SupportedPlatform) (result : Types.ScrapeResult)
  (scraped2 : Js.Outcome Types.ScrapeResult) (now1 later1 now2 later2 : Z)
  (r : Cache.Redis) :
  ParseRoute.safeParse isUrl body1 = Some (url1, proxy1) ->
  ParseRoute.safeParse isUrl body2 = Some (url2, proxy2) ->
  Platform.detectPlatform hostnameOf url1 = Some platform ->
  Platform.detectPlatform hostnameOf url2 = Some platform ->
  ParseRoute.nickname platform url2 = ParseRoute.nickname platform url1 ->
  Cache.redisGet (ParseRoute.cacheKey platform url1) now1 r = Js.Resolved None ->
  parse (stringify (Types.toJson result)) = Js.Resolved (Types.toJson result) ->
  stringify (Types.toJson result) <> EmptyString ->
  let handle := ParseRoute.handle hostnameOf isUrl stringify parse in
  let key := ParseRoute.cacheKey platform url1 in
  let first := handle body1 (Js.Resolved result) now1 later1 r in
  let second := handle body2 scraped2 now2 later2 (ParseRoute.redis first) in
  ParseRoute.response first
  = {| ParseRoute.status := 200; ParseRoute.json := Types.toJson result |} /\
  (exists proxy, ParseRoute.calls first
                 = [ ParseRoute.GetCache key; ParseRoute.Scrape platform url1 proxy;
                     ParseRoute.SetCache key ]) /\
  (now2 < later1 + 86400000 ->
   ParseRoute.response second
   = {| ParseRoute.status := 200; ParseRoute.json := Types.toJson result |} /\
   ParseRoute.calls second = [ParseRoute.GetCache key] /\
   ParseRoute.redis second = ParseRoute.redis first) /\
  (later1 + 86400000 <= now2 ->
   exists proxy, In (ParseRoute.Scrape platform url2 proxy) (ParseRoute.calls second)).
Proof.
  intros Hb1 Hb2 Hp1 Hp2 Hnick Hmiss Hrt Hne. cbv zeta.
  assert (Hf : Cache.failure r = None).
  { unfold Cache.redisGet in Hmiss. now destruct (Cache.failure r). }
  destruct (getCache_after_setCache stringify parse
              (ParseRoute.cacheKey platform url1) (Types.toJson result)
              86400 later1 now2 r Hf ltac:(lia)) as (H1 & H2 & H3 & H4 & _).
  assert (Hfirst :
            ParseRoute.handle hostnameOf isUrl stringify parse body1
              (Js.Resolved result) now1 later1 r
            = {| ParseRoute.response :=
                   {| ParseRoute.status := 200;
                      ParseRoute.json := Types.toJson result |};
                 ParseRoute.redis :=
                   snd (Cache.redisSetEx (ParseRoute.cacheKey platform url1)
                          (stringify (Types.toJson result)) 86400 later1 r);
                 ParseRoute.calls :=
                   [ ParseRoute.GetCache (ParseRoute.cacheKey platform url1);
                     ParseRoute.Scrape platform url1
                       match platform with
                       | Platform.instagram =>
                           if Js.truthy proxy1 then proxy1 else None
                       | Platform.telegram => None
                       end;
                     ParseRoute.SetCache (ParseRoute.cacheKey platform url1) ] |}).
  { unfold ParseRoute.handle. rewrite Hb1, Hp1.
    unfold Cache.getCache. rewrite Hmiss. cbn [Js.truthy Types.truthy].
    unfold Cache.setCache.
    destruct (Cache.redisSetEx _ _ _ _ _) as [o r1]. cbn [fst snd] in *.
    now subst o. }
  rewrite Hfirst. cbn [ParseRoute.response ParseRoute.redis ParseRoute.calls].
  split; [reflexivity|]. split; [now eexists|].
  unfold ParseRoute.handle. rewrite Hb2, Hp2, (cacheKey_by_nickname _ _ _ Hnick).
  split.
  - intros Hlt. rewrite H3, Hrt by (assumption || lia).
    cbn [Types.toJson Types.truthy]. now repeat split.
  - intros Hge. rewrite H4 by lia. cbn [Types.truthy].
    destruct scraped2 as [res2 | err2].
    + destruct (Cache.setCache _ _ _ _ _ _) as [[u | e] r2];
        cbn [ParseRoute.parseError ParseRoute.calls];
        eexists; right; left; reflexivity.
    + cbn [ParseRoute.parseError ParseRoute.calls].
      eexists; right; left; reflexivity.
Qed.

(** X23 at work: a Telegram channel is asked for twice within a minute; the
    second scraper would fail. *)
Lemma parse_route_serves_repeat_from_cache_witness :
  let result := {| Types.platform := "telegram"; Types.nickname := "durov";
                   Types.fullName := "Pavel Durov"; Types.bio := EmptyString;
                   Types.avatarUrl := "https://cdn.t.me/durov.jpg" |} in
  let handle := ParseRoute.handle (fun _ => Some "t.me") (fun _ => true)
                  (fun _ => "json") (fun _ => Js.Resolved (Types.toJson result)) in
  let body := Types.JObject [("url", Types.JString "https://t.me/durov")] in
  let first := handle body (Js.Resolved result) 0 400
                 {| Cache.entries := []; Cache.failure := None |} in
  ParseRoute.response first
  = {| ParseRoute.status := 200; ParseRoute.json := Types.toJson result |}.
Proof.
  cbv zeta.
  refine (proj1 (parse_route_serves_repeat_from_cache
                   (fun _ => Some "t.me") (fun _ => true) (fun _ => "json")
                   (fun _ => Js.Resolved
                               (Types.toJson
                                  {| Types.platform := "telegram";
                                     Types.nickname := "durov";
                                     Types.fullName := "Pavel Durov";
                                     Types.bio := EmptyString;
                                     Types.avatarUrl := "https://cdn.t.me/durov.jpg" |}))
                   (Types.JObject [("url", Types.JString "https://t.me/durov")])
                   (Types.JObject [("url", Types.JString "https://t.me/durov")])
                   "https://t.me/durov" "https://t.me/durov" None None
                   Platform.telegram _
                   (Js.Rejected (Js.Error "Failed to fetch Telegram page: 500"))
                   0 400 60000 60400
                   {| Cache.entries := []; Cache.failure := None |}
                   eq_refl eq_refl eq_refl eq_refl eq_refl eq_refl eq_refl _)).
  discriminate.
Defined.

(** X24: the handler answers 200, 400 or 422 and nothing else, and when it
    answers 400 or 422 it leaves the cache as it was.  While Redis cannot be
    reached, every request that names a supported profile is answered 422
    with the connection's error message after the one failed read of the
    cache: the scraper is not called at all.  When the scraper is called and
    fails, the answer is 422 with the scraper's message and nothing is
    written to the cache. *)
Theorem parse_route_failures
  (hostnameOf : string -> option string) (isUrl : string -> bool)
  (stringify : Types.Json -> string) (parse : string -> Js.Outcome Types.Json)
  (body : Types.Json) (scraped : Js.Outcome Types.ScrapeResult)
  (now later : Z) (r : Cache.Redis) :
  let handled := ParseRoute.handle hostnameOf isUrl stringify parse body scraped
                   now later r in
  let status := ParseRoute.status (ParseRoute.response handled) in
  (status = 200 \/ status = 400 \/ status = 422) /\
  (status = 400 \/ status = 422 -> ParseRoute.redis handled = r) /\
  (forall error url proxy platform,
     Cache.failure r = Some error ->
     ParseRoute.safeParse isUrl body = Some (url, proxy) ->
     Platform.detectPlatform hostnameOf url = Some platform ->
     ParseRoute.response handled
     = {| ParseRoute.status := 422;
          ParseRoute.json := ParseRoute.failureBody (Types.errorMessage error)
                               "PARSE_ERROR" |} /\
     ParseRoute.calls handled
     = [ParseRoute.GetCache (ParseRoute.cacheKey platform url)]) /\
  (forall error,
     scraped = Js.Rejected error ->
     (forall key, ~ In (ParseRoute.SetCache key) (ParseRoute.calls handled)) /\
     (forall platform url proxy,
        In (ParseRoute.Scrape platform url proxy) (ParseRoute.calls handled) ->
        ParseRoute.response handled
        = {| ParseRoute.status := 422;
             ParseRoute.json := ParseRoute.failureBody (Types.errorMessage error)
                                  "PARSE_ERROR" |})).
Proof.
  cbv zeta. unfold ParseRoute.handle.
  destruct (ParseRoute.safeParse isUrl body) as [[url proxy]|] eqn:Hb.
  2:{ cbn. split; [auto|]. split; [auto|].
      split; [intros ? ? ? ? _ H; discriminate H|].
      intros error _. split; [intros key [] | intros platform url proxy []]. }
  destruct (Platform.detectPlatform hostnameOf url) as [platform|] eqn:Hd.
  2:{ cbn. split; [auto|]. split; [auto|].
      split; [intros ? ? ? ? _ [= <- <-] H; congruence|].
      intros error _. split; [intros key [] | intros platform url' proxy' []]. }
  unfold Cache.getCache, Cache.redisGet, Cache.setCache, Cache.redisSetEx.
  destruct (Cache.failure r) as [down|] eqn:Hf.
  - cbn. split; [auto|]. split; [auto|]. split.
    + intros error url' proxy' platform' [= <-] [= <- <-] H.
      assert (platform' = platform) as -> by congruence. now split.
    + intros error _. split.
      * intros key [H | []]. discriminate H.
      * intros platform' url' proxy' [H | []]. discriminate H.
  - cbn [Z.leb Z.compare].
    split; [| split; [| split; [intros; discriminate|]]].
    + destruct (JsMap.get _ (Cache.entries r)) as [e|];
        [destruct (now <? Cache.expiresAt e);
         [destruct (Js.truthy (Some (Cache.stored e)));
          [destruct (parse (Cache.stored e)) as [cached | err]|]|]|];
        cbn [Js.truthy Types.truthy];
        try destruct (Types.truthy cached);
        try destruct scraped as [res | err'];
        cbn; auto.
    + destruct (JsMap.get _ (Cache.entries r)) as [e|];
        [destruct (now <? Cache.expiresAt e);
         [destruct (Js.truthy (Some (Cache.stored e)));
          [destruct (parse (Cache.stored e)) as [cached | err]|]|]|];
        cbn [Js.truthy Types.truthy];
        try destruct (Types.truthy cached);
        try destruct scraped as [res | err'];
        cbn; intros [H | H]; (discriminate H || reflexivity).
    + intros error ->.
      destruct (JsMap.get _ (Cache.entries r)) as [e|];
        [destruct (now <? Cache.expiresAt e);
         [destruct (Js.truthy (Some (Cache.stored e)));
          [destruct (parse (Cache.stored e)) as [cached | err]|]|]|];
        cbn [Js.truthy Types.truthy];
        try destruct (Types.truthy cached);
        cbn [ParseRoute.parseError ParseRoute.response ParseRoute.calls];
        (split;
         [intros key Hin;
          repeat (destruct Hin as [Hin | Hin]; [discriminate Hin|]); exact Hin
         | intros platform' url' proxy' Hin;
           repeat (destruct Hin as [Hin | Hin];
                   [discriminate Hin || reflexivity|]); destruct Hin]).
Qed.

(** ** scrapeInstagramProfile *)

Section ScrapeFacts.

Variable World : Type.
Variable sleep : Z -> World -> World.
Variable newPage : World -> Js.Outcome unit * World.
Variable setExtraHTTPHeaders : World -> Js.Outcome unit * World.
Variable goto : string -> World -> Js.Outcome unit * World.
Variable waitForTimeout : World -> Js.Outcome unit * World.
Variable waitForSelector : World -> Js.Outcome unit * World.
Variable evaluate : World -> Js.Outcome Instagram.Fields * World.
Variable close : World -> Js.Outcome unit * World.

Lemma gotoCalls_app (a b : list Instagram.Step) :
  Instagram.gotoCalls (a ++ b)
  = (Instagram.gotoCalls a + Instagram.gotoCalls b)%nat.
Proof. unfold Instagram.gotoCalls. now rewrite filter_app, length_app. Qed.

Lemma selectorCalls_app (a b : list Instagram.Step) :
  Instagram.selectorCalls (a ++ b)
  = (Instagram.selectorCalls a + Instagram.selectorCalls b)%nat.
Proof. unfold Instagram.selectorCalls. now rewrite filter_app, length_app. Qed.

Lemma closeCalls_app (a b : list Instagram.Step) :
  Instagram.closeCalls (a ++ b)
  = (Instagram.closeCalls a + Instagram.closeCalls b)%nat.
Proof. unfold Instagram.closeCalls. now rewrite filter_app, length_app. Qed.

Lemma retried_goto_calls (evs : list Retry.Event) :
  Instagram.gotoCalls (map Instagram.GotoRetry evs) = Retry.invocations evs /\
  Instagram.selectorCalls (map Instagram.GotoRetry evs) = 0%nat /\
  Instagram.closeCalls (map Instagram.GotoRetry evs) = 0%nat.
Proof.
  unfold Instagram.gotoCalls, Instagram.selectorCalls, Instagram.closeCalls,
    Retry.invocations.
  induction evs as [|e evs (IH1 & IH2 & IH3)]; [now repeat split|].
  cbn [map filter]. destruct e; cbn [List.length]; repeat split; lia.
Qed.

Lemma retried_selector_calls (evs : list Retry.Event) :
  Instagram.selectorCalls (map Instagram.SelectorRetry evs) = Retry.invocations evs /\
  Instagram.gotoCalls (map Instagram.SelectorRetry evs) = 0%nat /\
  Instagram.closeCalls (map Instagram.SelectorRetry evs) = 0%nat.
Proof.
  unfold Instagram.gotoCalls, Instagram.selectorCalls, Instagram.closeCalls,
    Retry.invocations.
  induction evs as [|e evs (IH1 & IH2 & IH3)]; [now repeat split|].
  cbn [map filter]. destruct e; cbn [List.length]; repeat split; lia.
Qed.

Lemma withRetry_two_calls (T : Type) (operation : Retry.Operation World T) cid w :
  (Retry.invocations (Retry.events (Retry.withRetry sleep operation 2 cid w)) <= 2)%nat.
Proof.
  unfold Retry.withRetry.
  pose proof (retryLoop_invocations_le World T sleep operation
                (S (Z.to_nat 2)) 2 cid 1 Js.Undefined w) as H.
  exact H.
Qed.

(** The steps of the [try] block after the page was opened: no [close], at
    most two calls of each retried operation; a success is an Instagram
    result. *)
Lemma scrapePage_steps url cid w :
  let r := Instagram.scrapePage World sleep setExtraHTTPHeaders goto waitForTimeout
             waitForSelector evaluate url cid w in
  Instagram.closeCalls (snd r) = 0%nat /\
  (Instagram.gotoCalls (snd r) <= 2)%nat /\
  (Instagram.selectorCalls (snd r) <= 2)%nat /\
  (forall result, fst (fst r) = Js.Resolved result ->
                  Types.platform result = "instagram").
Proof.
  cbv zeta. unfold Instagram.scrapePage, Instagram.bind, Instagram.call,
    Instagram.retried, Instagram.ret.
  destruct (setExtraHTTPHeaders w) as [[u1 | e1] w1];
    [| cbn; repeat split; try lia; intros ? HH; discriminate HH].
  pose proof (withRetry_two_calls unit (goto url) cid w1) as Hg.
  remember (Retry.withRetry sleep (goto url) 2 cid w1) as rg eqn:Erg. clear Erg.
  destruct (retried_goto_calls (Retry.events rg)) as (G1 & G2 & G3).
  destruct (Retry.outcome rg) as [u2 | e2];
    [| cbn [fst snd]; rewrite closeCalls_app, gotoCalls_app, selectorCalls_app,
         G1, G2, G3; cbn; repeat split; try lia; intros ? HH; discriminate HH].
  destruct (waitForTimeout (Retry.world rg)) as [[u3 | e3] w3];
    [| cbn [fst snd]; rewrite !closeCalls_app, !gotoCalls_app, !selectorCalls_app,
         G1, G2, G3; cbn; repeat split; try lia; intros ? HH; discriminate HH].
  pose proof (withRetry_two_calls unit waitForSelector cid w3) as Hs.
  remember (Retry.withRetry sleep waitForSelector 2 cid w3) as rs eqn:Ers. clear Ers.
  destruct (retried_selector_calls (Retry.events rs)) as (S1 & S2 & S3).
  destruct (Retry.outcome rs) as [u4 | e4];
    [| cbn [fst snd]; rewrite !closeCalls_app, !gotoCalls_app, !selectorCalls_app,
         G1, G2, G3, S1, S2, S3; cbn; repeat split; try lia;
       intros ? HH; discriminate HH].
  destruct (evaluate (Retry.world rs)) as [[fields | e5] w5];
    cbn [fst snd]; rewrite !closeCalls_app, !gotoCalls_app, !selectorCalls_app,
      G1, G2, G3, S1, S2, S3; cbn; repeat split; try lia;
      intros ? HH; try discriminate HH.
  now injection HH as <-.
Qed.

(** The [try] block after the page was opened ends as its first failing call
    does, and with an Instagram result when none fails. *)
Lemma scrapePage_outcome url cid w :
  let r := Instagram.scrapePage World sleep setExtraHTTPHeaders goto waitForTimeout
             waitForSelector evaluate url cid w in
  let thrown :=
    Instagram.firstThrown World
      (tl (Instagram.awaited World sleep newPage setExtraHTTPHeaders goto
             waitForTimeout waitForSelector evaluate url cid)) w in
  match fst (fst r) with
  | Js.Rejected error => thrown = Some error
  | Js.Resolved result => thrown = None /\ Types.platform result = "instagram"
  end.
Proof.
  cbv zeta. unfold Instagram.scrapePage, Instagram.bind, Instagram.call,
    Instagram.retried, Instagram.ret, Instagram.awaited.
  cbn [tl Instagram.firstThrown].
  unfold Instagram.outcomeOnly, Instagram.retriedCall. cbv zeta.
  destruct (setExtraHTTPHeaders w) as [[u1 | e1] w1]; [| reflexivity].
  remember (Retry.withRetry sleep (goto url) 2 cid w1) as rg eqn:Erg. clear Erg.
  destruct (Retry.outcome rg) as [u2 | e2]; [| reflexivity].
  destruct (waitForTimeout (Retry.world rg)) as [[u3 | e3] w3]; [| reflexivity].
  remember (Retry.withRetry sleep waitForSelector 2 cid w3) as rs eqn:Ers. clear Ers.
  destruct (Retry.outcome rs) as [u4 | e4]; [| reflexivity].
  destruct (evaluate (Retry.world rs)) as [[fields | e5] w5]; [| reflexivity].
  cbn. now split.
Qed.

End ScrapeFacts.

(** X25: [scrapeInstagramProfile] closes the page exactly when it has opened
    one.  When [context.newPage()] throws, nothing else is called and nothing
    is closed; when it succeeds, [page.close()] is called exactly once,
    as the last step, whatever happened in between and however the scrape
    ends. *)
Theorem scrape_closes_the_page_it_opened
  (World : Type) (sleep : Z -> World -> World)
  (newPage setExtraHTTPHeaders : World -> Js.Outcome unit * World)
  (goto : string -> World -> Js.Outcome unit * World)
  (waitForTimeout waitForSelector : World -> Js.Outcome unit * World)
  (evaluate : World -> Js.Outcome Instagram.Fields * World)
  (close : World -> Js.Outcome unit * World)
  (url cid : string) (w : World) :
  let r := Instagram.scrapeInstagramProfile World sleep newPage setExtraHTTPHeaders
             goto waitForTimeout waitForSelector evaluate close url cid w in
  (forall error w1,
     newPage w = (Js.Rejected error, w1) ->
     r = (Js.Rejected (Instagram.scrapeFailed error), w1, [Instagram.NewPage])) /\
  (Js.isRejected (fst (newPage w)) = false ->
   Instagram.closeCalls (snd r) = 1%nat /\
   last (snd r) Instagram.NewPage = Instagram.ClosePage) /\
  (Instagram.closeCalls (snd r) <= 1)%nat.
Proof.
  cbv zeta. unfold Instagram.scrapeInstagramProfile, Instagram.call.
  destruct (scrapePage_steps World sleep setExtraHTTPHeaders goto waitForTimeout
              waitForSelector evaluate url cid (snd (newPage w))) as (Hc & _).
  destruct (newPage w) as [[u | e] w1]; cbn [fst snd Js.isRejected] in *.
  - destruct (Instagram.scrapePage World sleep setExtraHTTPHeaders goto waitForTimeout
                waitForSelector evaluate url cid w1) as [[o w2] t2].
    destruct (close w2) as [c w3]. cbn [fst snd] in *.
    assert (Hcount : Instagram.closeCalls
                       ([Instagram.NewPage] ++ t2 ++ [Instagram.ClosePage]) = 1%nat).
    { rewrite !closeCalls_app, Hc. reflexivity. }
    split; [intros error w' [=]|]. split; [| rewrite Hcount; lia].
    intros _. split; [exact Hcount|].
    change ([Instagram.NewPage] ++ t2 ++ [Instagram.ClosePage])
      with ((Instagram.NewPage :: t2) ++ [Instagram.ClosePage]).
    apply last_last.
  - split; [now intros error w' [= <- <-]|]. split; [discriminate|].
    cbn. lia.
Qed.

(** X26: [scrapeInstagramProfile] calls [page.goto] at most twice and
    [page.waitForSelector] at most twice.  When it fails, the caller receives
    an [Error] whose message is [Instagram scrape failed: ] followed by the
    message of what the first failing call of the [try] block threw (for a
    retried operation, what its [withRetry] run threw); when no call fails,
    the caller receives a result of platform [instagram]. *)
Theorem scrape_attempts_and_failure_shape
  (World : Type) (sleep : Z -> World -> World)
  (newPage setExtraHTTPHeaders : World -> Js.Outcome unit * World)
  (goto : string -> World -> Js.Outcome unit * World)
  (waitForTimeout waitForSelector : World -> Js.Outcome unit * World)
  (evaluate : World -> Js.Outcome Instagram.Fields * World)
  (close : World -> Js.Outcome unit * World)
  (url cid : string) (w : World) :
  let r := Instagram.scrapeInstagramProfile World sleep newPage setExtraHTTPHeaders
             goto waitForTimeout waitForSelector evaluate close url cid w in
  let thrown :=
    Instagram.firstThrown World
      (Instagram.awaited World sleep newPage setExtraHTTPHeaders goto
         waitForTimeout waitForSelector evaluate url cid) w in
  (Instagram.gotoCalls (snd r) <= 2)%nat /\
  (Instagram.selectorCalls (snd r) <= 2)%nat /\
  (forall reason,
     fst (fst r) = Js.Rejected reason ->
     exists error,
       thrown = Some error /\
       reason = Js.Error (String.append "Instagram scrape failed: "
                            (Types.errorMessage error))) /\
  (forall result, fst (fst r) = Js.Resolved result ->
                  thrown = None /\ Types.platform result = "instagram") /\
  (forall error, thrown = Some error ->
                 fst (fst r)
                 = Js.Rejected
                     (Js.Error (String.append "Instagram scrape failed: "
                                  (Types.errorMessage error)))).
Proof.
  cbv zeta. unfold Instagram.scrapeInstagramProfile, Instagram.call.
  destruct (scrapePage_steps World sleep setExtraHTTPHeaders goto waitForTimeout
              waitForSelector evaluate url cid (snd (newPage w)))
    as (_ & Hg & Hs & _).
  pose proof (scrapePage_outcome World sleep newPage setExtraHTTPHeaders goto
                waitForTimeout waitForSelector evaluate url cid (snd (newPage w)))
    as Ho.
  cbv zeta in Ho.
  change (Instagram.awaited World sleep newPage setExtraHTTPHeaders goto
            waitForTimeout waitForSelector evaluate url cid)
    with (Instagram.outcomeOnly World newPage
          :: tl (Instagram.awaited World sleep newPage setExtraHTTPHeaders goto
                   waitForTimeout waitForSelector evaluate url cid)).
  remember (tl (Instagram.awaited World sleep newPage setExtraHTTPHeaders goto
                  waitForTimeout waitForSelector evaluate url cid)) as rest eqn:Er.
  clear Er. cbn [Instagram.firstThrown]. unfold Instagram.outcomeOnly.
  destruct (newPage w) as [[u | e] w1]; cbn [fst snd] in *.
  - destruct (Instagram.scrapePage World sleep setExtraHTTPHeaders goto waitForTimeout
                waitForSelector evaluate url cid w1) as [[o w2] t2].
    destruct (close w2) as [c w3]. cbn [fst snd] in *.
    rewrite !gotoCalls_app, !selectorCalls_app. cbn.
    split; [lia|]. split; [lia|].
    destruct o as [res | error].
    + destruct Ho as [Hn Hp]. split; [intros ? HH; discriminate HH|].
      split; [intros result [= <-]; now split|].
      intros error HH. congruence.
    + split; [intros reason [= <-]; now exists error|].
      split; [intros ? HH; discriminate HH|].
      intros error' HH. rewrite Ho in HH. now injection HH as <-.
  - cbn. split; [lia|]. split; [lia|].
    split; [intros reason [= <-]; now exists e|].
    split; [intros ? HH; discriminate HH|].
    intros error [= <-]. reflexivity.
Qed.

(** ** tgScrape *)

(** X27: [tgScrape] rejects an answer whose status is not 200 with
    [Failed to fetch Telegram page: ] followed by the status, without reading
    the body.  A result is always one of platform [telegram]; its nickname is
    the one the handler of [POST /parse] puts into the cache key for the same
    URL; and a page that carries none of the three [og:] tags gives empty
    strings, not a failure. *)
Theorem tgScrape_result_and_failure
  (World : Type)
  (request : string -> World ->
             Js.Outcome (Z * (World -> Js.Outcome string * World)) * World)
  (metaContent : string -> string -> option string) (url : string) (w : World) :
  let r := Telegram.tgScrape World request metaContent url w in
  (forall statusCode text w1,
     request url w = (Js.Resolved (statusCode, text), w1) ->
     statusCode <> 200 ->
     r = (Js.Rejected
            (Js.Error (String.append "Failed to fetch Telegram page: "
                         (NilZero.string_of_int (Z.to_int statusCode)))),
          w1, [Telegram.Request url])) /\
  (forall result,
     fst (fst r) = Js.Resolved result ->
     snd r = [Telegram.Request url; Telegram.BodyText] /\
     Types.platform result = "telegram" /\
     Types.nickname result = ParseRoute.nickname Platform.telegram url /\
     ParseRoute.cacheKey Platform.telegram url
     = String.append "cache:telegram:" (Types.nickname result) /\
     ((forall html property, metaContent html property = None) ->
      Types.fullName result = EmptyString /\
      Types.bio result = EmptyString /\
      Types.avatarUrl result = EmptyString)).
Proof.
  cbv zeta. unfold Telegram.tgScrape. split.
  - intros statusCode text w1 -> Hne.
    destruct (Z.eqb_spec statusCode 200); [contradiction | reflexivity].
  - intros result.
    destruct (request url w) as [[[statusCode text] | e] w1]; [| discriminate].
    destruct (statusCode =? 200); [| discriminate]. cbn [negb].
    destruct (text w1) as [[html | e] w2]; [| discriminate].
    cbn [fst snd]. intros [= <-].
    cbn [Types.platform Types.nickname Types.fullName Types.bio Types.avatarUrl].
    split; [reflexivity|]. split; [reflexivity|]. split; [reflexivity|].
    split; [reflexivity|].
    intros Hnone. now rewrite !Hnone.
Qed.

(** ** The browser pool: the sweep and the waiters under interleaving *)

Lemma get_delete_same (m : JsMap.t BrowserInstance) k :
  NoDup (JsMap.keys m) -> JsMap.get k (JsMap.delete k m) = None.
Proof.
  induction m as [|[k' v] m IH]; cbn [JsMap.keys map JsMap.delete JsMap.get];
    [reflexivity|].
  intros Hnd. inversion_clear Hnd as [|? ? Hnin Hnd'].
  destruct (String.eqb_spec k k') as [-> | Hne].
  - now apply get_None_keys.
  - cbn [JsMap.get]. destruct (String.eqb_spec k k'); [congruence|].
    now apply IH.
Qed.

(** X28: an instance stays in the map, idle, while [closeBrowserInstance]
    awaits the end of its two [close()] calls.  A caller that enters
    [getBrowserContext] in that time is handed this very instance; when the
    closing settles the instance is removed from the map although it is
    leased and busy, and the caller's later release finds no such id. *)
Theorem sweep_closes_instance_handed_out_meanwhile
  (cfg : BrowserPool.Config) (now now' now'' : Z) (s : System) (k : string)
  (proxy : option string) (requestId : string) (closed : Js.Outcome unit)
  (rest : list string) (others : list (list string)) (a : BrowserInstance) :
  wellKeyed (pool s) ->
  isShuttingDown (pool s) = false ->
  takeClosing k (closing s) = Some (rest, others) ->
  findAvailableInstance proxy (pool s) = Some a ->
  id a = k ->
  let acquired := BrowserPool.step cfg now (GetBrowserContext proxy requestId) s in
  let s1 := fst acquired in
  let s2 := fst (BrowserPool.step cfg now' (CloseSettled k closed) s1) in
  snd acquired = [Js.Resolved {| leased := context a; instanceId := k |}] /\
  (exists busy, JsMap.get k (instances (pool s1)) = Some busy /\
                isActive busy = true) /\
  JsMap.get k (instances (pool s2)) = None /\
  releaseBrowserContext k now'' (pool s2) = pool s2.
Proof.
  intros Hw Hs Hc Ha Hid. cbv zeta.
  pose proof (wellKeyed_step cfg now (GetBrowserContext proxy requestId) s Hw) as Hw1.
  assert (E : BrowserPool.step cfg now (GetBrowserContext proxy requestId) s
              = (withPool s (assign k a now true (pool s)),
                 [Js.Resolved {| leased := context a; instanceId := k |}])).
  { unfold BrowserPool.step, getBrowserContext. now rewrite Hs, Ha, Hid. }
  rewrite E in *. cbn [fst snd pool withPool] in *.
  split; [reflexivity|]. split.
  - eexists. split; [unfold assign; cbn [instances withInstances]; apply get_set_same|].
    reflexivity.
  - destruct (step_CloseSettled cfg now' k closed
                (withPool s (assign k a now true (pool s)))) as (Ep & _).
    rewrite Ep.
    change (closing (withPool s (assign k a now true (pool s)))) with (closing s).
    rewrite Hc. cbn [pool withPool].
    rewrite closeBrowserInstance_delete. cbn [instances withInstances].
    assert (G : JsMap.get k (JsMap.delete k (instances (assign k a now true (pool s))))
                = None) by (apply get_delete_same; exact (proj1 Hw1)).
    split; [exact G|].
    unfold releaseBrowserContext. cbn [instances withInstances]. now rewrite G.
Qed.

(** X28 at work: the sweep selects [a1] after six idle minutes and starts to
    close it; a caller comes while the browser closes. *)
Lemma sweep_closes_instance_handed_out_meanwhile_witness :
  let cfg := {| poolSize := 1; idleTimeout := 300000; launchTimeout := 30000 |} in
  let s := BrowserPool.run cfg
             [ (0, GetBrowserContext None "a1");
               (800, LaunchSettled "a1" (Js.Resolved tt));
               (5000, ReleaseBrowserContext "a1");
               (360000, CleanupTick) ] boot in
  snd (BrowserPool.step cfg 360001 (GetBrowserContext None "b2") s)
  = [Js.Resolved {| leased := {| owner := plain |}; instanceId := "a1" |}].
Proof.
  cbv zeta.
  refine (proj1 (sweep_closes_instance_handed_out_meanwhile
                   {| poolSize := 1; idleTimeout := 300000; launchTimeout := 30000 |}
                   360001 360500 370000
                   (BrowserPool.run
                      {| poolSize := 1; idleTimeout := 300000; launchTimeout := 30000 |}
                      [ (0, GetBrowserContext None "a1");
                        (800, LaunchSettled "a1" (Js.Resolved tt));
                        (5000, ReleaseBrowserContext "a1");
                        (360000, CleanupTick) ] boot)
                   "a1" None "b2" (Js.Resolved tt) [] []
                   {| browser := plain; context := {| owner := plain |};
                      createdAt := 800; lastUsed := 5000; isActive := false;
                      id := "a1" |}
                   _ eq_refl eq_refl eq_refl eq_refl)).
  apply wellKeyed_run, wellKeyed_create.
Defined.

Lemma nth_error_setNth {A : Type} (l : list A) :
  forall k x y, nth_error l k = Some y -> nth_error (setNth k x l) k = Some x.
Proof.
  induction l as [|z l IH]; intros [|k] x y; cbn; try discriminate.
  - reflexivity.
  - apply IH.
Qed.

(** X29: a caller that waits in [waitForAvailableInstance] and has not timed
    out is served by its first poll that finds an idle instance: its promise
    resolves with that instance, which is marked busy with [lastUsed] set;
    both its interval and its timer are cleared, so that neither a later
    poll nor the 30 s timer of this caller does anything more. *)
Theorem waiting_caller_is_served_once
  (cfg : BrowserPool.Config) (now : Z) (s : System) (k : nat) (w : Waiter)
  (available : BrowserInstance) :
  nth_error (waiters s) k = Some w ->
  found w = false -> timedOut w = false ->
  findAvailableInstance (waiterProxy w) (pool s) = Some available ->
  let served := BrowserPool.step cfg now (PollAvailable k) s in
  snd served = [Js.Resolved {| leased := context available;
                               instanceId := id available |}] /\
  JsMap.get (id available) (instances (pool (fst served)))
  = Some {| browser := browser available; context := context available;
            createdAt := createdAt available; lastUsed := now;
            isActive := true; id := id available |} /\
  (forall later,
     BrowserPool.step cfg later (PollAvailable k) (fst served) = (fst served, [])) /\
  (forall later,
     BrowserPool.step cfg later (WaitTimeout k) (fst served) = (fst served, [])).
Proof.
  intros Hk Hf Ht Ha. cbv zeta.
  assert (E : BrowserPool.step cfg now (PollAvailable k) s
              = (withWaiters
                   (withPool s (assign (id available) available now true (pool s)))
                   (setNth k {| waiterProxy := waiterProxy w;
                                timedOut := timedOut w;
                                found := true |} (waiters s)),
                 [Js.Resolved {| leased := context available;
                                 instanceId := id available |}])).
  { unfold BrowserPool.step. now rewrite Hk, Hf, Ha, Ht. }
  rewrite E. cbn [fst snd pool withWaiters withPool].
  split; [reflexivity|]. split.
  - unfold assign; cbn [instances withInstances]. apply get_set_same.
  - split; intros later; unfold BrowserPool.step; cbn [waiters withWaiters];
      rewrite (nth_error_setNth _ _ _ _ Hk); reflexivity.
Qed.

(** X29 at work: a pool of one; the second caller waits and is served by
    its first poll after the release. *)
Lemma waiting_caller_is_served_once_witness :
  let cfg := {| poolSize := 1; idleTimeout := 300000; launchTimeout := 30000 |} in
  let s := BrowserPool.run cfg
             [ (0, GetBrowserContext None "a1");
               (800, LaunchSettled "a1" (Js.Resolved tt));
               (900, GetBrowserContext None "b2");
               (5000, ReleaseBrowserContext "a1") ] boot in
  snd (BrowserPool.step cfg 5100 (PollAvailable 0) s)
  = [Js.Resolved {| leased := {| owner := plain |}; instanceId := "a1" |}].
Proof.
  cbv zeta.
  exact (proj1 (waiting_caller_is_served_once
                  {| poolSize := 1; idleTimeout := 300000; launchTimeout := 30000 |}
                  5100
                  (BrowserPool.run
                     {| poolSize := 1; idleTimeout := 300000; launchTimeout := 30000 |}
                     [ (0, GetBrowserContext None "a1");
                       (800, LaunchSettled "a1" (Js.Resolved tt));
                       (900, GetBrowserContext None "b2");
                       (5000, ReleaseBrowserContext "a1") ] boot)
                  0%nat
                  {| waiterProxy := None; timedOut := false; found := false |}
                  {| browser := plain; context := {| owner := plain |};
                     createdAt := 800; lastUsed := 5000; isActive := false;
                     id := "a1" |}
                  eq_refl eq_refl eq_refl eq_refl)).
Defined.
